(** * Solid device layer: frontend registry and UDisks2 property cache

    A shallow embedding of

    - [src/solid/devices/frontend/devicemanager.cpp]
      (the identity map of device handles, the add/remove slots, queries);
    - [src/solid/devices/backends/udisks2/udisksmanager.cpp]
      (the per-backend property cache and its three D-Bus slots);
    - [src/solid/devices/backends/fstab/fstabstorageaccess.cpp]
      (the storage access of a device of the mount table);

    followed by the properties of the specification that concern them and
    by further properties of the code.

    Conventions.  C++ objects live in an explicit object store and are named
    by pointers; a signal emission is an element of the list of signals a
    slot returns, in emission order; a blocking D-Bus call is a query to an
    oracle for the bus, and every call made is logged.  [QMap] containers
    whose iteration order is observable are association lists kept in key
    order; maps that are only looked up are [gmap]s. *)

From stdpp Require Import gmap strings list fin_maps sorting.
From Stdlib Require Import String Ascii NArith OrderedTypeEx.

Open Scope string_scope.
Open Scope list_scope.

(** ** Qt core *)

Module Qt.

(** [QString::startsWith]: [startsWith s p] is [s.startsWith(p)]. *)
Definition startsWith (s p : string) : bool := String.prefix p s.

(** [QString::isEmpty]. *)
Definition isEmpty (s : string) : bool := String.eqb s "".

(** The outcome of running a slot.  [Q_ASSERT] aborts the process in
    a debug build and expands to nothing under [QT_NO_DEBUG]. *)
Inductive Run (A : Type) : Type :=
| Done (a : A)
| AssertionFailed.
Arguments Done {A} a.
Arguments AssertionFailed {A}.

#[global] Instance Run_ret : MRet Run := @Done.

#[global] Instance Run_bind : MBind Run := λ A B k m,
  match m with
  | Done a => k a
  | AssertionFailed => AssertionFailed
  end.

(** [Q_ASSERT checked cond]; [checked] is [true] in a debug build. *)
Definition Q_ASSERT (checked cond : bool) : Run unit :=
  if checked && negb cond then AssertionFailed else Done tt.

End Qt.

(** ** [QMap<QString, V>]

    A [QMap] keeps its entries in ascending key order, one entry per key,
    and iterates in that order.  It is embedded as the list of its
    entries; [insert] puts a new key at its place in the order. *)

Module QMap.
Section QMap.
Context {V : Type}.

Definition t : Type := list (string * V).

(** [constFind]: the entry for [k], if any. *)
Fixpoint find (k : string) (m : t) : option V :=
  match m with
  | [] => None
  | (k', v) :: rest => if String.eqb k k' then Some v else find k rest
  end.

Definition contains (k : string) (m : t) : bool :=
  match find k m with Some _ => true | None => false end.

(** [value(k)], with [d] the default-constructed value. *)
Definition value (d : V) (k : string) (m : t) : V :=
  match find k m with Some v => v | None => d end.

Fixpoint insert (k : string) (v : V) (m : t) : t :=
  match m with
  | [] => [(k, v)]
  | (k', v') :: rest =>
      match String.compare k k' with
      | Lt => (k, v) :: (k', v') :: rest
      | Eq => (k, v) :: rest
      | Gt => (k', v') :: insert k v rest
      end
  end.

Fixpoint remove (k : string) (m : t) : t :=
  match m with
  | [] => []
  | (k', v) :: rest =>
      if String.eqb k k' then remove k rest else (k', v) :: remove k rest
  end.

Definition keys (m : t) : list string := map fst m.

Definition isEmpty (m : t) : bool :=
  match m with [] => true | _ :: _ => false end.

(** The keys of a [QMap] ascend strictly. *)
Definition sorted (m : t) : Prop :=
  StronglySorted (fun k k' => String.compare k k' = Lt) (keys m).

(** The entries of a well-formed map carry pairwise different keys. *)
Definition ok (m : t) : Prop := NoDup (keys m).

End QMap.
Arguments t : clear implicits.

(** [for (auto &v : m) v = f(v)]. *)
Definition map_values {A B : Type} (f : A → B) (m : t A) : t B :=
  map (fun kv => (kv.1, f kv.2)) m.

End QMap.

(** [QStringList::removeOne]: drop the first occurrence. *)
Fixpoint removeOne (x : string) (l : list string) : list string :=
  match l with
  | [] => []
  | y :: rest => if String.eqb x y then rest else y :: removeOne x rest
  end.


(** ** The frontend: [devicemanager.cpp] *)

Module Frontend.
Import Qt.

(** Objects are named by pointers; a pointer names one object for ever,
    which is what a [QPointer] observes. *)
Definition ptr := positive.

(** [Solid::Ifaces::Device *]: the backend object behind a handle. *)
Inductive IfacesDevice : Type :=
| BackendDevice (udi : string).

(** What [Ifaces::DeviceManager::createDevice] hands back: a null
    pointer, a [QObject] that is not an [Ifaces::Device], or a device. *)
Inductive QObjectPtr : Type :=
| NullObject
| ForeignObject
| DeviceObject (d : IfacesDevice).

(** [qobject_cast<Ifaces::Device *>(object)]. *)
Definition qobject_cast_Device (object : QObjectPtr) : option IfacesDevice :=
  match object with
  | DeviceObject d => Some d
  | NullObject | ForeignObject => None
  end.

(** [Solid::DeviceInterface::Type], an enumeration, by its integer value. *)
Definition DeviceInterfaceType := N.

(** Modelled from the spec: [DevicePrivate], whose declaration
    ([device_p.h]) and code ([device.cpp]) lie outside the two files
    embedded here.  A handle carries its identifier and a nullable,
    non-owning reference to its backing object. *)
Record DevicePrivate : Type := mkDevicePrivate {
  m_udi : string;
  m_backendObject : option IfacesDevice
}.

(** Modelled from the spec: [DevicePrivate::setBackendObject] rebinds the
    reference to the backing object; the handle itself stays. *)
Definition setBackendObject (object : option IfacesDevice) (d : DevicePrivate)
  : DevicePrivate :=
  {| m_udi := m_udi d; m_backendObject := object |}.

(** Modelled from the spec: [DevicePrivate::backendObject] reads it. *)
Definition backendObject (d : DevicePrivate) : option IfacesDevice :=
  m_backendObject d.

(** [Solid::DeviceManagerPrivate] together with the store of the
    [DevicePrivate] objects it points into. *)
Record Registry : Type := mkRegistry {
  m_nullDevice : ptr;
  m_devicesMap : gmap string ptr;
  m_reverseMap : gmap ptr string;
  objects : gmap ptr DevicePrivate
}.

(** Signals of [Solid::DeviceNotifier]. *)
Inductive Signal : Type :=
| deviceAdded (udi : string)
| deviceRemoved (udi : string).

(** [QPointer<DevicePrivate>::data()]: null once the object is gone. *)
Definition QPointer_data (r : Registry) (p : ptr) : option ptr :=
  match objects r !! p with
  | Some _ => Some p
  | None => None
  end.

(** The state right after the constructor: only the null device exists. *)
Definition initial : Registry :=
  {| m_nullDevice := 1%positive;
     m_devicesMap := ∅;
     m_reverseMap := ∅;
     objects := {[ 1%positive := mkDevicePrivate "" None ]} |}.

Section Backends.

(** The state of the backends (their caches, the services they mirror). *)
Context {W : Type}.

(** [Solid::Ifaces::DeviceManager], the contract of a backend. *)
Record DeviceManager : Type := mkDeviceManager {
  udiPrefix : string;
  supportedInterfaces : gset DeviceInterfaceType;
  allDevices : W → list string * W;
  devicesFromQuery : string → DeviceInterfaceType → W → list string * W;
  createDevice : string → W → QObjectPtr * W
}.

(** [managerBackends()]: a list of [QObject *]; [None] is an object that
    [qobject_cast<Ifaces::DeviceManager *>] rejects. *)
Definition Backends := list (option DeviceManager).

Fixpoint createBackendObject (backends : Backends) (udi : string) (w : W)
  : option IfacesDevice * W :=
  match backends with
  | [] => (None, w)
  | None :: rest => createBackendObject rest udi w
  | Some backend :: rest =>
      if negb (startsWith udi (udiPrefix backend)) then
        createBackendObject rest udi w
      else
        let '(object, w') := createDevice backend udi w in
        (qobject_cast_Device object, w')
  end.

Definition findRegisteredDevice (backends : Backends) (udi : string)
           (r : Registry) (w : W) : option ptr * Registry * W :=
  if isEmpty udi then
    (Some (m_nullDevice r), r, w)
  else
    match m_devicesMap r !! udi with
    | Some qp => (QPointer_data r qp, r, w)
    | None =>
        let '(iface, w') := createBackendObject backends udi w in
        let devData := fresh (dom (objects r)) in
        (Some devData,
         {| m_nullDevice := m_nullDevice r;
            m_devicesMap := <[udi := devData]> (m_devicesMap r);
            m_reverseMap := <[devData := udi]> (m_reverseMap r);
            objects :=
              <[devData := setBackendObject iface (mkDevicePrivate udi None)]>
                (objects r) |},
         w')
    end.

(** Rebinding the backing object of the handle at [p]. *)
Definition store_backend (p : ptr) (object : option IfacesDevice)
           (r : Registry) : Registry :=
  {| m_nullDevice := m_nullDevice r;
     m_devicesMap := m_devicesMap r;
     m_reverseMap := m_reverseMap r;
     objects := alter (setBackendObject object) p (objects r) |}.

Definition _k_deviceAdded (checked : bool) (backends : Backends)
           (udi : string) (r : Registry) (w : W)
  : Run (Registry * W * list Signal) :=
  match m_devicesMap r !! udi with
  | Some qp =>
      match objects r !! qp with
      | Some dev =>
          match backendObject dev with
          | None =>
              let '(iface, w') := createBackendObject backends udi w in
              let r' := store_backend qp iface r in
              Q_ASSERT checked
                (bool_decide (is_Some (objects r' !! qp ≫= backendObject))) ;;
              Done (r', w', [deviceAdded udi])
          | Some _ => Done (r, w, [deviceAdded udi])
          end
      | None => Done (r, w, [deviceAdded udi])
      end
  | None => Done (r, w, [deviceAdded udi])
  end.

Definition _k_deviceRemoved (checked : bool) (udi : string) (r : Registry)
  : Run (Registry * list Signal) :=
  match m_devicesMap r !! udi with
  | Some qp =>
      match objects r !! qp with
      | Some dev =>
          Q_ASSERT checked (bool_decide (is_Some (backendObject dev))) ;;
          let r' := store_backend qp None r in
          Q_ASSERT checked
            (bool_decide (objects r' !! qp ≫= backendObject = None)) ;;
          Done (r', [deviceRemoved udi])
      | None => Done (r, [deviceRemoved udi])
      end
  | None => Done (r, [deviceRemoved udi])
  end.

(** The slot connected to the [destroyed] signal of every handle. *)
Definition _k_destroyed (object : ptr) (r : Registry) : Registry :=
  let udi := default "" (m_reverseMap r !! object) in
  {| m_nullDevice := m_nullDevice r;
     m_devicesMap :=
       if isEmpty udi then m_devicesMap r else delete udi (m_devicesMap r);
     m_reverseMap := delete object (m_reverseMap r);
     objects := objects r |}.

(** [delete dev]: the object leaves the store, which nulls every
    [QPointer] to it, and its [destroyed] signal runs [_k_destroyed]. *)
Definition delete_device (p : ptr) (r : Registry) : Registry :=
  _k_destroyed p
    {| m_nullDevice := m_nullDevice r;
       m_devicesMap := m_devicesMap r;
       m_reverseMap := m_reverseMap r;
       objects := delete p (objects r) |}.

(** *** Queries *)

(** Modelled from the spec: [Solid::Device], whose code ([device.cpp])
    lies outside the two files embedded here.  A [Device] is a shared
    pointer to a handle. *)
Definition Device := option ptr.

(** Modelled from the spec: the constructor [Device(udi)] takes the handle
    that [find] returns for the identifier. *)
Definition Device_of_udi (backends : Backends) (udi : string)
           (r : Registry) (w : W) : Device * Registry * W :=
  findRegisteredDevice backends udi r w.

(** [list.append(Device(udi))] for each identifier in [udis]. *)
Fixpoint devicesOfUdis (backends : Backends) (udis : list string)
         (r : Registry) (w : W) : list Device * Registry * W :=
  match udis with
  | [] => ([], r, w)
  | udi :: rest =>
      let '(dev, r1, w1) := Device_of_udi backends udi r w in
      let '(list, r2, w2) := devicesOfUdis backends rest r1 w1 in
      (dev :: list, r2, w2)
  end.

(** The loop of [Device::allDevices()]; [todo] is the part of [backends]
    still to visit. *)
Fixpoint allDevices_backends (backends todo : Backends)
         (r : Registry) (w : W) : list Device * Registry * W :=
  match todo with
  | [] => ([], r, w)
  | None :: rest => allDevices_backends backends rest r w
  | Some backend :: rest =>
      let '(udis, w1) := allDevices backend w in
      let '(here, r2, w2) := devicesOfUdis backends udis r w1 in
      let '(there, r3, w3) := allDevices_backends backends rest r2 w2 in
      (here ++ there, r3, w3)
  end.

Definition Device_allDevices (backends : Backends) (r : Registry) (w : W)
  : list Device * Registry * W :=
  allDevices_backends backends backends r w.

(** [Solid::Predicate], whose code ([predicate.cpp] and the parser) lies
    outside the two files embedded here: the operations the queries call
    are parameters. *)
Context {Predicate : Type}.
Variable fromString : string → Predicate.
Variable isValid : Predicate → bool.
Variable usedTypes : Predicate → gset DeviceInterfaceType.
Variable matches : Predicate → Device → Registry → W → bool * W.

(** [udis += backend->devicesFromQuery(parentUdi, type)] for each type. *)
Fixpoint devicesOfTypes (backend : DeviceManager) (parentUdi : string)
         (types : list DeviceInterfaceType) (w : W) : list string * W :=
  match types with
  | [] => ([], w)
  | type :: rest =>
      let '(found, w1) := devicesFromQuery backend parentUdi type w in
      let '(more, w2) := devicesOfTypes backend parentUdi rest w1 in
      (found ++ more, w2)
  end.

(** The inner loop of [listFromQuery]: skip identifiers already seen,
    build the device and keep it when the predicate matches. *)
Fixpoint matchingDevices (backends : Backends) (predicate : Predicate)
         (udis : list string) (seen : gset string) (r : Registry) (w : W)
  : list Device * Registry * W :=
  match udis with
  | [] => ([], r, w)
  | udi :: rest =>
      if decide (udi ∈ seen) then
        matchingDevices backends predicate rest seen r w
      else
        let '(dev, r1, w1) := Device_of_udi backends udi r w in
        let '(matched, w2) :=
          if negb (isValid predicate) then (true, w1)
          else matches predicate dev r1 w1 in
        let '(list, r3, w3) :=
          matchingDevices backends predicate rest ({[udi]} ∪ seen) r1 w2 in
        (if matched then dev :: list else list, r3, w3)
  end.

(** The outer loop of [listFromQuery(const Predicate &, ...)]; [todo] is
    the part of [backends] still to visit. *)
Fixpoint listFromQuery_backends (backends todo : Backends)
         (predicate : Predicate) (parentUdi : string) (r : Registry) (w : W)
  : list Device * Registry * W :=
  match todo with
  | [] => ([], r, w)
  | None :: rest =>
      listFromQuery_backends backends rest predicate parentUdi r w
  | Some backend :: rest =>
      let supportedTypes := supportedInterfaces backend ∩ usedTypes predicate in
      if isValid predicate && bool_decide (supportedTypes = ∅) then
        listFromQuery_backends backends rest predicate parentUdi r w
      else
        let '(udis, w1) :=
          if isValid predicate then
            devicesOfTypes backend parentUdi
                           (merge_sort N.le (elements supportedTypes)) w
          else allDevices backend w in
        let '(here, r2, w2) :=
          matchingDevices backends predicate udis ∅ r w1 in
        let '(there, r3, w3) :=
          listFromQuery_backends backends rest predicate parentUdi r2 w2 in
        (here ++ there, r3, w3)
  end.

Definition listFromQuery (backends : Backends) (predicate : Predicate)
           (parentUdi : string) (r : Registry) (w : W)
  : list Device * Registry * W :=
  listFromQuery_backends backends backends predicate parentUdi r w.


(** *** The states the registry can be in *)

Inductive reachable : Registry → Prop :=
| reach_initial : reachable initial
| reach_find backends udi r w :
    reachable r → reachable (findRegisteredDevice backends udi r w).1.2
| reach_added checked backends udi r w r' w' signals :
    reachable r →
    _k_deviceAdded checked backends udi r w = Done (r', w', signals) →
    reachable r'
| reach_removed checked udi r r' signals :
    reachable r →
    _k_deviceRemoved checked udi r = Done (r', signals) →
    reachable r'
| reach_delete p r :
    reachable r → p ≠ m_nullDevice r → reachable (delete_device p r).

(** The identity map and the object store describe each other. *)
Record registry_inv (r : Registry) : Prop := mkRegistryInv {
  inv_registered : ∀ udi p, m_devicesMap r !! udi = Some p →
    udi ≠ "" ∧ p ≠ m_nullDevice r ∧ m_reverseMap r !! p = Some udi ∧
    ∃ dev, objects r !! p = Some dev ∧ m_udi dev = udi;
  inv_live : ∀ p dev, objects r !! p = Some dev → p ≠ m_nullDevice r →
    m_devicesMap r !! m_udi dev = Some p;
  inv_reverse : ∀ p udi, m_reverseMap r !! p = Some udi →
    m_devicesMap r !! udi = Some p;
  inv_null : is_Some (objects r !! m_nullDevice r)
}.

(** At most one live handle per identifier. *)
Definition unique_handles (r : Registry) : Prop :=
  ∀ p1 p2 dev1 dev2,
    objects r !! p1 = Some dev1 → objects r !! p2 = Some dev2 →
    p1 ≠ m_nullDevice r → p2 ≠ m_nullDevice r →
    m_udi dev1 = m_udi dev2 → p1 = p2.

(** [p] is the live handle registered for [udi], and [dev] its state. *)
Definition registered_handle (r : Registry) (udi : string) (p : ptr)
           (dev : DevicePrivate) : Prop :=
  m_devicesMap r !! udi = Some p ∧ objects r !! p = Some dev.

(** What a lookup of [udi] promises: the registered handle when there is
    one, and otherwise a new handle, resolved through the backends and
    entered into the identity map whatever the resolution gave. *)
Definition find_contract (backends : Backends) (udi : string)
           (r : Registry) (w : W) : Prop :=
  let '(handle, r', w') := findRegisteredDevice backends udi r w in
  (∀ p, m_devicesMap r !! udi = Some p →
        handle = Some p ∧ is_Some (objects r !! p) ∧ r' = r ∧ w' = w) ∧
  (m_devicesMap r !! udi = None →
   ∃ p, handle = Some p ∧ objects r !! p = None ∧
        m_devicesMap r' = <[udi := p]> (m_devicesMap r) ∧
        objects r' =
          <[p := mkDevicePrivate udi (createBackendObject backends udi w).1]>
            (objects r) ∧
        w' = (createBackendObject backends udi w).2) ∧
  unique_handles r'.

(** The backend a lookup is routed to: the first one whose prefix starts
    the identifier. *)
Fixpoint routing_backend (backends : Backends) (udi : string)
  : option DeviceManager :=
  match backends with
  | [] => None
  | None :: rest => routing_backend rest udi
  | Some backend :: rest =>
      if startsWith udi (udiPrefix backend) then Some backend
      else routing_backend rest udi
  end.

End Backends.

Arguments DeviceManager : clear implicits.
Arguments Backends : clear implicits.

End Frontend.

(** ** The UDisks2 backend: [udisksmanager.cpp] *)

Module UDisks2.
Import Qt.

(** [Manager::FetchMode]. *)
Inductive FetchMode : Type :=
| CachedOnly
| FetchIfNeeded.

#[global] Instance FetchMode_eq_dec : EqDecision FetchMode.
Proof. solve_decision. Defined.

(** [Solid::GenericInterface::PropertyChange]. *)
Inductive PropertyChange : Type :=
| PropertyModified
| PropertyAdded
| PropertyRemoved.

(** The string constants that [udisks.h] defines; the header lies
    outside the two files embedded here, so they are parameters. *)
Record Constants : Type := mkConstants {
  UD2_DBUS_SERVICE : string;
  UD2_UDI_DISKS_PREFIX : string;
  UD2_DBUS_PATH_BLOCK_DEVICES : string;
  UD2_DBUS_PATH_DRIVES : string;
  UD2_DBUS_PATH_JOBS : string;
  UD2_DBUS_INTERFACE_BLOCK : string;
  UD2_DBUS_INTERFACE_FILESYSTEM : string
}.

(** [QVariant], by the operations the manager uses.  [invalid] is the
    default-constructed [QVariant()]. *)
Class QVariantOps (QVariant : Type) : Type := mkQVariantOps {
  invalid : QVariant;
  isValid : QVariant → bool;
  toULongLong : QVariant → N;
  isValid_invalid : isValid invalid = false
}.

Section Manager.
Context {QVariant : Type} `{!QVariantOps QVariant}.

Abbreviation QVariantMap := (QMap.t QVariant).
(** [VariantMapMap] and [PropertyMap]: interface name to properties. *)
Abbreviation PropertyMap := (QMap.t (QMap.t QVariant)).
(** The type of [m_cache]: device identifier to snapshot. *)
Abbreviation Cache := (QMap.t (QMap.t (QMap.t QVariant))).

(** Signals of the manager. *)
Inductive Signal : Type :=
| deviceAdded (udi : string)
| deviceRemoved (udi : string)
| propertyChanged (udi : string) (changes : QMap.t PropertyChange).

(** Blocking calls to the properties interface of the UDisks2 service. *)
Inductive Call : Type :=
| CallGet (udi interface name : string)
| CallGetAll (udi interface : string).

(** What the service answers.  [GetManagedObjects] is [None] when
    [reply.isError()], [GetAll] is [None] when the reply is not valid, and
    [Get] gives [reply.value()], which is [QVariant()] on an error. *)
Record Bus : Type := mkBus {
  GetManagedObjects : option (QMap.t PropertyMap);
  GetAll : string → string → option QVariantMap;
  Get : string → string → string → QVariant
}.

(** The arguments of a D-Bus message, and [qdbus_cast] to the three types
    the manager asks for; a cast to a type the argument does not have
    gives the default-constructed value. *)
Inductive Argument : Type :=
| ArgString (s : string)
| ArgVariantMap (m : QVariantMap)
| ArgStringList (l : list string).

Record QDBusMessage : Type := mkMessage {
  path : string;
  arguments : list Argument
}.

Definition qdbus_cast_QString (a : Argument) : string :=
  match a with ArgString s => s | _ => "" end.

Definition qdbus_cast_QVariantMap (a : Argument) : QVariantMap :=
  match a with ArgVariantMap m => m | _ => [] end.

Definition qdbus_cast_QStringList (a : Argument) : list string :=
  match a with ArgStringList l => l | _ => [] end.

(** Pieces of the backend that lie outside the two files embedded here,
    as parameters: [Utils::sanitizeValue] on a value and on a map
    ([udisksutils.h]), and [Device::mightBeOpticalDisc]
    ([udisksdevice.cpp]), which reads through the manager and may fill
    its cache. *)
Variable K : Constants.
Variable sanitizeValue : QVariant → QVariant.
Variable sanitizeValueMap : QVariantMap → QVariantMap.
Variable mightBeOpticalDisc : string → Cache → bool * Cache.

(** [m_cache[udi][iface][name] = value]; each [operator[]] creates the
    entry it does not find. *)
Definition assign (udi iface name : string) (value : QVariant)
           (m_cache : Cache) : Cache :=
  let props := QMap.value [] udi m_cache in
  let properties := QMap.value [] iface props in
  QMap.insert udi
    (QMap.insert iface (QMap.insert name value properties) props) m_cache.

(** The loop of [deviceProperty] over the interfaces [props] of [udi]. *)
Fixpoint deviceProperty_loop (bus : Bus) (udi name : string)
         (fetchMode : FetchMode) (props : PropertyMap) (m_cache : Cache)
  : QVariant * Cache * list Call :=
  match props with
  | [] => (invalid, m_cache, [])
  | (iface, properties) :: rest =>
      match QMap.find name properties with
      | Some valueIt =>
          if negb (isValid valueIt)
             && bool_decide (fetchMode = FetchIfNeeded) then
            let value := sanitizeValue (Get bus udi iface name) in
            (value, assign udi iface name value m_cache,
             [CallGet udi iface name])
          else (valueIt, m_cache, [])
      | None => deviceProperty_loop bus udi name fetchMode rest m_cache
      end
  end.

Definition deviceProperty (bus : Bus) (udi name : string)
           (fetchMode : FetchMode) (m_cache : Cache)
  : QVariant * Cache * list Call :=
  deviceProperty_loop bus udi name fetchMode (QMap.value [] udi m_cache)
                      m_cache.

Definition allDevices (bus : Bus) (m_cache : Cache) : list string * Cache :=
  let cleared : Cache := [] in
  let filled :=
    match GetManagedObjects bus with
    | Some items =>
        fold_left
          (fun (cache : Cache) (item : string * PropertyMap) =>
             let udi := item.1 in
             if negb (startsWith udi (UD2_DBUS_PATH_BLOCK_DEVICES K))
                && negb (startsWith udi (UD2_DBUS_PATH_DRIVES K))
             then cache
             else QMap.insert udi (QMap.map_values sanitizeValueMap item.2)
                              cache)
          items cleared
    | None => cleared
    end in
  (QMap.keys filled, filled).

Definition deviceCache (bus : Bus) (m_cache : Cache) : Cache :=
  if QMap.isEmpty m_cache then (allDevices bus m_cache).2 else m_cache.

Definition hasInterface (bus : Bus) (udi interface : string)
           (m_cache : Cache) : bool * Cache :=
  let cache := deviceCache bus m_cache in
  (QMap.contains interface (QMap.value [] udi cache), cache).

Definition udiPrefix : string := UD2_UDI_DISKS_PREFIX K.

Definition createDevice (bus : Bus) (udi : string) (m_cache : Cache)
  : Frontend.QObjectPtr * Cache :=
  if String.eqb udi udiPrefix then
    (Frontend.DeviceObject (Frontend.BackendDevice udi), m_cache)
  else
    let cache := deviceCache bus m_cache in
    if QMap.contains udi cache then
      (Frontend.DeviceObject (Frontend.BackendDevice udi), cache)
    else (Frontend.NullObject, cache).

(** One round of the merge loop of [slotInterfacesAdded]. *)
Definition merge_interface (cached : PropertyMap)
           (item : string * QVariantMap) : PropertyMap :=
  if negb (startsWith item.1 (UD2_DBUS_SERVICE K)) then cached
  else QMap.insert item.1 (sanitizeValueMap item.2) cached.

(** One round of its re-fetch loop. *)
Definition refetch_interface (bus : Bus) (udi : string)
           (cached : PropertyMap) (interface : string) : PropertyMap :=
  match GetAll bus udi interface with
  | Some reply => QMap.insert interface (sanitizeValueMap reply) cached
  | None => cached
  end.

Definition slotInterfacesAdded (bus : Bus) (object_path : string)
           (interfaces_and_properties : PropertyMap) (m_cache : Cache)
  : Cache * list Signal * list Call :=
  let udi := object_path in
  if startsWith udi (UD2_DBUS_PATH_JOBS K) then (m_cache, [], [])
  else
    let isNewDevice := negb (QMap.contains udi m_cache) in
    let cached := QMap.value [] udi m_cache in
    let oldInterfaces :=
      removeOne (UD2_DBUS_INTERFACE_BLOCK K) (QMap.keys cached) in
    let merged := fold_left merge_interface interfaces_and_properties cached in
    let refetched :=
      fold_left (refetch_interface bus udi) oldInterfaces merged in
    (QMap.insert udi refetched m_cache,
     if isNewDevice
        || QMap.contains (UD2_DBUS_INTERFACE_FILESYSTEM K)
                         interfaces_and_properties
     then [deviceAdded udi] else [],
     map (CallGetAll udi) oldInterfaces).

Definition slotInterfacesRemoved (object_path : string)
           (interfaces : list string) (m_cache : Cache)
  : Cache * list Signal :=
  let udi := object_path in
  if isEmpty udi then (m_cache, [])
  else if startsWith udi (UD2_DBUS_PATH_JOBS K) then (m_cache, [])
  else
    match QMap.find udi m_cache with
    | None => (m_cache, [])
    | Some cached =>
        let left :=
          fold_left (fun props iface => QMap.remove iface props)
                    interfaces cached in
        let updated := QMap.insert udi left m_cache in
        if QMap.isEmpty left then
          (QMap.remove udi updated, [deviceRemoved udi])
        else
          (updated, [deviceRemoved udi; deviceAdded udi])
    end.

(** An insertion into the properties of [iface] in the cached snapshot;
    [operator[]] creates the interface entry when it is missing. *)
Definition store_property (iface prop : string) (value : QVariant)
           (cached : PropertyMap) : PropertyMap :=
  QMap.insert iface (QMap.insert prop value (QMap.value [] iface cached))
              cached.

(** The body of [if (knownDevice)] in [slotPropertiesChanged]. *)
Definition record_changes (udi iface : string) (changed : QVariantMap)
           (invalidated : list string) (m_cache : Cache)
  : Cache * list Signal :=
  let cached := QMap.value [] udi m_cache in
  let cached1 :=
    fold_left (fun c prop => store_property iface prop invalid c)
              invalidated cached in
  let changeMap1 :=
    fold_left (fun c prop => QMap.insert prop PropertyModified c)
              invalidated [] in
  let cached2 :=
    fold_left
      (fun c (it : string * QVariant) =>
         store_property iface it.1 (sanitizeValue it.2) c)
      changed cached1 in
  let changeMap2 :=
    fold_left
      (fun c (it : string * QVariant) => QMap.insert it.1 PropertyModified c)
      changed changeMap1 in
  (QMap.insert udi cached2 m_cache,
   if negb (QMap.isEmpty changeMap2)
   then [propertyChanged udi changeMap2] else []).

Definition slotPropertiesChanged (msg : QDBusMessage) (m_cache : Cache)
  : Cache * list Signal :=
  let udi := path msg in
  if isEmpty udi
     || negb (startsWith udi (UD2_UDI_DISKS_PREFIX K))
     || startsWith udi (UD2_DBUS_PATH_JOBS K)
  then (m_cache, [])
  else
    match arguments msg with
    | [arg0; arg1; arg2] =>
        let iface := qdbus_cast_QString arg0 in
        let changed := qdbus_cast_QVariantMap arg1 in
        let invalidated := qdbus_cast_QStringList arg2 in
        let knownDevice := QMap.contains udi m_cache in
        let '(cache1, signals1) :=
          if knownDevice
          then record_changes udi iface changed invalidated m_cache
          else (m_cache, []) in
        if String.eqb iface (UD2_DBUS_INTERFACE_BLOCK K)
           && QMap.contains "Size" changed then
          let size := toULongLong (QMap.value invalid "Size" changed) in
          let mediaInserted := negb knownDevice && (0 <? size)%N in
          let mediaRemoved := knownDevice && (size =? 0)%N in
          if mediaInserted || mediaRemoved then
            let '(optical, cache2) := mightBeOpticalDisc udi cache1 in
            if optical then
              if negb knownDevice && (0 <? size)%N then
                let map : PropertyMap := QMap.insert udi changed [] in
                (QMap.insert udi map cache2, signals1 ++ [deviceAdded udi])
              else if knownDevice && (size =? 0)%N then
                (QMap.remove udi cache2, signals1 ++ [deviceRemoved udi])
              else (cache2, signals1)
            else (cache2, signals1)
          else (cache1, signals1)
        else (cache1, signals1)
    | _ => (m_cache, [])
    end.

(** *** Vocabulary of the properties *)

(** The first interface, in the order of the snapshot, that lists
    [name], with the value it holds. *)
Fixpoint first_holder (name : string) (props : PropertyMap)
  : option (string * QVariant) :=
  match props with
  | [] => None
  | (iface, properties) :: rest =>
      match QMap.find name properties with
      | Some value => Some (iface, value)
      | None => first_holder name rest
      end
  end.

(** Every tracked identifier is the path of a device: it is not empty and
    it does not lie under the path of the jobs. *)
Definition well_tracked (m_cache : Cache) : Prop :=
  ∀ udi, QMap.contains udi m_cache = true →
         udi ≠ "" ∧ startsWith udi (UD2_DBUS_PATH_JOBS K) = false.

(** The paths of block devices and drives are not empty and are not paths
    of jobs. *)
Definition device_paths_apart : Prop :=
  ∀ udi,
    startsWith udi (UD2_DBUS_PATH_BLOCK_DEVICES K) = true ∨
    startsWith udi (UD2_DBUS_PATH_DRIVES K) = true →
    udi ≠ "" ∧ startsWith udi (UD2_DBUS_PATH_JOBS K) = false.

(** What a read in [FetchIfNeeded] mode is said to do for a property that
    is unresolved or missing: one call to the service, whose answer is
    stored and returned, and no call on any later read. *)
Definition fetch_contract (bus : Bus) (udi name : string) (m_cache : Cache)
  : Prop :=
  match first_holder name (QMap.value [] udi m_cache) with
  | Some (_, cached) => isValid cached = false
  | None => True
  end →
  let '(value, cache, calls) :=
    deviceProperty bus udi name FetchIfNeeded m_cache in
  (∃ iface, calls = [CallGet udi iface name] ∧
            value = sanitizeValue (Get bus udi iface name) ∧
            first_holder name (QMap.value [] udi cache)
            = Some (iface, value)) ∧
  (∀ later mode, (deviceProperty later udi name mode cache).2 = []).

(** What [InterfacesAdded] is said to do: every supplied interface ends
    up in the snapshot, every interface known before other than Block is
    fetched again and replaced by the answer, and [deviceAdded] is emitted
    exactly when the identifier was new or Filesystem was supplied. *)
Definition interfaces_added_contract (bus : Bus) (udi : string)
           (supplied : PropertyMap) (m_cache : Cache) : Prop :=
  let '(cache, signals, calls) :=
    slotInterfacesAdded bus udi supplied m_cache in
  let old := QMap.value [] udi m_cache in
  let snapshot := QMap.value [] udi cache in
  (∀ i, QMap.contains i supplied = true → QMap.contains i snapshot = true) ∧
  (∀ i, i ∈ QMap.keys old → i ≠ UD2_DBUS_INTERFACE_BLOCK K →
        CallGetAll udi i ∈ calls ∧
        ∀ reply, GetAll bus udi i = Some reply →
                 QMap.find i snapshot = Some (sanitizeValueMap reply)) ∧
  (signals = [deviceAdded udi] ∨ signals = []) ∧
  (signals = [deviceAdded udi] ↔
   QMap.contains udi m_cache = false ∨
   QMap.contains (UD2_DBUS_INTERFACE_FILESYSTEM K) supplied = true).

End Manager.

End UDisks2.

(** ** The frontend wired to the UDisks2 backend

    The constructor of [DeviceManagerPrivate] connects the [deviceAdded]
    and [deviceRemoved] signals of every backend to its own slots, so each
    emission of the manager runs the matching slot of the frontend before
    the manager goes on.  The slot for [deviceRemoved] does not read the
    manager, and the manager emits [deviceAdded] only once its cache is in
    its final state, so running the slots of the frontend after the slot
    of the manager, in emission order, gives the same result. *)

Module System.
Import Qt.

Section System.
Context {QVariant : Type} `{!UDisks2.QVariantOps QVariant}.
Variable K : UDisks2.Constants.
Variable sanitizeValue : QVariant → QVariant.
Variable sanitizeValueMap : QMap.t QVariant → QMap.t QVariant.
Variable mightBeOpticalDisc :
  string → QMap.t (QMap.t (QMap.t QVariant))
  → bool * QMap.t (QMap.t (QMap.t QVariant)).
(** [Manager::devicesFromQuery] asks [Device] objects, whose code is not
    among the files embedded here; [m_supportedInterfaces] holds values
    of an enumeration declared elsewhere.  Both are parameters. *)
Variable devicesFromQuery :
  string → Frontend.DeviceInterfaceType → QMap.t (QMap.t (QMap.t QVariant))
  → list string * QMap.t (QMap.t (QMap.t QVariant)).
Variable m_supportedInterfaces : gset Frontend.DeviceInterfaceType.

(** What lies behind the frontend: the service and the cache of the
    manager that mirrors it. *)
Record World : Type := mkWorld {
  bus : UDisks2.Bus (QVariant := QVariant);
  m_cache : QMap.t (QMap.t (QMap.t QVariant))
}.

Definition with_cache (w : World) (cache : QMap.t (QMap.t (QMap.t QVariant)))
  : World :=
  {| bus := bus w; m_cache := cache |}.

(** The manager behind the [Ifaces::DeviceManager] contract. *)
Definition manager : Frontend.DeviceManager World :=
  {| Frontend.udiPrefix := UDisks2.udiPrefix K;
     Frontend.supportedInterfaces := m_supportedInterfaces;
     Frontend.allDevices := fun w =>
       let '(udis, cache) :=
         UDisks2.allDevices K sanitizeValueMap (bus w) (m_cache w) in
       (udis, with_cache w cache);
     Frontend.devicesFromQuery := fun parentUdi type w =>
       let '(udis, cache) := devicesFromQuery parentUdi type (m_cache w) in
       (udis, with_cache w cache);
     Frontend.createDevice := fun udi w =>
       let '(object, cache) :=
         UDisks2.createDevice K sanitizeValueMap (bus w) udi (m_cache w) in
       (object, with_cache w cache) |}.

Definition managerBackends : Frontend.Backends World := [Some manager].

(** One emission of the manager, as the frontend sees it. *)
Definition deliver (checked : bool) (signal : UDisks2.Signal)
           (r : Frontend.Registry) (w : World)
  : Run (Frontend.Registry * World * list Frontend.Signal) :=
  match signal with
  | UDisks2.deviceAdded udi =>
      Frontend._k_deviceAdded checked managerBackends udi r w
  | UDisks2.deviceRemoved udi =>
      '(r', signals) ← Frontend._k_deviceRemoved checked udi r;
      mret (r', w, signals)
  | UDisks2.propertyChanged _ _ => mret (r, w, [])
  end.

Fixpoint deliver_all (checked : bool) (signals : list UDisks2.Signal)
         (r : Frontend.Registry) (w : World)
  : Run (Frontend.Registry * World * list Frontend.Signal) :=
  match signals with
  | [] => mret (r, w, [])
  | signal :: rest =>
      '(r1, w1, out1) ← deliver checked signal r w;
      '(r2, w2, out2) ← deliver_all checked rest r1 w1;
      mret (r2, w2, out1 ++ out2)
  end.

(** What can happen to the system, from its two sides. *)
Inductive Event : Type :=
| Find (udi : string)
| AllDevices
| ServiceNow (service : UDisks2.Bus (QVariant := QVariant))
| InterfacesAdded (object_path : string)
                  (interfaces_and_properties : QMap.t (QMap.t QVariant))
| InterfacesRemoved (object_path : string) (interfaces : list string)
| PropertiesChanged (msg : UDisks2.QDBusMessage (QVariant := QVariant)).

Definition step (checked : bool) (e : Event) (r : Frontend.Registry)
           (w : World)
  : Run (Frontend.Registry * World * list Frontend.Signal) :=
  match e with
  | Find udi =>
      let '(_, r', w') :=
        Frontend.findRegisteredDevice managerBackends udi r w in
      mret (r', w', [])
  | AllDevices =>
      let '(_, r', w') := Frontend.Device_allDevices managerBackends r w in
      mret (r', w', [])
  | ServiceNow service =>
      mret (r, {| bus := service; m_cache := m_cache w |}, [])
  | InterfacesAdded object_path interfaces_and_properties =>
      let '(cache, signals, _) :=
        UDisks2.slotInterfacesAdded K sanitizeValueMap (bus w) object_path
          interfaces_and_properties (m_cache w) in
      deliver_all checked signals r (with_cache w cache)
  | InterfacesRemoved object_path interfaces =>
      let '(cache, signals) :=
        UDisks2.slotInterfacesRemoved K object_path interfaces (m_cache w) in
      deliver_all checked signals r (with_cache w cache)
  | PropertiesChanged msg =>
      let '(cache, signals) :=
        UDisks2.slotPropertiesChanged K sanitizeValue mightBeOpticalDisc
          msg (m_cache w) in
      deliver_all checked signals r (with_cache w cache)
  end.

Fixpoint run (checked : bool) (events : list Event) (r : Frontend.Registry)
         (w : World)
  : Run (Frontend.Registry * World * list Frontend.Signal) :=
  match events with
  | [] => mret (r, w, [])
  | e :: rest =>
      '(r1, w1, out1) ← step checked e r w;
      '(r2, w2, out2) ← run checked rest r1 w1;
      mret (r2, w2, out1 ++ out2)
  end.

End System.

Arguments World : clear implicits.
Arguments Event : clear implicits.

End System.

(** ** Concrete instances

    Small closed instances of the parameters above, on which the
    definitions can be run. *)

Module Sample.
Import Qt.

(** The strings of the UDisks2 D-Bus interface. *)
Definition constants : UDisks2.Constants :=
  {| UDisks2.UD2_DBUS_SERVICE := "org.freedesktop.UDisks2";
     UDisks2.UD2_UDI_DISKS_PREFIX := "/org/freedesktop/UDisks2";
     UDisks2.UD2_DBUS_PATH_BLOCK_DEVICES :=
       "/org/freedesktop/UDisks2/block_devices/";
     UDisks2.UD2_DBUS_PATH_DRIVES := "/org/freedesktop/UDisks2/drives/";
     UDisks2.UD2_DBUS_PATH_JOBS := "/org/freedesktop/UDisks2/jobs/";
     UDisks2.UD2_DBUS_INTERFACE_BLOCK := "org.freedesktop.UDisks2.Block";
     UDisks2.UD2_DBUS_INTERFACE_FILESYSTEM :=
       "org.freedesktop.UDisks2.Filesystem" |}.

Definition Block : string := "org.freedesktop.UDisks2.Block".
Definition Filesystem : string := "org.freedesktop.UDisks2.Filesystem".
Definition Partition : string := "org.freedesktop.UDisks2.Partition".
Definition PartitionTable : string := "org.freedesktop.UDisks2.PartitionTable".
Definition Job : string := "org.freedesktop.UDisks2.Job".
Definition Properties : string := "org.freedesktop.DBus.Properties".

Definition sr0 : string := "/org/freedesktop/UDisks2/block_devices/sr0".
Definition sdb1 : string := "/org/freedesktop/UDisks2/block_devices/sdb1".
Definition sdb : string := "/org/freedesktop/UDisks2/block_devices/sdb".
Definition job1 : string := "/org/freedesktop/UDisks2/jobs/1".

(** A backend without state of its own that knows the identifiers in
    [known]. *)
Definition static_backend (prefix : string) (known : list string)
  : Frontend.DeviceManager unit :=
  {| Frontend.udiPrefix := prefix;
     Frontend.supportedInterfaces := ∅;
     Frontend.allDevices := fun w => (known, w);
     Frontend.devicesFromQuery := fun _ _ w => (known, w);
     Frontend.createDevice := fun udi w =>
       (if bool_decide (udi ∈ known)
        then Frontend.DeviceObject (Frontend.BackendDevice udi)
        else Frontend.NullObject, w) |}.

Definition nobody : Frontend.Backends unit :=
  [Some (static_backend "/org/freedesktop/UDisks2" [])].

Definition somebody : Frontend.Backends unit :=
  [Some (static_backend "/org/freedesktop/UDisks2" [sr0])].

(** The registry after a lookup of [sr0] that no backend could resolve,
    and after one that a backend did resolve. *)
Definition unresolved : Frontend.Registry :=
  (Frontend.findRegisteredDevice nobody sr0 Frontend.initial tt).1.2.

Definition resolved : Frontend.Registry :=
  (Frontend.findRegisteredDevice somebody sr0 Frontend.initial tt).1.2.


Definition parsed (p : option string) : bool :=
  match p with Some _ => true | None => false end.

(** Values: nothing, an unsigned integer, a string or a boolean. *)
Inductive Variant : Type :=
| Nothing
| UInt64 (n : N)
| Text (s : string)
| Flag (b : bool).

#[global] Instance Variant_ops : UDisks2.QVariantOps Variant :=
  {| UDisks2.invalid := Nothing;
     UDisks2.isValid := fun v => match v with Nothing => false | _ => true end;
     UDisks2.toULongLong := fun v =>
       match v with UInt64 n => n | Flag true => 1%N | _ => 0%N end;
     UDisks2.isValid_invalid := eq_refl |}.

(** A service that knows nothing and answers no call. *)
Definition silent : UDisks2.Bus (QVariant := Variant) :=
  {| UDisks2.GetManagedObjects := Some [];
     UDisks2.GetAll := fun _ _ => None;
     UDisks2.Get := fun _ _ _ => Nothing |}.

(** What the service reports for a disk [sdb] with a partition table. *)
Definition disk : QMap.t (QMap.t Variant) :=
  [(Block, [("Size", UInt64 4096)]); (PartitionTable, [("Type", Text "dos")])].

(** A service that has [sdb] and answers no other call. *)
Definition with_sdb : UDisks2.Bus (QVariant := Variant) :=
  {| UDisks2.GetManagedObjects := Some [(sdb, disk)];
     UDisks2.GetAll := fun _ _ => None;
     UDisks2.Get := fun _ _ _ => Nothing |}.

(** A cache that tracks [sdb1] with a block and a filesystem interface;
    the mount points of the filesystem are known to exist but not fetched
    yet. *)
Definition tracking_sdb1 : QMap.t (QMap.t (QMap.t Variant)) :=
  [(sdb1, [(Block, [("Size", UInt64 4096)]);
           (Filesystem, [("MountPoints", Nothing)])])].

(** A service that answers for the partition and the mount points of
    any device, and for nothing else. *)
Definition answering : UDisks2.Bus (QVariant := Variant) :=
  {| UDisks2.GetManagedObjects := None;
     UDisks2.GetAll := fun _ interface =>
       if String.eqb interface Partition then Some [("Number", UInt64 1)]
       else None;
     UDisks2.Get := fun _ _ name =>
       if String.eqb name "MountPoints" then Text "/media/usb"
       else Nothing |}.

(** Sanitizing that leaves every value as it is. *)
Definition keep (value : Variant) : Variant := value.
Definition keep_all (map : QMap.t Variant) : QMap.t Variant := map.

(** Devices named [sr...] pass for optical drives. *)
Definition optical (udi : string) (cache : QMap.t (QMap.t (QMap.t Variant)))
  : bool * QMap.t (QMap.t (QMap.t Variant)) :=
  (startsWith udi "/org/freedesktop/UDisks2/block_devices/sr", cache).

(** The frontend and the manager before anything happened, and a course
    of events: [sdb] is looked up while the service does not have it; the
    disk is plugged in, and the manager learns of it by the resync of a
    call to [Device::allDevices()] before the signal of the service is
    handled; the signal is handled; later the disk is unplugged. *)
Definition world0 : System.World Variant :=
  {| System.bus := silent; System.m_cache := [] |}.

Definition disk_missed : list (System.Event Variant) :=
  [System.Find sdb;
   System.ServiceNow with_sdb;
   System.AllDevices;
   System.InterfacesAdded sdb disk].

Definition disk_unplugged : System.Event Variant :=
  System.InterfacesRemoved sdb [Block; PartitionTable].

(** A second course of events, around an optical drive [sr0] that the
    service has from the start: everything is listed; the disc is ejected,
    which the manager takes for a removal of the device; everything is
    listed again, and the drive, still there, is tracked again; the drive
    is unplugged. *)
Definition drive (size : N) : QMap.t (QMap.t Variant) :=
  [(Block, [("Size", UInt64 size)])].

Definition with_sr0 (size : N) : UDisks2.Bus (QVariant := Variant) :=
  {| UDisks2.GetManagedObjects := Some [(sr0, drive size)];
     UDisks2.GetAll := fun _ _ => None;
     UDisks2.Get := fun _ _ _ => Nothing |}.

Definition world_sr0 : System.World Variant :=
  {| System.bus := with_sr0 512; System.m_cache := [] |}.

Definition disc_ejected : list (System.Event Variant) :=
  [System.AllDevices;
   System.PropertiesChanged
     {| UDisks2.path := sr0;
        UDisks2.arguments :=
          [UDisks2.ArgString Block;
           UDisks2.ArgVariantMap [("Size", UInt64 0)];
           UDisks2.ArgStringList []] |};
   System.ServiceNow (with_sr0 0);
   System.AllDevices].

Definition drive_unplugged : System.Event Variant :=
  System.InterfacesRemoved sr0 [Block].

Definition run_sample (checked : bool) (events : list (System.Event Variant))
           (r : Frontend.Registry) (w : System.World Variant)
  : Run (Frontend.Registry * System.World Variant * list Frontend.Signal) :=
  System.run constants keep keep_all optical (fun _ _ cache => ([], cache)) ∅
             checked events r w.

End Sample.

(** ** More of the frontend: listing devices *)

Module Listing.
Import Qt Frontend.

(** [QString::endsWith]. *)
Definition endsWith (s p : string) : bool :=
  (String.length p <=? String.length s)%nat
  && String.eqb
       (String.substring (String.length s - String.length p)
                         (String.length p) s) p.

Section Listing.
Context {W : Type}.

(** The handle the registry holds for an identifier: the null device for
    the empty one, the entry of the identity map for any other. *)
Definition handle_of (r : Registry) (udi : string) : Device :=
  if isEmpty udi then Some (m_nullDevice r) else m_devicesMap r !! udi.

(** [r'] has everything [r] has: the same null device, every
    registration and every handle, each in the state it was in. *)
Definition extends (r r' : Registry) : Prop :=
  m_nullDevice r' = m_nullDevice r ∧
  m_devicesMap r ⊆ m_devicesMap r' ∧
  objects r ⊆ objects r'.

(** A device that stands for a live handle. *)
Definition live (r : Registry) (device : Device) : Prop :=
  ∃ p, device = Some p ∧ is_Some (objects r !! p).

(** The identifiers the [seen] set of [listFromQuery] lets through: the
    first occurrence of each one that was not seen before. *)
Fixpoint distinct (seen : gset string) (udis : list string) : list string :=
  match udis with
  | [] => []
  | udi :: rest =>
      if decide (udi ∈ seen) then distinct seen rest
      else udi :: distinct ({[udi]} ∪ seen) rest
  end.

(** The loop of [Device::listFromType]; [todo] is the part of [backends]
    still to visit. *)
Fixpoint listFromType_backends (backends todo : Backends W)
         (type : DeviceInterfaceType) (parentUdi : string)
         (r : Registry) (w : W) : list Device * Registry * W :=
  match todo with
  | [] => ([], r, w)
  | None :: rest => listFromType_backends backends rest type parentUdi r w
  | Some backend :: rest =>
      if negb (bool_decide (type ∈ supportedInterfaces backend)) then
        listFromType_backends backends rest type parentUdi r w
      else
        let '(udis, w1) := devicesFromQuery backend parentUdi type w in
        let '(here, r2, w2) := devicesOfUdis backends udis r w1 in
        let '(there, r3, w3) :=
          listFromType_backends backends rest type parentUdi r2 w2 in
        (here ++ there, r3, w3)
  end.

Definition listFromType (backends : Backends W) (type : DeviceInterfaceType)
           (parentUdi : string) (r : Registry) (w : W)
  : list Device * Registry * W :=
  listFromType_backends backends backends type parentUdi r w.

(** What [storageAccessFromPath] takes from outside: [QFileInfo::exists],
    [QDir::separator()], the value of [DeviceInterface::StorageAccess],
    and [device.as<StorageAccess>()->filePath()], which is [None] for a
    device without that interface (the pointer is null and the call does
    not come back). *)
Variable file_exists : string → bool.
Variable separator : ascii.
Variable StorageAccess : DeviceInterfaceType.
Variable filePath : Device → Registry → W → option string.

(** A path with the directory separator at its end. *)
Definition terminated (path : string) : string :=
  if endsWith path (String separator "") then path
  else path ++ String separator "".

(** The loop of [storageAccessFromPath] over the storage devices, with
    the best match so far and the length of its mount path. *)
Fixpoint longest_mount (path : string) (list : list Device)
         (matched : Device) (match_length : nat) (r : Registry) (w : W)
  : option Device :=
  match list with
  | [] => Some matched
  | device :: rest =>
      match filePath device r w with
      | None => None
      | Some file_path =>
          let mountPath := terminated file_path in
          if startsWith path mountPath
             && (match_length <? String.length mountPath)%nat
          then longest_mount path rest device (String.length mountPath) r w
          else longest_mount path rest matched match_length r w
      end
  end.

(** A storage device whose mount path, with the separator at its end,
    starts [path]. *)
Definition mounted_above (path : string) (device : Device)
           (r : Registry) (w : W) : Prop :=
  ∃ file_path, filePath device r w = Some file_path ∧
               startsWith path (terminated file_path) = true.

(** The length of the mount path of [device], with its separator. *)
Definition mount_length (device : Device) (r : Registry) (w : W) : nat :=
  match filePath device r w with
  | Some file_path => String.length (terminated file_path)
  | None => 0
  end.

Definition storageAccessFromPath (backends : Backends W) (path : string)
           (r : Registry) (w : W) : option Device * Registry * W :=
  if negb (file_exists path) then
    let '(nothing, r', w') := Device_of_udi backends "" r w in
    (Some nothing, r', w')
  else
    let path := terminated path in
    let '(list, r1, w1) := listFromType backends StorageAccess "" r w in
    let '(matched, r2, w2) := Device_of_udi backends "" r1 w1 in
    (longest_mount path list matched 0 r2 w2, r2, w2).

End Listing.

(** *** Which backends a listing visits, and queries that do not parse *)

Section Visits.
Context {W Predicate : Type}.
Variable fromString : string → Predicate.
Variable isValid : Predicate → bool.
Variable usedTypes : Predicate → gset DeviceInterfaceType.
Variable matches : Predicate → Device → Registry → W → bool * W.

(** The device managers among [todo] that support [type], in order. *)
Fixpoint supporting (type : DeviceInterfaceType) (todo : Backends W)
  : list (DeviceManager W) :=
  match todo with
  | [] => []
  | None :: rest => supporting type rest
  | Some backend :: rest =>
      if bool_decide (type ∈ supportedInterfaces backend)
      then backend :: supporting type rest
      else supporting type rest
  end.

(** The device managers among [todo] whose supported interfaces share a
    type with those that [predicate] uses, in order. *)
Fixpoint sharing (predicate : Predicate) (todo : Backends W)
  : list (DeviceManager W) :=
  match todo with
  | [] => []
  | None :: rest => sharing predicate rest
  | Some backend :: rest =>
      if bool_decide (supportedInterfaces backend ∩ usedTypes predicate = ∅)
      then sharing predicate rest
      else backend :: sharing predicate rest
  end.

(** One visit after the other: each of [managers] contributes what
    [visit] collects from it, in the registry and the world that the
    visits before it have left. *)
Fixpoint visits
         (visit : DeviceManager W → Registry → W → list Device * Registry * W)
         (managers : list (DeviceManager W)) (r : Registry) (w : W)
  : list Device * Registry * W :=
  match managers with
  | [] => ([], r, w)
  | backend :: rest =>
      let '(here, r2, w2) := visit backend r w in
      let '(there, r3, w3) := visits visit rest r2 w2 in
      (here ++ there, r3, w3)
  end.

(** What a listing by type collects from one backend: a device for each
    identifier its [devicesFromQuery] reports. *)
Definition typed_visit (backends : Backends W) (type : DeviceInterfaceType)
           (parentUdi : string) (backend : DeviceManager W)
           (r : Registry) (w : W) : list Device * Registry * W :=
  let '(udis, w1) := devicesFromQuery backend parentUdi type w in
  devicesOfUdis backends udis r w1.

(** What a query by a valid predicate collects from one backend: the
    devices that match among those it reports for the types it shares
    with the predicate, taken in ascending order. *)
Definition matching_visit (backends : Backends W) (predicate : Predicate)
           (parentUdi : string) (backend : DeviceManager W)
           (r : Registry) (w : W) : list Device * Registry * W :=
  let '(udis, w1) :=
    devicesOfTypes
      backend parentUdi
      (merge_sort N.le
         (elements (supportedInterfaces backend ∩ usedTypes predicate))) w in
  matchingDevices isValid matches backends predicate udis ∅ r w1.




End Visits.
End Listing.

(** ** The manager over time *)

Module ManagerRun.
Import Qt UDisks2.

Section Run.
Context {QVariant : Type} `{!QVariantOps QVariant}.
Variable K : Constants.
Variable sanitizeValue : QVariant → QVariant.
Variable sanitizeValueMap : QMap.t QVariant → QMap.t QVariant.
Variable mightBeOpticalDisc :
  string → QMap.t (QMap.t (QMap.t QVariant))
  → bool * QMap.t (QMap.t (QMap.t QVariant)).

(** What reaches the manager: the calls of its public methods and the
    signals of the service, each with what the service would answer at
    that time. *)
Inductive Event : Type :=
| CallAllDevices (bus : Bus (QVariant := QVariant))
| CallCreateDevice (bus : Bus (QVariant := QVariant)) (udi : string)
| CallHasInterface (bus : Bus (QVariant := QVariant)) (udi interface : string)
| CallDeviceProperty (bus : Bus (QVariant := QVariant)) (udi name : string)
                     (fetchMode : FetchMode)
| InterfacesAdded (bus : Bus (QVariant := QVariant)) (object_path : string)
                  (interfaces_and_properties : QMap.t (QMap.t QVariant))
| InterfacesRemoved (object_path : string) (interfaces : list string)
| PropertiesChanged (msg : QDBusMessage (QVariant := QVariant)).

(** The cache after one event. *)
Definition after (m_cache : QMap.t (QMap.t (QMap.t QVariant))) (e : Event)
  : QMap.t (QMap.t (QMap.t QVariant)) :=
  match e with
  | CallAllDevices bus => (allDevices K sanitizeValueMap bus m_cache).2
  | CallCreateDevice bus udi =>
      (createDevice K sanitizeValueMap bus udi m_cache).2
  | CallHasInterface bus udi interface =>
      (hasInterface K sanitizeValueMap bus udi interface m_cache).2
  | CallDeviceProperty bus udi name fetchMode =>
      (deviceProperty sanitizeValue bus udi name fetchMode m_cache).1.2
  | InterfacesAdded bus object_path interfaces_and_properties =>
      (slotInterfacesAdded K sanitizeValueMap bus object_path
                           interfaces_and_properties m_cache).1.1
  | InterfacesRemoved object_path interfaces =>
      (slotInterfacesRemoved K object_path interfaces m_cache).1
  | PropertiesChanged msg =>
      (slotPropertiesChanged K sanitizeValue mightBeOpticalDisc msg
                             m_cache).1
  end.

(** The cache after a course of events, from the empty cache the manager
    starts with. *)
Definition cache_after (events : list Event)
  : QMap.t (QMap.t (QMap.t QVariant)) :=
  fold_left after events [].

(** The message of a [PropertiesChanged] signal of the object [udi]. *)
Definition change_of (udi iface : string) (changed : QMap.t QVariant)
           (invalidated : list string) : QDBusMessage :=
  {| path := udi;
     arguments := [ArgString iface; ArgVariantMap changed;
                   ArgStringList invalidated] |}.

(** Whether a change reads as the ejection of a medium: the Block
    interface reports a [Size] of zero. *)
Definition reports_no_medium (iface : string) (changed : QMap.t QVariant)
  : bool :=
  String.eqb iface (UD2_DBUS_INTERFACE_BLOCK K)
  && QMap.contains "Size" changed
  && (toULongLong (QMap.value invalid "Size" changed) =? 0)%N.

(** The object path of a signal of the object manager is a D-Bus object
    path, which is never empty. *)
Definition on_an_object (e : Event) : Prop :=
  match e with
  | InterfacesAdded _ object_path _ => object_path ≠ ""
  | _ => True
  end.

(** *** Queries by type and parent *)

(** [Device::queryDeviceInterface] and [Device::parentUdi]
    ([udisksdevice.cpp]) are outside the files embedded here; they read
    through the manager and may fill its cache.  [Unknown] stands for
    [Solid::DeviceInterface::Unknown]. *)
Variable queryDeviceInterface :
  string → Frontend.DeviceInterfaceType → QMap.t (QMap.t (QMap.t QVariant))
  → bool * QMap.t (QMap.t (QMap.t QVariant)).
Variable parentUdiOf :
  string → QMap.t (QMap.t (QMap.t QVariant))
  → string * QMap.t (QMap.t (QMap.t QVariant)).
Variable Unknown : Frontend.DeviceInterfaceType.

(** The loop of the first branch of [devicesFromQuery]; the parent is
    asked for only when the device has the interface. *)
Fixpoint devicesUnder (keys : list string)
         (type : Frontend.DeviceInterfaceType) (parentUdi : string)
         (m_cache : QMap.t (QMap.t (QMap.t QVariant)))
  : list string * QMap.t (QMap.t (QMap.t QVariant)) :=
  match keys with
  | [] => ([], m_cache)
  | udi :: rest =>
      let '(has, cache1) := queryDeviceInterface udi type m_cache in
      let '(under, cache2) :=
        if has then
          let '(parent, cache) := parentUdiOf udi cache1 in
          (String.eqb parent parentUdi, cache)
        else (false, cache1) in
      let '(result, cache3) := devicesUnder rest type parentUdi cache2 in
      (if under then udi :: result else result, cache3)
  end.

(** The loop of its second branch. *)
Fixpoint devicesOfType (keys : list string)
         (type : Frontend.DeviceInterfaceType)
         (m_cache : QMap.t (QMap.t (QMap.t QVariant)))
  : list string * QMap.t (QMap.t (QMap.t QVariant)) :=
  match keys with
  | [] => ([], m_cache)
  | udi :: rest =>
      let '(has, cache1) := queryDeviceInterface udi type m_cache in
      let '(result, cache2) := devicesOfType rest type cache1 in
      (if has then udi :: result else result, cache2)
  end.

(** [devices] is a copy of the cache, taken when the query begins. *)
Definition devicesFromQuery (bus : Bus (QVariant := QVariant))
           (parentUdi : string) (type : Frontend.DeviceInterfaceType)
           (m_cache : QMap.t (QMap.t (QMap.t QVariant)))
  : list string * QMap.t (QMap.t (QMap.t QVariant)) :=
  let devices := deviceCache K sanitizeValueMap bus m_cache in
  if negb (isEmpty parentUdi) then
    devicesUnder (QMap.keys devices) type parentUdi devices
  else if negb (type =? Unknown)%N then
    devicesOfType (QMap.keys devices) type devices
  else (QMap.keys devices, devices).

End Run.
End ManagerRun.

(** ** The fstab backend: [fstabstorageaccess.cpp] *)

Module Fstab.
Import Qt.

(** [Solid::ErrorType], by the values this file uses. *)
Inductive ErrorType : Type :=
| NoError
| UnauthorizedOperation
| DeviceBusy
| OperationFailed.

(** What a storage access asks of its device and of the system. *)
Inductive Request : Type :=
| broadcastActionRequested (action : string)
| broadcastActionDone (action : string) (error : ErrorType)
                      (errorString : string)
| callSystemCommand (command : string) (args : list string).

Inductive Signal : Type :=
| accessibilityChanged (accessible : bool) (udi : string).

(** [FstabStorageAccess]; [device] is what [m_fstabDevice->device()]
    gives. *)
Record FstabStorageAccess : Type := mkFstabStorageAccess {
  device : string;
  m_filePath : string;
  m_isAccessible : bool;
  m_isIgnored : bool
}.

Section Handling.

(** [FstabHandling] ([fstabhandling.cpp]), [FSTAB_UDI_PREFIX]
    ([fstabservice.h]) and the error numbers of [errno.h] are outside the
    file embedded here.  [started] is what [callSystemCommand] returns. *)
Variable currentMountPoints : string → list string.
Variable mountPoints : string → list string.
Variable options : string → list string.
Variable started : string → list string → bool.
Variable FSTAB_UDI_PREFIX : string.
Variable EBUSY : Z.
Variable EPERM : Z.

(** The constructor. *)
Definition create (dev : string) : FstabStorageAccess :=
  match currentMountPoints dev with
  | [] =>
      {| device := dev;
         m_filePath :=
           match mountPoints dev with
           | [] => ""
           | first :: _ => first
           end;
         m_isAccessible := false;
         m_isIgnored := bool_decide ("x-gvfs-hide" ∈ options dev) |}
  | first :: _ =>
      {| device := dev;
         m_filePath := first;
         m_isAccessible := true;
         m_isIgnored := bool_decide ("x-gvfs-hide" ∈ options dev) |}
  end.

Definition filePath (access : FstabStorageAccess) : string :=
  m_filePath access.

Definition setup (access : FstabStorageAccess) : bool * list Request :=
  if isEmpty (filePath access) then (false, [])
  else
    (started "mount" [filePath access],
     [broadcastActionRequested "setup";
      callSystemCommand "mount" [filePath access]]).

(** The callback of [setup], run when the command has finished. *)
Definition setup_finished (exitCode : Z) (standardError : string)
  : Request :=
  if (exitCode =? 0)%Z then broadcastActionDone "setup" NoError ""
  else broadcastActionDone "setup" UnauthorizedOperation standardError.

Definition teardown (access : FstabStorageAccess) : bool * list Request :=
  if isEmpty (filePath access) then (false, [])
  else
    (started "umount" [filePath access],
     [broadcastActionRequested "teardown";
      callSystemCommand "umount" [filePath access]]).

(** The callback of [teardown]. *)
Definition teardown_finished (exitCode : Z) (standardError : string)
  : Request :=
  if (exitCode =? 0)%Z then broadcastActionDone "teardown" NoError ""
  else if (exitCode =? EBUSY)%Z then
    broadcastActionDone "teardown" DeviceBusy ""
  else if (exitCode =? EPERM)%Z then
    broadcastActionDone "teardown" UnauthorizedOperation standardError
  else broadcastActionDone "teardown" OperationFailed standardError.

(** The slot for [mtabChanged].  [QList::first()] is defined on a list
    with an element only; on the empty list the slot has no result. *)
Definition onMtabChanged (dev : string) (access : FstabStorageAccess)
  : option (FstabStorageAccess * list Signal) :=
  match currentMountPoints dev with
  | [] =>
      match mountPoints dev with
      | [] => None
      | first :: _ =>
          Some ({| device := device access;
                   m_filePath := first;
                   m_isAccessible := false;
                   m_isIgnored := m_isIgnored access |},
                [accessibilityChanged
                   false (FSTAB_UDI_PREFIX ++ "/" ++ dev)%string])
      end
  | first :: _ =>
      Some ({| device := device access;
               m_filePath := first;
               m_isAccessible := true;
               m_isIgnored := m_isIgnored access |},
            [accessibilityChanged
               true (FSTAB_UDI_PREFIX ++ "/" ++ dev)%string])
  end.

End Handling.
End Fstab.


(** ** More concrete instances *)

Module Cases.
Import Qt.

(** A value for the storage access interface. *)
Definition StorageAccess : Frontend.DeviceInterfaceType := 4%N.

(** A backend without state of its own that knows the identifiers in
    [known] and supports the interfaces in [types]. *)
Definition typed_backend (prefix : string)
           (types : gset Frontend.DeviceInterfaceType) (known : list string)
  : Frontend.DeviceManager unit :=
  {| Frontend.udiPrefix := prefix;
     Frontend.supportedInterfaces := types;
     Frontend.allDevices := fun w => (known, w);
     Frontend.devicesFromQuery := fun _ _ w => (known, w);
     Frontend.createDevice := fun udi w =>
       (if bool_decide (udi ∈ known)
        then Frontend.DeviceObject (Frontend.BackendDevice udi)
        else Frontend.NullObject, w) |}.

(** A backend for another tree of identifiers, which knows nothing. *)
Definition elsewhere : Frontend.DeviceManager unit :=
  Sample.static_backend "/org/kde/fstab" [].

(** A backend with storage access to [sdb1] and [sr0]. *)
Definition storage : Frontend.Backends unit :=
  [Some (typed_backend "/org/freedesktop/UDisks2" {[ StorageAccess ]}
                       [Sample.sdb1; Sample.sr0])].

(** A backend that supports nothing and lists [sdb], before the backend
    with storage access. *)
Definition mixed : Frontend.Backends unit :=
  Some (Sample.static_backend "/org/freedesktop/UDisks2" [Sample.sdb])
  :: storage.

(** Where the handles are mounted: the second handle of the registry at
    [/media/usb], every other at the root. *)
Definition mounted (device : Frontend.Device) (r : Frontend.Registry)
           (w : unit) : option string :=
  match device with
  | Some 2%positive => Some "/media/usb"
  | _ => Some "/"
  end.

(** Storage that is not mounted has the empty path. *)
Definition unmounted (device : Frontend.Device) (r : Frontend.Registry)
           (w : unit) : option string :=
  Some "".

(** A predicate of the language of [Sample.parse] uses no interface type
    and matches no device. *)
Definition no_types (p : option string)
  : gset Frontend.DeviceInterfaceType := ∅.

Definition no_match (p : option string) (device : Frontend.Device)
           (r : Frontend.Registry) (w : unit) : bool * unit :=
  (false, w).

(** The manager tracking the drive [sr0], behind a service that answers
    nothing. *)
Definition tracking_sr0 : System.World Sample.Variant :=
  {| System.bus := Sample.silent;
     System.m_cache := [(Sample.sr0, Sample.drive 512)] |}.

(** What the course of events [Sample.disk_missed] leaves. *)
Definition after_disk_missed
  : Frontend.Registry * System.World Sample.Variant * list Frontend.Signal :=
  match Sample.run_sample true Sample.disk_missed Frontend.initial
                          Sample.world0 with
  | Done outcome => outcome
  | AssertionFailed => (Frontend.initial, Sample.world0, [])
  end.

(** What reaches the manager in a short course of events. *)
Definition course : list (ManagerRun.Event (QVariant := Sample.Variant)) :=
  [ManagerRun.CallAllDevices Sample.with_sdb;
   ManagerRun.InterfacesAdded Sample.answering Sample.sdb1 Sample.disk;
   ManagerRun.CallDeviceProperty Sample.answering Sample.sdb1 "Size"
                                 UDisks2.FetchIfNeeded;
   ManagerRun.InterfacesRemoved Sample.sdb [Sample.Block]].

End Cases.
(** * Properties *)

Module QtFacts.
Import Qt.

Lemma isEmpty_true s : isEmpty s = true ↔ s = "".
Proof. unfold isEmpty. apply String.eqb_eq. Qed.

Lemma isEmpty_false s : isEmpty s = false ↔ s ≠ "".
Proof. unfold isEmpty. apply String.eqb_neq. Qed.

Lemma Q_ASSERT_unchecked cond : Q_ASSERT false cond = Done tt.
Proof. reflexivity. Qed.

Lemma Q_ASSERT_holds checked : Q_ASSERT checked true = Done tt.
Proof. unfold Q_ASSERT. by rewrite andb_false_r. Qed.

Lemma Q_ASSERT_done checked cond :
  Q_ASSERT checked cond = Done tt ↔ checked = false ∨ cond = true.
Proof.
  destruct checked, cond; cbn; split; intros H;
    first [ done | by left | by right | by destruct H ].
Qed.

End QtFacts.

(** ** [QMap] *)

Module QMapFacts.

Lemma compare_refl (k : string) : String.compare k k = Eq.
Proof.
  pose proof (String.compare_antisym k k) as H.
  destruct (String.compare k k); cbn in H; congruence.
Qed.

Lemma compare_Eq (k k' : string) : String.compare k k' = Eq ↔ k = k'.
Proof.
  split; [apply String.compare_eq_iff|]. intros ->. apply compare_refl.
Qed.

Lemma eqb_true (k : string) : String.eqb k k = true.
Proof. by apply String.eqb_eq. Qed.

Lemma eqb_false (k k' : string) : k ≠ k' → String.eqb k k' = false.
Proof. by intros; apply String.eqb_neq. Qed.

Section Facts.
Context {V : Type}.
Implicit Types (m : QMap.t V) (k : string) (v : V).

Lemma find_insert_eq k v m : QMap.find k (QMap.insert k v m) = Some v.
Proof.
  induction m as [|[k' v'] rest IH]; cbn.
  - by rewrite eqb_true.
  - destruct (String.compare k k') eqn:Hcmp; cbn; rewrite ?eqb_true; try done.
    rewrite eqb_false; [done|]. intros ->. by rewrite compare_refl in Hcmp.
Qed.

Lemma find_insert_ne k k' v m :
  k ≠ k' → QMap.find k' (QMap.insert k v m) = QMap.find k' m.
Proof.
  intros Hne. induction m as [|[k0 v0] rest IH]; cbn.
  - by rewrite eqb_false.
  - destruct (String.compare k k0) eqn:Hcmp; cbn.
    + apply compare_Eq in Hcmp as <-. by rewrite !(eqb_false k' k).
    + by rewrite (eqb_false k' k).
    + by rewrite IH.
Qed.

Lemma find_insert k k' v m :
  QMap.find k' (QMap.insert k v m)
  = if decide (k = k') then Some v else QMap.find k' m.
Proof.
  case_decide as H; [subst; apply find_insert_eq|by apply find_insert_ne].
Qed.

Lemma find_remove_eq k m : QMap.find k (QMap.remove k m) = None.
Proof.
  induction m as [|[k' v'] rest IH]; cbn; [done|].
  destruct (String.eqb k k') eqn:Heq; cbn; by rewrite ?Heq.
Qed.

Lemma find_remove_ne k k' m :
  k ≠ k' → QMap.find k' (QMap.remove k m) = QMap.find k' m.
Proof.
  intros Hne. induction m as [|[k0 v0] rest IH]; cbn; [done|].
  destruct (String.eqb k k0) eqn:Heq; cbn.
  - apply String.eqb_eq in Heq as <-. by rewrite (eqb_false k' k).
  - by rewrite IH.
Qed.

Lemma find_remove k k' m :
  QMap.find k' (QMap.remove k m)
  = if decide (k = k') then None else QMap.find k' m.
Proof.
  case_decide as H; [subst; apply find_remove_eq|by apply find_remove_ne].
Qed.

Lemma contains_true k m : QMap.contains k m = true ↔ is_Some (QMap.find k m).
Proof.
  unfold QMap.contains. destruct (QMap.find k m); split; try done.
Qed.

Lemma contains_false k m : QMap.contains k m = false ↔ QMap.find k m = None.
Proof. unfold QMap.contains. by destruct (QMap.find k m). Qed.

Lemma find_None_keys k m : QMap.find k m = None ↔ k ∉ QMap.keys m.
Proof.
  induction m as [|[k' v'] rest IH]; cbn.
  - split; [intros _; apply not_elem_of_nil|done].
  - rewrite not_elem_of_cons, <- IH.
    destruct (String.eqb k k') eqn:Heq.
    + apply String.eqb_eq in Heq. split; [done|]. by intros [? _].
    + apply String.eqb_neq in Heq. split; [done|]. by intros [_ ?].
Qed.

Lemma find_Some_keys k m : is_Some (QMap.find k m) ↔ k ∈ QMap.keys m.
Proof.
  rewrite <- not_eq_None_Some, find_None_keys.
  split; [apply dec_stable|]. by intros ? ?.
Qed.

Lemma find_insert_value d k k' v m :
  QMap.value d k' (QMap.insert k v m)
  = if decide (k = k') then v else QMap.value d k' m.
Proof. unfold QMap.value. rewrite find_insert. by case_decide. Qed.

Lemma empty_iff_no_entry m : QMap.isEmpty m = true ↔ ∀ k, QMap.find k m = None.
Proof.
  destruct m as [|[k v] rest]; cbn; split; try done.
  intros H. specialize (H k). by rewrite eqb_true in H.
Qed.

Lemma nonempty_iff_entry m : QMap.isEmpty m = false ↔ ∃ k, is_Some (QMap.find k m).
Proof.
  destruct m as [|[k v] rest]; cbn; split; try done.
  - by intros [k [? ?]].
  - intros _. exists k. rewrite eqb_true. by eexists.
Qed.

(** The operations keep the keys in ascending order, one entry each. *)

Lemma compare_Lt_trans (a b c : string) :
  String.compare a b = Lt → String.compare b c = Lt →
  String.compare a c = Lt.
Proof.
  intros Hab Hbc. apply String_as_OT.cmp_lt.
  apply String_as_OT.cmp_lt in Hab, Hbc.
  by apply String_as_OT.lt_trans with b.
Qed.

Lemma compare_Gt_Lt (a b : string) :
  String.compare a b = Gt → String.compare b a = Lt.
Proof.
  intros Hab. rewrite String.compare_antisym, Hab. done.
Qed.

Lemma keys_insert_Forall (P : string → Prop) k v m :
  P k → Forall P (QMap.keys m) → Forall P (QMap.keys (QMap.insert k v m)).
Proof.
  intros Hk. induction m as [|[k' v'] rest IH]; cbn; intros Hall.
  - by constructor.
  - apply Forall_cons in Hall as [Hk' Hrest].
    destruct (String.compare k k'); cbn; repeat constructor; auto.
Qed.

Lemma keys_remove_Forall (P : string → Prop) k m :
  Forall P (QMap.keys m) → Forall P (QMap.keys (QMap.remove k m)).
Proof.
  induction m as [|[k' v'] rest IH]; cbn; intros Hall; [done|].
  apply Forall_cons in Hall as [Hk' Hrest].
  destruct (String.eqb k k'); cbn; [auto|constructor; auto].
Qed.

Lemma insert_sorted k v m : QMap.sorted m → QMap.sorted (QMap.insert k v m).
Proof.
  unfold QMap.sorted. induction m as [|[k' v'] rest IH]; cbn; intros Hm.
  - repeat constructor.
  - apply StronglySorted_inv in Hm as [Hrest Hall].
    destruct (String.compare k k') eqn:Hcmp; cbn.
    + apply compare_Eq in Hcmp as ->. by constructor.
    + constructor; [by constructor|]. constructor; [done|].
      eapply Forall_impl; [exact Hall|]. intros k0 Hk0.
      by apply compare_Lt_trans with k'.
    + constructor; [by apply IH|].
      apply keys_insert_Forall; [by apply compare_Gt_Lt|done].
Qed.

Lemma remove_sorted k m : QMap.sorted m → QMap.sorted (QMap.remove k m).
Proof.
  unfold QMap.sorted. induction m as [|[k' v'] rest IH]; cbn; intros Hm.
  - constructor.
  - apply StronglySorted_inv in Hm as [Hrest Hall].
    destruct (String.eqb k k'); cbn; [by apply IH|].
    constructor; [by apply IH|]. by apply keys_remove_Forall.
Qed.

Lemma sorted_ok m : QMap.sorted m → QMap.ok m.
Proof.
  unfold QMap.sorted, QMap.ok. induction m as [|[k v] rest IH]; cbn.
  - intros _. constructor.
  - intros Hm. apply StronglySorted_inv in Hm as [Hrest Hall].
    constructor; [|by apply IH].
    intros Hin. rewrite Forall_forall in Hall. specialize (Hall _ Hin).
    by rewrite compare_refl in Hall.
Qed.

(** Removing a list of keys one after the other. *)
Lemma find_remove_all (names : list string) k m :
  QMap.find k (fold_left (fun props name => QMap.remove name props) names m)
  = if decide (k ∈ names) then None else QMap.find k m.
Proof.
  revert m. induction names as [|name rest IH]; intros m; cbn.
  - case_decide as H; [by apply elem_of_nil in H|done].
  - rewrite IH, find_remove.
    destruct (decide (k ∈ rest)) as [Hin|Hout].
    + rewrite decide_True; [done|]. apply elem_of_cons. by right.
    + destruct (decide (name = k)) as [->|Hne].
      * rewrite decide_True; [done|]. apply elem_of_cons. by left.
      * rewrite decide_False; [done|]. rewrite elem_of_cons. by intros [?|?].
Qed.

End Facts.

Lemma removeOne_keeps x y l : y ∈ l → y ≠ x → y ∈ removeOne x l.
Proof.
  intros Hin Hne. induction l as [|z rest IH]; cbn; [done|].
  apply elem_of_cons in Hin as [->|Hin].
  - rewrite eqb_false by done. apply elem_of_cons. by left.
  - destruct (String.eqb x z); [done|]. apply elem_of_cons. right. by apply IH.
Qed.

Lemma removeOne_subset x y l : y ∈ removeOne x l → y ∈ l.
Proof.
  induction l as [|z rest IH]; cbn; [done|].
  destruct (String.eqb x z).
  - intros ?. apply elem_of_cons. by right.
  - rewrite !elem_of_cons. intros [->|?]; [by left|right; by apply IH].
Qed.

Lemma removeOne_drops x l : NoDup l → x ∉ removeOne x l.
Proof.
  induction 1 as [|z rest Hz Hnodup IH]; cbn; [apply not_elem_of_nil|].
  destruct (String.eqb x z) eqn:Heq.
  - apply String.eqb_eq in Heq as ->. done.
  - apply String.eqb_neq in Heq. rewrite not_elem_of_cons. done.
Qed.

End QMapFacts.

(** ** The frontend *)

Module FrontendFacts.
Import Qt QtFacts Frontend.

Section Facts.
Context {W : Type}.
Implicit Types (r : Registry) (w : W) (backends : Backends W).

Lemma createBackendObject_routing backends udi w :
  createBackendObject backends udi w =
  match routing_backend backends udi with
  | Some backend =>
      let '(object, w') := createDevice backend udi w in
      (qobject_cast_Device object, w')
  | None => (None, w)
  end.
Proof.
  induction backends as [|[backend|] rest IH]; cbn; try done.
  destruct (startsWith udi (udiPrefix backend)); cbn; done.
Qed.

Lemma initial_inv : registry_inv initial.
Proof.
  split; cbn.
  - intros udi p H. by rewrite lookup_empty in H.
  - intros p dev H Hp. apply lookup_singleton_Some in H as [<- _]. done.
  - intros p udi H. by rewrite lookup_empty in H.
  - rewrite lookup_singleton_eq. by eexists.
Qed.

Lemma find_inv backends udi r w :
  registry_inv r → registry_inv (findRegisteredDevice backends udi r w).1.2.
Proof.
  intros [Hreg Hlive Hrev Hnull]. unfold findRegisteredDevice.
  destruct (isEmpty udi) eqn:Hudi; [by split|].
  apply isEmpty_false in Hudi.
  destruct (m_devicesMap r !! udi) as [qp|] eqn:Hmap; [by split|].
  destruct (createBackendObject backends udi w) as [iface w'] eqn:Hcreate.
  cbn. set (devData := fresh (dom (objects r))).
  assert (Hfresh : objects r !! devData = None).
  { apply not_elem_of_dom. apply is_fresh. }
  assert (Hnotnull : devData ≠ m_nullDevice r).
  { intros ->. rewrite Hfresh in Hnull. by destruct Hnull. }
  split; cbn.
  - intros udi' p Hp. destruct (decide (udi = udi')) as [<-|Hne].
    + rewrite lookup_insert_eq in Hp. injection Hp as <-.
      rewrite !lookup_insert_eq. repeat split; try done. by eexists.
    + rewrite lookup_insert_ne in Hp by done.
      destruct (Hreg _ _ Hp) as (? & ? & Hrp & dev & Hdev & ?).
      assert (devData ≠ p) by (intros ->; congruence).
      rewrite !lookup_insert_ne by done. repeat split; try done. by exists dev.
  - intros p dev Hdev Hp. destruct (decide (devData = p)) as [<-|Hne].
    + rewrite lookup_insert_eq in Hdev. injection Hdev as <-. cbn.
      by rewrite lookup_insert_eq.
    + rewrite lookup_insert_ne in Hdev by done.
      pose proof (Hlive _ _ Hdev Hp) as Hin.
      rewrite lookup_insert_ne; [done|]. intros Heq.
      rewrite <- Heq in Hin. congruence.
  - intros p udi' Hp. destruct (decide (devData = p)) as [<-|Hne].
    + rewrite lookup_insert_eq in Hp. injection Hp as <-.
      by rewrite lookup_insert_eq.
    + rewrite lookup_insert_ne in Hp by done.
      pose proof (Hrev _ _ Hp) as Hin.
      rewrite lookup_insert_ne; [done|]. intros ->. congruence.
  - rewrite lookup_insert_ne by done. done.
Qed.

Lemma store_backend_inv p object r :
  registry_inv r → registry_inv (store_backend p object r).
Proof.
  intros [Hreg Hlive Hrev Hnull]. split; cbn; [| |done|].
  - intros udi q Hq. destruct (Hreg _ _ Hq) as (? & ? & ? & dev & Hdev & ?).
    repeat split; try done. rewrite lookup_alter.
    case_decide as Hpq; [subst q|by exists dev].
    rewrite Hdev. by eexists.
  - intros q dev Hdev Hq. rewrite lookup_alter in Hdev.
    case_decide as Hpq; [subst q|by apply Hlive].
    destruct (objects r !! p) as [dev0|] eqn:Hdev0; [|done].
    injection Hdev as <-. cbn. by apply Hlive.
  - rewrite lookup_alter. case_decide; [|done].
    subst. destruct Hnull as [dev ->]. by eexists.
Qed.

Lemma added_inv checked backends udi r w r' w' signals :
  registry_inv r →
  _k_deviceAdded checked backends udi r w = Done (r', w', signals) →
  registry_inv r'.
Proof.
  intros Hinv. unfold _k_deviceAdded.
  destruct (m_devicesMap r !! udi) as [qp|]; [|by intros [= <- _ _]].
  destruct (objects r !! qp) as [dev|]; [|by intros [= <- _ _]].
  destruct (backendObject dev); [by intros [= <- _ _]|].
  destruct (createBackendObject backends udi w) as [iface w1].
  destruct (Q_ASSERT _ _); [|done].
  cbn. intros [= <- _ _]. by apply store_backend_inv.
Qed.

Lemma removed_inv checked udi r r' signals :
  registry_inv r →
  _k_deviceRemoved checked udi r = Done (r', signals) →
  registry_inv r'.
Proof.
  intros Hinv. unfold _k_deviceRemoved.
  destruct (m_devicesMap r !! udi) as [qp|]; [|by intros [= <- _]].
  destruct (objects r !! qp) as [dev|]; [|by intros [= <- _]].
  destruct (Q_ASSERT checked (bool_decide (is_Some (backendObject dev))));
    [|done].
  cbn. destruct (Q_ASSERT _ _); [|done].
  cbn. intros [= <- _]. by apply store_backend_inv.
Qed.

Lemma delete_inv p r :
  registry_inv r → p ≠ m_nullDevice r → registry_inv (delete_device p r).
Proof.
  intros [Hreg Hlive Hrev Hnull] Hp. unfold delete_device, _k_destroyed.
  cbn -[isEmpty].
  destruct (m_reverseMap r !! p) as [udi|] eqn:Hrp; cbn -[isEmpty].
  - pose proof (Hrev _ _ Hrp) as Hudi_p.
    destruct (Hreg _ _ Hudi_p) as (Hudi & _).
    apply isEmpty_false in Hudi. rewrite Hudi. split; cbn.
    + intros udi' q Hq. apply lookup_delete_Some in Hq as [Hne Hq].
      destruct (Hreg _ _ Hq) as (? & ? & Hrq & dev & Hdev & ?).
      assert (p ≠ q) by (intros ->; congruence).
      rewrite !lookup_delete_ne by done. repeat split; try done.
      by exists dev.
    + intros q dev Hdev Hq. apply lookup_delete_Some in Hdev as [Hpq Hdev].
      pose proof (Hlive _ _ Hdev Hq) as Hin.
      rewrite lookup_delete_ne; [done|]. intros Heq.
      rewrite <- Heq in Hin. congruence.
    + intros q udi' Hq. apply lookup_delete_Some in Hq as [Hpq Hq].
      pose proof (Hrev _ _ Hq) as Hin.
      rewrite lookup_delete_ne; [done|]. intros ->. congruence.
    + by rewrite lookup_delete_ne.
  - split; cbn.
    + intros udi q Hq.
      destruct (Hreg _ _ Hq) as (? & ? & Hrq & dev & Hdev & ?).
      assert (p ≠ q) by (intros ->; congruence).
      rewrite !lookup_delete_ne by done. repeat split; try done.
      by exists dev.
    + intros q dev Hdev Hq. apply lookup_delete_Some in Hdev as [? Hdev].
      by apply Hlive.
    + intros q udi Hq. apply lookup_delete_Some in Hq as [? Hq].
      by apply Hrev.
    + by rewrite lookup_delete_ne.
Qed.

Lemma reachable_inv r : reachable (W := W) r → registry_inv r.
Proof.
  induction 1 as [| | | |];
    eauto using initial_inv, find_inv, added_inv, removed_inv, delete_inv.
Qed.

Lemma inv_unique_handles r : registry_inv r → unique_handles r.
Proof.
  intros [_ Hlive _ _] p1 p2 dev1 dev2 H1 H2 Hn1 Hn2 Heq.
  pose proof (Hlive _ _ H1 Hn1) as Hm1.
  pose proof (Hlive _ _ H2 Hn2) as Hm2.
  rewrite Heq in Hm1. congruence.
Qed.

Lemma store_backend_lookup p object r dev :
  objects r !! p = Some dev →
  objects (store_backend p object r) !! p
  = Some (mkDevicePrivate (m_udi dev) object).
Proof. intros H. cbn. by rewrite lookup_alter_eq, H. Qed.

(** C1 (as amended).  In every state the registry can reach: the empty
    identifier is answered with the shared null device and nothing is
    registered; for any other identifier a registered handle is returned
    as it is, with no object created and no backend asked, and an
    unregistered one gets a new handle whose backing object is what the
    first backend with a matching prefix creates (null when there is none
    or it creates none), entered into the identity map either way; after
    the lookup no two live handles carry the same identifier. *)
Theorem find_identity backends udi r w :
  reachable (W := W) r →
  (udi ≠ "" → find_contract backends udi r w) ∧
  (udi = "" →
   findRegisteredDevice backends udi r w = (Some (m_nullDevice r), r, w)) ∧
  createBackendObject backends udi w
  = match routing_backend backends udi with
    | Some backend =>
        ((qobject_cast_Device (createDevice backend udi w).1),
         (createDevice backend udi w).2)
    | None => (None, w)
    end.
Proof.
  intros Hreach. pose proof (reachable_inv _ Hreach) as Hinv.
  split; [|split].
  - intros Hudi. unfold find_contract.
    pose proof (find_inv backends udi r w Hinv) as Hinv'.
    apply inv_unique_handles in Hinv'.
    unfold findRegisteredDevice in *.
    apply isEmpty_false in Hudi. rewrite Hudi in *.
    destruct (m_devicesMap r !! udi) as [qp|] eqn:Hmap.
    + split; [|split; [done|exact Hinv']].
      intros p [= <-].
      destruct (inv_registered _ Hinv _ _ Hmap) as (_ & _ & _ & dev & Hdev & _).
      unfold QPointer_data. rewrite Hdev. by (repeat split; try eexists).
    + destruct (createBackendObject backends udi w) as [iface w'].
      split; [done|]. split; [|exact Hinv'].
      intros _. exists (fresh (dom (objects r))). cbn.
      repeat split; try done. apply not_elem_of_dom, is_fresh.
  - intros ->. done.
  - rewrite createBackendObject_routing.
    destruct (routing_backend backends udi) as [backend|]; [|done].
    by destruct (createDevice backend udi w).
Qed.

(** C7.  When the backend announces [udi]: a registered handle whose
    backing object is null is re-resolved through the backends and the
    result is asserted to be non-null, so the slot stops exactly when the
    assertion is checked and the resolution gave nothing; whenever the slot
    runs to its end, with or without a handle, it emits [deviceAdded udi]
    and nothing else, and a state without such a handle is left as it was. *)
Theorem deviceAdded_resolves_and_notifies checked backends udi r w :
  let outcome := _k_deviceAdded checked backends udi r w in
  let iface := (createBackendObject backends udi w).1 in
  let w1 := (createBackendObject backends udi w).2 in
  (outcome = AssertionFailed ↔
   checked = true ∧ iface = None ∧
   ∃ p dev, registered_handle r udi p dev ∧ backendObject dev = None) ∧
  (∀ p dev, registered_handle r udi p dev → backendObject dev = None →
     outcome ≠ AssertionFailed →
     outcome = Done (store_backend p iface r, w1, [deviceAdded udi]) ∧
     objects (store_backend p iface r) !! p
     = Some (mkDevicePrivate (m_udi dev) iface) ∧
     (checked = true → is_Some iface)) ∧
  ((∀ p dev, registered_handle r udi p dev → is_Some (backendObject dev)) →
   outcome = Done (r, w, [deviceAdded udi])) ∧
  (∀ r' w' signals, outcome = Done (r', w', signals) →
                    signals = [deviceAdded udi]).
Proof.
  unfold _k_deviceAdded, registered_handle. cbn zeta.
  destruct (m_devicesMap r !! udi) as [qp|] eqn:Hmap;
    [destruct (objects r !! qp) as [dev|] eqn:Hdev;
     [destruct (backendObject dev) as [d|] eqn:Hback|]|].
  - (* a handle with a backing object *)
    split; [split; [done|]|split; [|split]].
    + intros (_ & _ & p & dev' & [[= <-] Hdev'] & Hnone). congruence.
    + intros p dev' [[= <-] Hdev'] Hnone. congruence.
    + done.
    + by intros ? ? ? [= _ _ <-].
  - (* a handle without one *)
    destruct (createBackendObject backends udi w) as [iface w1].
    cbn [fst snd].
    assert (Hstore : ∀ p dev', Some qp = Some p ∧ objects r !! p = Some dev' →
              objects (store_backend p iface r) !! p
              = Some (mkDevicePrivate (m_udi dev') iface)).
    { intros p dev' [_ Hdev']. by apply store_backend_lookup. }
    assert (Hread : objects (store_backend qp iface r) !! qp ≫= backendObject
                    = iface).
    { by rewrite (store_backend_lookup _ _ _ _ Hdev). }
    rewrite Hread.
    destruct iface as [d|].
    + rewrite bool_decide_eq_true_2 by by eexists.
      rewrite Q_ASSERT_holds. cbn.
      split; [split; [done|by intros (_ & ? & _)]|split; [|split]].
      * intros p dev' Hreg _ _. pose proof Hreg as [[= <-] _].
        split; [done|]. split; [by apply Hstore|]. by eexists.
      * intros Hall. destruct (Hall qp dev) as [? ?]; [done|congruence].
      * by intros ? ? ? [= _ _ <-].
    + rewrite bool_decide_eq_false_2 by (intros [? ?]; done).
      destruct checked; cbn.
      * split; [split; [|done]|split; [|split]]; try done.
        -- intros _. by repeat first [split | eexists].
        -- intros Hall. destruct (Hall qp dev) as [? ?]; [done|congruence].
      * split; [split; [done|by intros ([=] & _)]|split; [|split]].
        -- intros p dev' Hreg _ _. pose proof Hreg as [[= <-] _].
           split; [done|]. split; [by apply Hstore|]. done.
        -- intros Hall. destruct (Hall qp dev) as [? ?]; [done|congruence].
        -- by intros ? ? ? [= _ _ <-].
  - (* the pointer in the map is dangling *)
    split; [split; [done|]|split; [|split]].
    + intros (_ & _ & p & dev' & [[= <-] Hdev'] & _). congruence.
    + intros p dev' [[= <-] Hdev']. congruence.
    + done.
    + by intros ? ? ? [= _ _ <-].
  - (* no handle *)
    split; [split; [done|]|split; [|split]].
    + by intros (_ & _ & p & dev' & [? _] & _).
    + by intros p dev' [? _].
    + done.
    + by intros ? ? ? [= _ _ <-].
Qed.

(** C8.  When the backend reports [udi] removed: the handle registered for
    it, if any, has its backing object set to null and stays in the object
    store and in the identity map; the slot asserts that the backing object
    was not null before, and stops exactly when that assertion is checked
    and fails; whenever it runs to its end, with or without a handle, it
    emits [deviceRemoved udi] and nothing else and removes no handle. *)
Theorem deviceRemoved_invalidates_and_notifies checked udi r :
  let outcome := _k_deviceRemoved checked udi r in
  (outcome = AssertionFailed ↔
   checked = true ∧
   ∃ p dev, registered_handle r udi p dev ∧ backendObject dev = None) ∧
  (∀ p dev, registered_handle r udi p dev → outcome ≠ AssertionFailed →
     outcome = Done (store_backend p None r, [deviceRemoved udi]) ∧
     objects (store_backend p None r) !! p
     = Some (mkDevicePrivate (m_udi dev) None) ∧
     m_devicesMap (store_backend p None r) !! udi = Some p) ∧
  ((∀ p dev, ¬ registered_handle r udi p dev) →
   outcome = Done (r, [deviceRemoved udi])) ∧
  (∀ r' signals, outcome = Done (r', signals) →
     signals = [deviceRemoved udi] ∧
     m_devicesMap r' = m_devicesMap r ∧
     m_reverseMap r' = m_reverseMap r ∧
     dom (objects r') = dom (objects r)).
Proof.
  unfold _k_deviceRemoved, registered_handle. cbn zeta.
  destruct (m_devicesMap r !! udi) as [qp|] eqn:Hmap;
    [destruct (objects r !! qp) as [dev|] eqn:Hdev|].
  - assert (Hafter : objects (store_backend qp None r) !! qp ≫= backendObject
                     = None).
    { by rewrite (store_backend_lookup _ _ _ _ Hdev). }
    rewrite bool_decide_eq_true_2 by exact Hafter.
    assert (Hstore : ∀ p dev', Some qp = Some p ∧ objects r !! p = Some dev' →
              objects (store_backend p None r) !! p
              = Some (mkDevicePrivate (m_udi dev') None)).
    { intros p dev' [_ Hdev']. by apply store_backend_lookup. }
    assert (Hkept : ∀ r' signals,
              Done (store_backend qp None r, [deviceRemoved udi])
              = Done (r', signals) →
              signals = [deviceRemoved udi] ∧
              m_devicesMap r' = m_devicesMap r ∧
              m_reverseMap r' = m_reverseMap r ∧
              dom (objects r') = dom (objects r)).
    { intros ? ? [= <- <-]. cbn. by rewrite dom_alter_L. }
    destruct (backendObject dev) as [d|] eqn:Hback.
    + rewrite bool_decide_eq_true_2 by by eexists.
      rewrite !Q_ASSERT_holds. cbn.
      split; [split; [done|]|split; [|split]].
      * intros (_ & p & dev' & [[= <-] Hdev'] & Hnone). congruence.
      * intros p dev' Hreg _. pose proof Hreg as [[= <-] _].
        split; [done|]. split; [by apply Hstore|done].
      * intros Hall. by destruct (Hall qp dev).
      * exact Hkept.
    + rewrite bool_decide_eq_false_2 by (intros [? ?]; done).
      destruct checked; cbn.
      * split; [split; [|done]|split; [|split]]; try done.
        -- intros _. by repeat first [split | eexists].
        -- intros Hall. by destruct (Hall qp dev).
      * rewrite ?Q_ASSERT_unchecked. cbn.
        split; [split; [done|by intros ([=] & _)]|split; [|split]].
        -- intros p dev' Hreg _. pose proof Hreg as [[= <-] _].
           split; [done|]. split; [by apply Hstore|done].
        -- intros Hall. by destruct (Hall qp dev).
        -- exact Hkept.
  - split; [split; [done|]|split; [|split]].
    + intros (_ & p & dev' & [[= <-] Hdev'] & _). congruence.
    + intros p dev' [[= <-] Hdev']. congruence.
    + done.
    + by intros ? ? [= <- <-].
  - split; [split; [done|]|split; [|split]].
    + by intros (_ & p & dev' & [? _] & _).
    + by intros p dev' [? _].
    + done.
    + by intros ? ? [= <- <-].
Qed.

End Facts.

Lemma find_contract_fails_on_empty_identifier :
  ¬ find_contract (W := unit) Sample.nobody "" initial tt.
Proof.
  unfold find_contract. cbn. intros (_ & Hnew & _).
  destruct (Hnew eq_refl) as (p & _ & _ & Hmap & _).
  apply (f_equal (lookup "")) in Hmap.
  by rewrite lookup_insert_eq, lookup_empty in Hmap.
Qed.

Lemma find_identity_witness :
  reachable (W := unit) initial ∧ Sample.sr0 ≠ "" ∧
  find_contract Sample.nobody Sample.sr0 initial tt.
Proof.
  split; [apply reach_initial|]. split; [discriminate|].
  apply (find_identity Sample.nobody Sample.sr0 initial tt reach_initial).
  discriminate.
Defined.

Lemma deviceAdded_resolves_and_notifies_witness :
  registered_handle Sample.unresolved Sample.sr0 2%positive
                    (mkDevicePrivate Sample.sr0 None) ∧
  _k_deviceAdded true Sample.somebody Sample.sr0 Sample.unresolved tt
  = Done (store_backend 2%positive (Some (BackendDevice Sample.sr0))
                        Sample.unresolved,
          tt, [deviceAdded Sample.sr0]).
Proof.
  assert (Hreg : registered_handle Sample.unresolved Sample.sr0 2%positive
                                   (mkDevicePrivate Sample.sr0 None)).
  { split; vm_compute; reflexivity. }
  split; [exact Hreg|].
  destruct (deviceAdded_resolves_and_notifies
              true Sample.somebody Sample.sr0 Sample.unresolved tt)
    as (_ & Hresolved & _).
  apply (Hresolved 2%positive (mkDevicePrivate Sample.sr0 None) Hreg eq_refl).
  vm_compute. discriminate.
Defined.

Lemma deviceRemoved_invalidates_and_notifies_witness :
  registered_handle Sample.resolved Sample.sr0 2%positive
                    (mkDevicePrivate Sample.sr0
                                     (Some (BackendDevice Sample.sr0))) ∧
  _k_deviceRemoved true Sample.sr0 Sample.resolved
  = Done (store_backend 2%positive None Sample.resolved, [deviceRemoved Sample.sr0]).
Proof.
  assert (Hreg : registered_handle Sample.resolved Sample.sr0 2%positive
            (mkDevicePrivate Sample.sr0 (Some (BackendDevice Sample.sr0)))).
  { split; vm_compute; reflexivity. }
  split; [exact Hreg|].
  destruct (deviceRemoved_invalidates_and_notifies
              true Sample.sr0 Sample.resolved)
    as (_ & Hinvalidated & _).
  apply (Hinvalidated 2%positive _ Hreg).
  vm_compute. discriminate.
Defined.

End FrontendFacts.

(** ** The UDisks2 backend *)

Module UDisks2Facts.
Import Qt QtFacts QMapFacts UDisks2.

Section Facts.
Context {QVariant : Type} `{!QVariantOps QVariant}.
Variable K : Constants.
Variable sanitizeValue : QVariant → QVariant.
Variable sanitizeValueMap : QMap.t QVariant → QMap.t QVariant.
Variable mightBeOpticalDisc :
  string → QMap.t (QMap.t (QMap.t QVariant))
  → bool * QMap.t (QMap.t (QMap.t QVariant)).

Implicit Types (bus : Bus (QVariant := QVariant)).
Implicit Types (m : QMap.t (QMap.t (QMap.t QVariant))).
Implicit Types (props : QMap.t (QMap.t QVariant)).
Implicit Types (udi iface name : string).

(** *** Reading a property *)

Lemma loop_cached bus udi name props m :
  deviceProperty_loop sanitizeValue bus udi name CachedOnly props m
  = (match first_holder name props with
     | Some (_, cached) => cached
     | None => invalid
     end, m, []).
Proof.
  induction props as [|[iface properties] rest IH]; cbn; [done|].
  destruct (QMap.find name properties) as [cached|]; [|done].
  by rewrite andb_false_r.
Qed.

Lemma loop_fetch bus udi name props m :
  deviceProperty_loop sanitizeValue bus udi name FetchIfNeeded props m
  = match first_holder name props with
    | Some (iface, cached) =>
        if isValid cached then (cached, m, [])
        else
          let value := sanitizeValue (Get bus udi iface name) in
          (value, assign udi iface name value m, [CallGet udi iface name])
    | None => (invalid, m, [])
    end.
Proof.
  induction props as [|[iface properties] rest IH]; cbn; [done|].
  destruct (QMap.find name properties) as [cached|]; [|done].
  by destruct (isValid cached).
Qed.

(** The assignment [m_cache[udi][iface][name] = value] makes [iface] the
    first holder of [name], with that value, when it was the first holder
    before. *)
Lemma first_holder_assigned name iface cached value props :
  first_holder name props = Some (iface, cached) →
  first_holder name
    (QMap.insert iface
       (QMap.insert name value (QMap.value [] iface props)) props)
  = Some (iface, value).
Proof.
  induction props as [|[iface0 properties] rest IH]; cbn; [done|].
  destruct (QMap.find name properties) as [held|] eqn:Hheld.
  - intros [= -> ->]. unfold QMap.value. cbn.
    rewrite eqb_true, compare_refl. cbn. by rewrite find_insert_eq.
  - intros Hrest. unfold QMap.value in *. cbn.
    destruct (String.compare iface iface0) eqn:Hcmp; cbn.
    + by rewrite find_insert_eq.
    + by rewrite find_insert_eq.
    + rewrite Hheld. rewrite eqb_false; [by apply IH|].
      intros ->. by rewrite compare_refl in Hcmp.
Qed.

Lemma value_assign udi iface name value m :
  QMap.value [] udi (assign udi iface name value m)
  = QMap.insert iface
      (QMap.insert name value
         (QMap.value [] iface (QMap.value [] udi m)))
      (QMap.value [] udi m).
Proof. unfold assign. by rewrite find_insert_value, decide_True. Qed.

(** C6.  A read in [CachedOnly] mode leaves the cache as it was and calls
    nobody, so that any later [CachedOnly] read sees what it would have
    seen without it; and after a read in [FetchIfNeeded] mode a
    [CachedOnly] read of the same property returns the same value,
    whatever the service would answer by then. *)
Theorem lazy_resolution_idempotent bus later udi name udi' name' m :
  let first := deviceProperty sanitizeValue bus udi name CachedOnly m in
  let fetched := deviceProperty sanitizeValue bus udi name FetchIfNeeded m in
  first.1.2 = m ∧ first.2 = [] ∧
  deviceProperty sanitizeValue later udi' name' CachedOnly first.1.2
  = deviceProperty sanitizeValue later udi' name' CachedOnly m ∧
  deviceProperty sanitizeValue later udi name CachedOnly fetched.1.2
  = (fetched.1.1, fetched.1.2, []).
Proof.
  cbn zeta. unfold deviceProperty. rewrite !loop_cached, !loop_fetch. cbn.
  repeat split.
  destruct (first_holder name (QMap.value [] udi m))
    as [[iface cached]|] eqn:Hfirst.
  - destruct (isValid cached); cbn.
    + by rewrite Hfirst.
    + by rewrite value_assign, (first_holder_assigned _ _ _ _ _ Hfirst).
  - cbn. by rewrite Hfirst.
Qed.

(** C4 (as amended).  A read in [FetchIfNeeded] mode looks for the first
    interface of the snapshot that lists the property.  When there is none
    (the property, or the device, is missing from the cache) it asks
    nobody, changes nothing and returns the invalid value.  When the value
    held is valid it is returned as it is.  When it is the unresolved
    marker, the service is asked once for that interface and property, the
    sanitized answer is stored in that place, valid or not, and returned; a
    later [CachedOnly] read returns the stored value without a call, and so
    does a later [FetchIfNeeded] read when the stored value is valid. *)
Theorem fetch_if_needed_resolves_once bus later udi name m :
  match first_holder name (QMap.value [] udi m) with
  | None =>
      deviceProperty sanitizeValue bus udi name FetchIfNeeded m
      = (invalid, m, [])
  | Some (iface, cached) =>
      if isValid cached then
        deviceProperty sanitizeValue bus udi name FetchIfNeeded m
        = (cached, m, [])
      else
        let value := sanitizeValue (Get bus udi iface name) in
        let stored := assign udi iface name value m in
        deviceProperty sanitizeValue bus udi name FetchIfNeeded m
        = (value, stored, [CallGet udi iface name]) ∧
        first_holder name (QMap.value [] udi stored) = Some (iface, value) ∧
        deviceProperty sanitizeValue later udi name CachedOnly stored
        = (value, stored, []) ∧
        (isValid value = true →
         deviceProperty sanitizeValue later udi name FetchIfNeeded stored
         = (value, stored, []))
  end.
Proof.
  unfold deviceProperty. rewrite loop_fetch.
  destruct (first_holder name (QMap.value [] udi m))
    as [[iface cached]|] eqn:Hfirst; [|done].
  destruct (isValid cached); [done|]. cbn zeta.
  set (value := sanitizeValue (Get bus udi iface name)).
  assert (Hstored : first_holder name
                      (QMap.value [] udi (assign udi iface name value m))
                    = Some (iface, value)).
  { by rewrite value_assign, (first_holder_assigned _ _ _ _ _ Hfirst). }
  rewrite loop_cached, loop_fetch, Hstored.
  repeat split. by intros ->.
Qed.

(** *** Interfaces going away *)

(** Identifiers enter the cache only as device paths. *)

Lemma contains_insert {V : Type} k k' (v : V) (m' : QMap.t V) :
  QMap.contains k' (QMap.insert k v m') = true
  ↔ k = k' ∨ QMap.contains k' m' = true.
Proof.
  rewrite !contains_true, find_insert. case_decide as Hk.
  - split; [by left|by eexists].
  - split; [by right|by intros [?|?]].
Qed.

Lemma contains_remove {V : Type} k k' (m' : QMap.t V) :
  QMap.contains k' (QMap.remove k m') = true → QMap.contains k' m' = true.
Proof.
  rewrite !contains_true, find_remove. case_decide; [by intros [? ?]|done].
Qed.

Lemma well_tracked_insert udi snapshot m :
  well_tracked K m →
  (QMap.contains udi m = true ∨
   udi ≠ "" ∧ startsWith udi (UD2_DBUS_PATH_JOBS K) = false) →
  well_tracked K (QMap.insert udi snapshot m).
Proof.
  intros Hm Hudi udi' Hin. apply contains_insert in Hin as [<-|Hin].
  - destruct Hudi as [Hknown|Hpath]; [by apply Hm|done].
  - by apply Hm.
Qed.

Lemma well_tracked_remove udi m :
  well_tracked K m → well_tracked K (QMap.remove udi m).
Proof. intros Hm udi' Hin. apply Hm. by apply contains_remove in Hin. Qed.

Lemma allDevices_well_tracked bus m :
  device_paths_apart K →
  well_tracked K (allDevices K sanitizeValueMap bus m).2.
Proof.
  intros Hapart. unfold allDevices. cbn.
  assert (Hnil : well_tracked (QVariant := QVariant) K [])
    by (intros udi; done).
  destruct (GetManagedObjects bus) as [items|]; [|done].
  revert Hnil. generalize (@nil (string * QMap.t (QMap.t QVariant))).
  induction items as [|[udi mapMap] rest IH]; intros cache Hcache;
    cbn [fold_left]; [done|].
  apply IH. cbn [fst snd].
  destruct (startsWith udi (UD2_DBUS_PATH_BLOCK_DEVICES K)) eqn:Hblock;
    [|destruct (startsWith udi (UD2_DBUS_PATH_DRIVES K)) eqn:Hdrive];
    cbn [negb andb]; try done.
  - apply well_tracked_insert; [done|]. right. apply Hapart. by left.
  - apply well_tracked_insert; [done|]. right. apply Hapart. by right.
Qed.

Lemma slotInterfacesAdded_well_tracked bus object_path supplied m :
  object_path ≠ "" → well_tracked K m →
  well_tracked K
    (slotInterfacesAdded K sanitizeValueMap bus object_path supplied m).1.1.
Proof.
  intros Hpath Hm. unfold slotInterfacesAdded.
  destruct (startsWith object_path (UD2_DBUS_PATH_JOBS K)) eqn:Hjob; [done|].
  cbn. apply well_tracked_insert; [done|]. by right.
Qed.

Lemma slotInterfacesRemoved_well_tracked object_path interfaces m :
  well_tracked K m →
  well_tracked K (slotInterfacesRemoved K object_path interfaces m).1.
Proof.
  intros Hm. unfold slotInterfacesRemoved.
  destruct (isEmpty object_path); [done|].
  destruct (startsWith object_path (UD2_DBUS_PATH_JOBS K)); [done|].
  destruct (QMap.find object_path m) as [cached|] eqn:Hcached; [|done].
  assert (Hin : QMap.contains object_path m = true).
  { apply contains_true. by eexists. }
  destruct (QMap.isEmpty _); cbn.
  - apply well_tracked_remove, well_tracked_insert; [done|by left].
  - apply well_tracked_insert; [done|by left].
Qed.

Lemma slotPropertiesChanged_well_tracked msg m :
  (∀ udi before optical after,
      mightBeOpticalDisc udi before = (optical, after) →
      well_tracked K before → well_tracked K after) →
  well_tracked K m →
  well_tracked K
    (slotPropertiesChanged K sanitizeValue mightBeOpticalDisc msg m).1.
Proof.
  intros Hdisc Hm. unfold slotPropertiesChanged.
  destruct (isEmpty (path msg)) eqn:Hempty; [done|].
  destruct (startsWith (path msg) (UD2_UDI_DISKS_PREFIX K)); [|done].
  destruct (startsWith (path msg) (UD2_DBUS_PATH_JOBS K)) eqn:Hjob; [done|].
  cbn [negb orb]. apply QtFacts.isEmpty_false in Hempty.
  destruct (arguments msg) as [|arg0 [|arg1 [|arg2 [|]]]]; try done.
  set (recorded := if QMap.contains (path msg) m then _ else _).
  assert (Hrecorded : well_tracked K recorded.1).
  { subst recorded. destruct (QMap.contains (path msg) m) eqn:Hknown; [|done].
    cbn. apply well_tracked_insert; [done|by left]. }
  destruct recorded as [cache1 signals1]. cbn in Hrecorded.
  destruct (_ && _); [|done].
  destruct (_ || _); [|done].
  destruct (mightBeOpticalDisc (path msg) cache1) as [optical cache2] eqn:Hd.
  pose proof (Hdisc _ _ _ _ Hd Hrecorded) as Hcache2.
  destruct optical; [|done].
  destruct (_ && _); cbn [fst].
  - apply well_tracked_insert; [done|by right].
  - destruct (_ && _); cbn [fst]; [by apply well_tracked_remove|done].
Qed.

Lemma deviceProperty_well_tracked bus udi name mode m :
  well_tracked K m →
  well_tracked K (deviceProperty sanitizeValue bus udi name mode m).1.2.
Proof.
  intros Hm. destruct mode; unfold deviceProperty.
  - by rewrite loop_cached.
  - rewrite loop_fetch.
    destruct (first_holder name (QMap.value [] udi m))
      as [[iface cached]|] eqn:Hfirst; [|exact Hm].
    destruct (isValid cached); [exact Hm|]. cbn [fst snd]. unfold assign.
    apply well_tracked_insert; [done|]. left.
    unfold QMap.contains. unfold QMap.value in Hfirst.
    unfold QMap.t in *. by destruct (QMap.find udi m).
Qed.

(** C2.  For every identifier the cache tracks, an [InterfacesRemoved]
    takes the named interfaces out of the snapshot and leaves every other
    interface and every other device alone.  When no interface is left it
    emits [deviceRemoved] once and the device is no longer in the cache;
    when some interface is left it emits [deviceRemoved] and then
    [deviceAdded] for that device and nothing else, and the snapshot holds
    what is left. *)
Theorem interfaces_removed udi names m cached :
  well_tracked K m →
  QMap.find udi m = Some cached →
  let left := fun i =>
    if decide (i ∈ names) then None else QMap.find i cached in
  let outcome := slotInterfacesRemoved K udi names m in
  (∀ udi', udi' ≠ udi → QMap.find udi' outcome.1 = QMap.find udi' m) ∧
  ((∀ i, left i = None) →
   outcome.2 = [deviceRemoved udi] ∧ QMap.find udi outcome.1 = None) ∧
  ((∃ i, is_Some (left i)) →
   outcome.2 = [deviceRemoved udi; deviceAdded udi] ∧
   ∃ snapshot, QMap.find udi outcome.1 = Some snapshot ∧
               ∀ i, QMap.find i snapshot = left i).
Proof.
  intros Htracked Hcached. cbn zeta. unfold slotInterfacesRemoved.
  destruct (Htracked udi) as [Hudi Hjob].
  { apply contains_true. by eexists. }
  apply QtFacts.isEmpty_false in Hudi. rewrite Hudi, Hjob, Hcached.
  set (rest := fold_left _ names cached).
  assert (Hrest : ∀ i, QMap.find i rest
                       = if decide (i ∈ names) then None
                         else QMap.find i cached).
  { intros i. apply find_remove_all. }
  destruct (QMap.isEmpty rest) eqn:Hempty; cbn.
  - pose proof (proj1 (empty_iff_no_entry rest) Hempty) as Hnone.
    split; [|split].
    + intros udi' Hne. rewrite find_remove_ne, find_insert_ne; done.
    + intros _. by rewrite find_remove_eq.
    + intros [i [x Hx]]. rewrite <- Hrest, Hnone in Hx. done.
  - apply nonempty_iff_entry in Hempty as [k [x Hk]].
    split; [|split].
    + intros udi' Hne. by rewrite find_insert_ne.
    + intros Hall. rewrite Hrest, Hall in Hk. done.
    + intros _. split; [done|]. exists rest. by rewrite find_insert_eq.
Qed.

(** *** Interfaces arriving *)

Lemma find_merged i (supplied : QMap.t (QMap.t QVariant)) props :
  QMap.ok supplied →
  QMap.find i (fold_left (merge_interface K sanitizeValueMap) supplied props)
  = match QMap.find i supplied with
    | Some properties =>
        if startsWith i (UD2_DBUS_SERVICE K)
        then Some (sanitizeValueMap properties)
        else QMap.find i props
    | None => QMap.find i props
    end.
Proof.
  unfold QMap.ok. revert props.
  induction supplied as [|[k properties] rest IH]; intros props Hok; cbn;
    [done|].
  apply NoDup_cons in Hok as [Hk Hok]. cbn in Hk. rewrite IH by done.
  destruct (String.eqb i k) eqn:Heq.
  - apply String.eqb_eq in Heq as ->.
    apply find_None_keys in Hk. rewrite Hk.
    unfold merge_interface. cbn [fst snd].
    destruct (startsWith k (UD2_DBUS_SERVICE K)); cbn; [|done].
    by rewrite find_insert_eq.
  - apply String.eqb_neq in Heq.
    assert (Hsame : QMap.find i (merge_interface K sanitizeValueMap props
                                                 (k, properties))
                    = QMap.find i props).
    { unfold merge_interface. cbn [fst snd].
      destruct (startsWith k (UD2_DBUS_SERVICE K)); cbn; [|done].
      by rewrite find_insert_ne. }
    by rewrite Hsame.
Qed.

Lemma find_refetched bus udi i (interfaces : list string) props :
  QMap.find i
    (fold_left (refetch_interface sanitizeValueMap bus udi) interfaces props)
  = match (if bool_decide (i ∈ interfaces) then GetAll bus udi i else None)
    with
    | Some reply => Some (sanitizeValueMap reply)
    | None => QMap.find i props
    end.
Proof.
  revert props. induction interfaces as [|k rest IH]; intros props; cbn.
  - by rewrite bool_decide_eq_false_2 by apply not_elem_of_nil.
  - rewrite IH. unfold refetch_interface.
    destruct (decide (i = k)) as [->|Hne].
    + rewrite (bool_decide_eq_true_2 (k ∈ k :: rest))
        by (apply elem_of_cons; by left).
      destruct (GetAll bus udi k) as [reply|].
      * rewrite find_insert_eq. by case_bool_decide.
      * by case_bool_decide.
    + assert (Hstep : QMap.find i
                (match GetAll bus udi k with
                 | Some reply => QMap.insert k (sanitizeValueMap reply) props
                 | None => props
                 end) = QMap.find i props).
      { destruct (GetAll bus udi k); [by rewrite find_insert_ne|done]. }
      rewrite Hstep.
      assert (Hin : bool_decide (i ∈ k :: rest) = bool_decide (i ∈ rest)).
      { apply bool_decide_ext. rewrite elem_of_cons.
        split; [by intros [?|?]|by right]. }
      by rewrite Hin.
Qed.

(** C3 (as amended).  An [InterfacesAdded] for a job is ignored.  For any
    other path: each supplied interface whose name starts with the name of
    the service replaces the properties cached under that name, and the
    other supplied interfaces are dropped; then every interface the
    snapshot had before, Block apart, is asked for again, and an answer
    that is valid replaces the properties cached under that name as a
    whole, while an interface whose fetch fails keeps what it has;
    other devices are untouched; and [deviceAdded] is emitted exactly when
    the device was not in the cache or Filesystem is among the supplied
    interfaces, also for a device that is already known. *)
Theorem interfaces_added bus udi (supplied : QMap.t (QMap.t QVariant)) m :
  QMap.ok supplied →
  let old := QMap.value [] udi m in
  let outcome := slotInterfacesAdded K sanitizeValueMap bus udi supplied m in
  let snapshot := QMap.value [] udi outcome.1.1 in
  let again := removeOne (UD2_DBUS_INTERFACE_BLOCK K) (QMap.keys old) in
  (startsWith udi (UD2_DBUS_PATH_JOBS K) = true → outcome = (m, [], [])) ∧
  (startsWith udi (UD2_DBUS_PATH_JOBS K) = false →
   outcome.2 = map (CallGetAll udi) again ∧
   (∀ i, i ∈ QMap.keys old → i ≠ UD2_DBUS_INTERFACE_BLOCK K → i ∈ again) ∧
   (QMap.ok old → UD2_DBUS_INTERFACE_BLOCK K ∉ again) ∧
   (∀ i, QMap.find i snapshot
         = match (if bool_decide (i ∈ again) then GetAll bus udi i else None)
           with
           | Some reply => Some (sanitizeValueMap reply)
           | None =>
               match QMap.find i supplied with
               | Some properties =>
                   if startsWith i (UD2_DBUS_SERVICE K)
                   then Some (sanitizeValueMap properties)
                   else QMap.find i old
               | None => QMap.find i old
               end
           end) ∧
   (∀ udi', udi' ≠ udi → QMap.find udi' outcome.1.1 = QMap.find udi' m) ∧
   outcome.1.2
   = if negb (QMap.contains udi m)
        || QMap.contains (UD2_DBUS_INTERFACE_FILESYSTEM K) supplied
     then [deviceAdded udi] else []).
Proof.
  intros Hok. cbn zeta. unfold slotInterfacesAdded.
  split; intros Hjob; rewrite Hjob; [done|]. cbn.
  split; [done|]. split; [|split; [|split; [|split; [|done]]]].
  - intros i Hin Hne. by apply removeOne_keeps.
  - intros Hold. by apply removeOne_drops.
  - intros i. rewrite find_insert_value, decide_True by done.
    by rewrite find_refetched, find_merged.
  - intros udi' Hne. by rewrite find_insert_ne.
Qed.

(** *** Media coming and going *)

(** C5.  A [PropertiesChanged] on the Block interface of a device path
    whose changed properties include [Size]: when the device is not
    tracked, the size is not zero and the device might be an optical disc,
    a snapshot is created for it that holds the changed properties as they
    came and nothing else, and [deviceAdded] is emitted; when the device
    is tracked, the size is zero and the device might be an optical disc,
    [deviceRemoved] is emitted, after the change notification, and the
    device is no longer in the cache. *)
Theorem media_heuristic udi changed invalidated m :
  udi ≠ "" →
  startsWith udi (UD2_UDI_DISKS_PREFIX K) = true →
  startsWith udi (UD2_DBUS_PATH_JOBS K) = false →
  QMap.contains "Size" changed = true →
  let msg :=
    {| path := udi;
       arguments := [ArgString (UD2_DBUS_INTERFACE_BLOCK K);
                     ArgVariantMap changed; ArgStringList invalidated] |} in
  let size := toULongLong (QMap.value invalid "Size" changed) in
  let outcome :=
    slotPropertiesChanged K sanitizeValue mightBeOpticalDisc msg m in
  (QMap.contains udi m = false → size ≠ 0%N →
   ∀ cache, mightBeOpticalDisc udi m = (true, cache) →
     outcome = (QMap.insert udi [(udi, changed)] cache, [deviceAdded udi]) ∧
     QMap.find udi outcome.1 = Some [(udi, changed)]) ∧
  (QMap.contains udi m = true → size = 0%N →
   let recorded :=
     record_changes sanitizeValue udi (UD2_DBUS_INTERFACE_BLOCK K)
                    changed invalidated m in
   ∀ cache, mightBeOpticalDisc udi recorded.1 = (true, cache) →
     outcome = (QMap.remove udi cache, recorded.2 ++ [deviceRemoved udi]) ∧
     QMap.find udi outcome.1 = None).
Proof.
  intros Hudi Hprefix Hjob Hsize. cbn zeta. unfold slotPropertiesChanged.
  cbn [path arguments qdbus_cast_QString qdbus_cast_QVariantMap
       qdbus_cast_QStringList].
  apply QtFacts.isEmpty_false in Hudi. rewrite Hudi, Hprefix, Hjob, Hsize.
  rewrite eqb_true. cbn [negb orb andb].
  split.
  - intros Hnew Hnonzero cache Hoptical. rewrite Hnew. cbn [negb orb andb].
    assert (Hpos : (0 <? toULongLong (QMap.value invalid "Size" changed))%N
                   = true) by (apply N.ltb_lt; lia).
    rewrite Hpos, Hoptical. cbn.
    split; [done|]. by rewrite find_insert_eq.
  - intros Hknown Hzero cache Hoptical. rewrite Hknown, Hzero.
    cbn [negb orb andb N.ltb N.eqb N.compare].
    destruct (record_changes _ _ _ _ _ _) as [cache1 signals1].
    cbn in Hoptical. rewrite Hoptical. cbn.
    split; [done|]. by rewrite find_remove_eq.
Qed.

End Facts.

(** *** The theorems at work on closed instances *)

Lemma fetch_contract_fails_on_missing_property :
  ¬ fetch_contract Sample.keep Sample.answering
                   Sample.sdb1 "IdLabel" Sample.tracking_sdb1.
Proof.
  unfold fetch_contract. cbn. intros H.
  destruct (H I) as [(iface & Hcalls & _) _]. discriminate.
Qed.

Lemma fetch_if_needed_resolves_once_witness :
  isValid (Sample.Text "/media/usb") = true ∧
  let stored :=
    assign Sample.sdb1 Sample.Filesystem "MountPoints"
           (Sample.Text "/media/usb") Sample.tracking_sdb1 in
  deviceProperty Sample.keep Sample.answering Sample.sdb1 "MountPoints"
                 FetchIfNeeded Sample.tracking_sdb1
  = (Sample.Text "/media/usb", stored,
     [CallGet Sample.sdb1 Sample.Filesystem "MountPoints"]) ∧
  deviceProperty Sample.keep Sample.silent Sample.sdb1 "MountPoints"
                 FetchIfNeeded stored
  = (Sample.Text "/media/usb", stored, []).
Proof.
  split; [reflexivity|].
  pose proof (fetch_if_needed_resolves_once
                Sample.keep Sample.answering Sample.silent
                Sample.sdb1 "MountPoints" Sample.tracking_sdb1) as H.
  hnf in H. destruct H as (Hfetch & _ & _ & Hagain).
  split; [exact Hfetch|]. apply Hagain. reflexivity.
Defined.

Lemma prefix_cons a p b s :
  String.prefix (String a p) (String b s) = true →
  a = b ∧ String.prefix p s = true.
Proof. cbn [String.prefix]. by destruct (ascii_dec a b). Qed.

(** The strings of the UDisks2 interface keep devices and jobs apart. *)
Lemma sample_paths_apart : device_paths_apart Sample.constants.
Proof.
  intros udi. unfold startsWith.
  cbn [UD2_DBUS_PATH_BLOCK_DEVICES UD2_DBUS_PATH_DRIVES UD2_DBUS_PATH_JOBS
       Sample.constants].
  intros [Hprefix|Hprefix]; (split; [by intros ->|]).
  all: do 26 (destruct udi as [|? udi]; [discriminate Hprefix|];
              apply prefix_cons in Hprefix as [<- Hprefix]).
  all: reflexivity.
Qed.

Lemma sample_well_tracked : well_tracked Sample.constants Sample.tracking_sdb1.
Proof.
  intros udi Hin. apply contains_true in Hin. cbn in Hin.
  destruct (String.eqb udi Sample.sdb1) eqn:Heq; [|by destruct Hin].
  apply String.eqb_eq in Heq as ->. by split.
Qed.

Lemma interfaces_removed_witness :
  well_tracked Sample.constants Sample.tracking_sdb1 ∧
  QMap.find Sample.sdb1 Sample.tracking_sdb1
  = Some [(Sample.Block, [("Size", Sample.UInt64 4096)]);
          (Sample.Filesystem, [("MountPoints", Sample.Nothing)])] ∧
  (slotInterfacesRemoved Sample.constants Sample.sdb1 [Sample.Filesystem]
                         Sample.tracking_sdb1).2
  = [deviceRemoved Sample.sdb1; deviceAdded Sample.sdb1].
Proof.
  split; [exact sample_well_tracked|]. split; [reflexivity|].
  destruct (interfaces_removed Sample.constants Sample.sdb1
              [Sample.Filesystem] Sample.tracking_sdb1 _
              sample_well_tracked eq_refl) as (_ & _ & Hleft).
  apply Hleft. exists Sample.Block. vm_compute. by eexists.
Defined.

Lemma interfaces_added_contract_fails :
  ¬ interfaces_added_contract Sample.constants Sample.keep_all Sample.silent
      Sample.job1 [(Sample.Job, [])] [] ∧
  ¬ interfaces_added_contract Sample.constants Sample.keep_all Sample.silent
      Sample.sdb1 [(Sample.Properties, []); (Sample.Filesystem, [])] [].
Proof.
  split.
  - unfold interfaces_added_contract. cbn. intros (_ & _ & _ & [_ Hnew]).
    specialize (Hnew (or_introl eq_refl)). discriminate.
  - unfold interfaces_added_contract. cbn. intros (Hmerged & _).
    specialize (Hmerged Sample.Properties eq_refl). discriminate.
Qed.

Lemma interfaces_added_witness :
  QMap.ok [(Sample.Filesystem, [("MountPoints", Sample.Nothing)])] ∧
  startsWith Sample.sdb1 (UD2_DBUS_PATH_JOBS Sample.constants) = false ∧
  (slotInterfacesAdded Sample.constants Sample.keep_all Sample.answering
     Sample.sdb1 [(Sample.Filesystem, [("MountPoints", Sample.Nothing)])]
     Sample.tracking_sdb1).1.2
  = [deviceAdded Sample.sdb1].
Proof.
  assert (Hok : QMap.ok (V := QMap.t Sample.Variant)
                  [(Sample.Filesystem, [("MountPoints", Sample.Nothing)])]).
  { unfold QMap.ok. cbn. apply NoDup_singleton. }
  split; [exact Hok|]. split; [reflexivity|].
  destruct (interfaces_added Sample.constants Sample.keep_all
              Sample.answering Sample.sdb1 _ Sample.tracking_sdb1 Hok)
    as (_ & Hdevice).
  destruct (Hdevice eq_refl) as (_ & _ & _ & _ & _ & Hsignals).
  exact Hsignals.
Defined.

Lemma media_heuristic_witness :
  Sample.sr0 ≠ "" ∧
  startsWith Sample.sr0 (UD2_UDI_DISKS_PREFIX Sample.constants) = true ∧
  startsWith Sample.sr0 (UD2_DBUS_PATH_JOBS Sample.constants) = false ∧
  QMap.contains "Size" [("Size", Sample.UInt64 512)] = true ∧
  slotPropertiesChanged Sample.constants Sample.keep Sample.optical
    {| path := Sample.sr0;
       arguments := [ArgString Sample.Block;
                     ArgVariantMap [("Size", Sample.UInt64 512)];
                     ArgStringList []] |} []
  = ([(Sample.sr0, [(Sample.sr0, [("Size", Sample.UInt64 512)])])],
     [deviceAdded Sample.sr0]).
Proof.
  assert (Hudi : Sample.sr0 ≠ "") by discriminate.
  split; [exact Hudi|]. split; [reflexivity|]. split; [reflexivity|].
  split; [reflexivity|].
  destruct (media_heuristic Sample.constants Sample.keep Sample.optical
              Sample.sr0 [("Size", Sample.UInt64 512)] [] []
              Hudi eq_refl eq_refl eq_refl) as (Hinserted & _).
  assert (Hnonzero : toULongLong
                       (QMap.value invalid "Size"
                                   [("Size", Sample.UInt64 512)]) ≠ 0%N)
    by discriminate.
  destruct (Hinserted eq_refl Hnonzero [] eq_refl) as (Houtcome & _).
  exact Houtcome.
Defined.

End UDisks2Facts.

(** ** The frontend behind the UDisks2 backend *)

Module SystemFacts.
Import Qt.

(** C10.  The removal slot asserts that the handle it finds has a backing
    object.  The system does not keep that promise.  First course: after
    a lookup the backend could not resolve, a resync that makes the
    manager track the device without announcing it, and the late signal
    of the service, which announces nothing for a device the manager
    already tracks, the handle is still without a backing object; the
    removal of the device is then announced for it, the assertion fails
    where it is checked, and where it is not the slot runs on a handle
    that was null already.  Second course: a disc is ejected, which nulls
    the handle of the drive and drops it from the cache; a resync tracks
    the drive again in silence; unplugging the drive announces a removal
    for the handle that is still null. *)
Theorem removal_finds_unresolved_handle :
  (∃ r w,
     Sample.run_sample true Sample.disk_missed Frontend.initial Sample.world0
     = Done (r, w, []) ∧
     Frontend.registered_handle r Sample.sdb 2%positive
       (Frontend.mkDevicePrivate Sample.sdb None) ∧
     QMap.contains Sample.sdb (System.m_cache w) = true ∧
     Sample.run_sample true [Sample.disk_unplugged] r w = AssertionFailed ∧
     ∃ r' w',
       Sample.run_sample false [Sample.disk_unplugged] r w
       = Done (r', w', [Frontend.deviceRemoved Sample.sdb])) ∧
  (∃ r w,
     Sample.run_sample true Sample.disc_ejected Frontend.initial
                       Sample.world_sr0
     = Done (r, w, [Frontend.deviceRemoved Sample.sr0]) ∧
     Frontend.registered_handle r Sample.sr0 2%positive
       (Frontend.mkDevicePrivate Sample.sr0 None) ∧
     QMap.contains Sample.sr0 (System.m_cache w) = true ∧
     Sample.run_sample true [Sample.drive_unplugged] r w = AssertionFailed).
Proof.
  split.
  - eexists _, _. split; [vm_compute; reflexivity|].
    split; [split; vm_compute; reflexivity|].
    split; [vm_compute; reflexivity|].
    split; [vm_compute; reflexivity|].
    eexists _, _. vm_compute. reflexivity.
  - eexists _, _. split; [vm_compute; reflexivity|].
    split; [split; vm_compute; reflexivity|].
    split; vm_compute; reflexivity.
Qed.

End SystemFacts.

(** ** Listing devices *)

Module ListingFacts.
Import Qt QtFacts Frontend FrontendFacts Listing.

Lemma length_terminated_pos separator path :
  (0 < String.length (terminated separator path))%nat.
Proof.
  unfold terminated, endsWith.
  destruct ((_ <=? _)%nat && _) eqn:Hends.
  - apply andb_true_iff in Hends as [Hlen _].
    apply Nat.leb_le in Hlen. cbn in Hlen. lia.
  - clear Hends. induction path as [|c rest IH]; simpl; lia.
Qed.

Section Facts.
Context {W : Type}.
Implicit Types (r : Registry) (w : W) (backends : Backends W).

Lemma extends_refl r : extends r r.
Proof. by split. Qed.

Lemma extends_trans r1 r2 r3 : extends r1 r2 → extends r2 r3 → extends r1 r3.
Proof.
  intros (Hn1 & Hm1 & Ho1) (Hn2 & Hm2 & Ho2). split; [congruence|].
  split; etrans; done.
Qed.

Lemma live_extends r r' device : extends r r' → live r device → live r' device.
Proof.
  intros (_ & _ & Hobjects) (p & -> & [dev Hdev]). exists p. split; [done|].
  exists dev. by eapply lookup_weaken.
Qed.

Lemma handle_of_extends r r' udi p :
  extends r r' → handle_of r udi = Some p → handle_of r' udi = Some p.
Proof.
  intros (Hnull & Hmap & _). unfold handle_of.
  destruct (isEmpty udi); [by rewrite Hnull|]. intros H.
  by eapply lookup_weaken.
Qed.

Lemma handle_of_inj r udi1 udi2 p :
  registry_inv r →
  handle_of r udi1 = Some p → handle_of r udi2 = Some p → udi1 = udi2.
Proof.
  intros [Hreg _ _ _]. unfold handle_of.
  destruct (isEmpty udi1) eqn:H1, (isEmpty udi2) eqn:H2.
  - apply isEmpty_true in H1, H2. congruence.
  - intros [= <-] Hmap. by destruct (Hreg _ _ Hmap) as (_ & ? & _).
  - intros Hmap [= <-]. by destruct (Hreg _ _ Hmap) as (_ & ? & _).
  - intros Hmap1 Hmap2.
    destruct (Hreg _ _ Hmap1) as (_ & _ & _ & dev1 & Hdev1 & <-).
    destruct (Hreg _ _ Hmap2) as (_ & _ & _ & dev2 & Hdev2 & <-).
    congruence.
Qed.

(** One lookup: the registry grows, and the handle returned is the one it
    now holds for the identifier. *)
Lemma find_extends backends udi r w :
  registry_inv r →
  let '(handle, r', w') := findRegisteredDevice backends udi r w in
  registry_inv r' ∧ extends r r' ∧
  handle = handle_of r' udi ∧ live r' handle.
Proof.
  intros Hinv. pose proof (find_inv backends udi r w Hinv) as Hinv'.
  unfold findRegisteredDevice, handle_of in *.
  destruct (isEmpty udi) eqn:Hudi.
  - split; [done|]. split; [apply extends_refl|]. split; [done|].
    exists (m_nullDevice r). split; [done|]. apply Hinv.
  - destruct (m_devicesMap r !! udi) as [qp|] eqn:Hmap.
    + destruct (inv_registered _ Hinv _ _ Hmap) as (_ & _ & _ & dev & Hdev & _).
      unfold QPointer_data. rewrite Hdev.
      split; [done|]. split; [apply extends_refl|]. split; [done|].
      exists qp. split; [done|]. by eexists.
    + destruct (createBackendObject backends udi w) as [iface w'].
      cbn in *. set (devData := fresh (dom (objects r))) in *.
      assert (Hfresh : objects r !! devData = None).
      { apply not_elem_of_dom, is_fresh. }
      split; [done|]. split; [|split].
      * split; [done|]. cbn. split; by apply insert_subseteq.
      * by rewrite lookup_insert_eq.
      * exists devData. split; [done|]. cbn. rewrite lookup_insert_eq.
        by eexists.
Qed.

Lemma devicesOfUdis_extends backends udis r w :
  registry_inv r →
  let '(devices, r', w') := devicesOfUdis backends udis r w in
  registry_inv r' ∧ extends r r' ∧
  devices = map (handle_of r') udis ∧ Forall (live r') devices.
Proof.
  revert r w. induction udis as [|udi rest IH]; intros r w Hinv; cbn.
  - split; [done|]. split; [apply extends_refl|]. split; [done|].
    constructor.
  - unfold Device_of_udi.
    pose proof (find_extends backends udi r w Hinv) as Hfind.
    destruct (findRegisteredDevice backends udi r w) as [[dev r1] w1].
    destruct Hfind as (Hinv1 & Hext1 & Hdev & Hlive).
    specialize (IH r1 w1 Hinv1).
    destruct (devicesOfUdis backends rest r1 w1) as [[list r2] w2].
    destruct IH as (Hinv2 & Hext2 & Hlist & Hlives).
    split; [done|]. split; [by eapply extends_trans|].
    assert (Hkept : handle_of r2 udi = dev).
    { destruct Hlive as (p & -> & _).
      eapply handle_of_extends; [exact Hext2|]. by rewrite <- Hdev. }
    split; [by rewrite Hkept, Hlist|].
    constructor; [by eapply live_extends|done].
Qed.

Lemma distinct_unseen (seen : gset string) udis udi :
  udi ∈ (distinct seen udis) → (udi ∉ seen) ∧ udi ∈ udis.
Proof.
  revert seen. induction udis as [|u rest IH]; intros seen; cbn.
  - intros H. by apply elem_of_nil in H.
  - destruct (decide (u ∈ seen)) as [Hin|Hout].
    + intros H. destruct (IH _ H). split; [done|].
      apply elem_of_cons. by right.
    + intros [->|H]%elem_of_cons.
      * split; [done|]. apply elem_of_cons. by left.
      * destruct (IH _ H) as [Hnot ?]. split.
        -- intros ?. apply Hnot, elem_of_union. by right.
        -- apply elem_of_cons. by right.
Qed.

Lemma distinct_NoDup (seen : gset string) udis : NoDup (distinct seen udis).
Proof.
  revert seen. induction udis as [|u rest IH]; intros seen; cbn.
  - constructor.
  - destruct (decide (u ∈ seen)); [done|]. constructor; [|done].
    intros H. apply distinct_unseen in H as [Hnot _].
    apply Hnot, elem_of_union. left. by apply elem_of_singleton.
Qed.

Lemma handles_NoDup r (udis : list string) :
  registry_inv r → NoDup udis →
  Forall (fun udi => is_Some (handle_of r udi)) udis →
  NoDup (map (handle_of r) udis).
Proof.
  intros Hinv. induction 1 as [|udi rest Hout Hrest IH]; cbn; intros Hsome.
  - constructor.
  - apply Forall_cons in Hsome as [[p Hp] Hsome]. constructor; [|by apply IH].
    intros Hin. apply list_elem_of_In, in_map_iff in Hin as (udi' & Heq & Hin).
    apply list_elem_of_In in Hin. rewrite Hp in Heq.
    by rewrite (handle_of_inj r udi' udi p Hinv Heq Hp) in Hin.
Qed.

End Facts.

Section Queries.
Context {W Predicate : Type}.
Variable isValid : Predicate → bool.
Variable usedTypes : Predicate → gset DeviceInterfaceType.
Variable matches : Predicate → Device → Registry → W → bool * W.
Implicit Types (r : Registry) (w : W) (backends : Backends W).

Lemma matchingDevices_extends backends predicate udis seen r w :
  registry_inv r →
  let '(devices, r', w') :=
    matchingDevices isValid matches backends predicate udis seen r w in
  registry_inv r' ∧ extends r r' ∧ Forall (live r') devices ∧
  ∃ kept, sublist kept (distinct seen udis) ∧
          devices = map (handle_of r') kept ∧
          Forall (fun udi => is_Some (handle_of r' udi)) kept ∧
          (isValid predicate = false → kept = distinct seen udis).
Proof.
  revert seen r w. induction udis as [|udi rest IH]; intros seen r w Hinv.
  - cbn. split; [done|]. split; [apply extends_refl|]. split; [constructor|].
    exists []. by repeat split.
  - cbn [matchingDevices distinct].
    destruct (decide (udi ∈ seen)) as [Hseen|Hnew]; [by apply IH|].
    unfold Device_of_udi.
    pose proof (find_extends backends udi r w Hinv) as Hfind.
    destruct (findRegisteredDevice backends udi r w) as [[dev r1] w1].
    destruct Hfind as (Hinv1 & Hext1 & Hdev & Hlive).
    set (verdict := if negb (isValid predicate) then _ else _).
    assert (Hall : isValid predicate = false → verdict.1 = true).
    { subst verdict. by intros ->. }
    destruct verdict as [matched w2]. cbn in Hall.
    specialize (IH ({[udi]} ∪ seen) r1 w2 Hinv1).
    destruct (matchingDevices _ _ _ _ rest _ r1 w2) as [[list r3] w3].
    destruct IH as (Hinv3 & Hext3 & Hlives & kept & Hsub & Hlist & Hsome & Heq).
    split; [done|]. split; [by eapply extends_trans|].
    assert (Hkept : handle_of r3 udi = dev).
    { destruct Hlive as (p & -> & _).
      eapply handle_of_extends; [exact Hext3|]. by rewrite <- Hdev. }
    destruct matched.
    + split; [constructor; [by eapply live_extends|done]|].
      exists (udi :: kept). split; [by apply sublist_skip|].
      split; [cbn; by rewrite Hkept, Hlist|]. split.
      * constructor; [|done]. rewrite Hkept. by destruct Hlive as (p & -> & _).
      * intros Hinvalid. by rewrite Heq.
    + split; [done|]. exists kept. split; [by apply sublist_cons|].
      split; [done|]. split; [done|]. intros Hinvalid.
      by specialize (Hall Hinvalid).
Qed.

Lemma allDevices_extends backends todo r w :
  registry_inv r →
  let '(devices, r', w') := allDevices_backends backends todo r w in
  registry_inv r' ∧ extends r r' ∧ Forall (live r') devices.
Proof.
  revert r w. induction todo as [|[backend|] rest IH]; intros r w Hinv; cbn.
  - split; [done|]. split; [apply extends_refl|constructor].
  - destruct (allDevices backend w) as [udis w1].
    pose proof (devicesOfUdis_extends backends udis r w1 Hinv) as Hhere.
    destruct (devicesOfUdis backends udis r w1) as [[here r2] w2].
    destruct Hhere as (Hinv2 & Hext2 & _ & Hlive2).
    specialize (IH r2 w2 Hinv2).
    destruct (allDevices_backends backends rest r2 w2) as [[there r3] w3].
    destruct IH as (Hinv3 & Hext3 & Hlive3).
    split; [done|]. split; [by eapply extends_trans|].
    apply Forall_app. split; [|done].
    eapply Forall_impl; [exact Hlive2|]. intros d. by apply live_extends.
  - by apply IH.
Qed.

Lemma listFromType_extends backends todo type parentUdi r w :
  registry_inv r →
  let '(devices, r', w') :=
    listFromType_backends backends todo type parentUdi r w in
  registry_inv r' ∧ extends r r' ∧ Forall (live r') devices.
Proof.
  revert r w. induction todo as [|[backend|] rest IH]; intros r w Hinv; cbn.
  - split; [done|]. split; [apply extends_refl|constructor].
  - destruct (negb _); [by apply IH|].
    destruct (devicesFromQuery backend parentUdi type w) as [udis w1].
    pose proof (devicesOfUdis_extends backends udis r w1 Hinv) as Hhere.
    destruct (devicesOfUdis backends udis r w1) as [[here r2] w2].
    destruct Hhere as (Hinv2 & Hext2 & _ & Hlive2).
    specialize (IH r2 w2 Hinv2).
    destruct (listFromType_backends backends rest type parentUdi r2 w2)
      as [[there r3] w3].
    destruct IH as (Hinv3 & Hext3 & Hlive3).
    split; [done|]. split; [by eapply extends_trans|].
    apply Forall_app. split; [|done].
    eapply Forall_impl; [exact Hlive2|]. intros d. by apply live_extends.
  - by apply IH.
Qed.

Lemma listFromQuery_extends backends todo predicate parentUdi r w :
  registry_inv r →
  let '(devices, r', w') :=
    listFromQuery_backends isValid usedTypes matches backends todo
                           predicate parentUdi r w in
  registry_inv r' ∧ extends r r' ∧ Forall (live r') devices.
Proof.
  revert r w. induction todo as [|[backend|] rest IH]; intros r w Hinv;
    cbn [listFromQuery_backends].
  - split; [done|]. split; [apply extends_refl|constructor].
  - destruct (isValid predicate && _); [by apply IH|].
    set (found := if isValid predicate then _ else _).
    destruct found as [udis w1].
    pose proof (matchingDevices_extends backends predicate udis ∅ r w1 Hinv)
      as Hhere.
    destruct (matchingDevices isValid matches backends predicate udis ∅ r w1)
      as [[here r2] w2].
    destruct Hhere as (Hinv2 & Hext2 & Hlive2 & _).
    specialize (IH r2 w2 Hinv2).
    destruct (listFromQuery_backends _ _ _ backends rest predicate parentUdi
                                     r2 w2) as [[there r3] w3].
    destruct IH as (Hinv3 & Hext3 & Hlive3).
    split; [done|]. split; [by eapply extends_trans|].
    apply Forall_app. split; [|done].
    eapply Forall_impl; [exact Hlive2|]. intros d. by apply live_extends.
  - by apply IH.
Qed.

(** X1.  Listing devices only ever adds to the registry.
    [Device::allDevices], [Device::listFromType] and [Device::listFromQuery]
    leave the registry consistent, keep every registration and every handle
    in the state it was in (no backing object is touched), and return only
    live handles, never a null pointer. *)
Theorem listing_only_adds backends predicate type parentUdi r w :
  registry_inv r →
  (let '(devices, r', w') := Device_allDevices backends r w in
   registry_inv r' ∧ extends r r' ∧ Forall (live r') devices) ∧
  (let '(devices, r', w') := listFromType backends type parentUdi r w in
   registry_inv r' ∧ extends r r' ∧ Forall (live r') devices) ∧
  (let '(devices, r', w') :=
     listFromQuery isValid usedTypes matches backends predicate parentUdi
                   r w in
   registry_inv r' ∧ extends r r' ∧ Forall (live r') devices).
Proof.
  intros Hinv. split; [|split].
  - by apply allDevices_extends.
  - by apply listFromType_extends.
  - by apply listFromQuery_extends.
Qed.

(** X2.  What one backend contributes to [listFromQuery] holds no device
    twice, however often the backend reports an identifier: each device
    returned is the handle of an identifier reported, first occurrences
    only.  With a predicate that is not valid nothing is filtered: the
    contribution is the handle of every distinct identifier reported, in the
    order reported. *)
Theorem query_contribution_has_no_duplicates backends predicate udis r w :
  registry_inv r →
  let '(devices, r', w') :=
    matchingDevices isValid matches backends predicate udis ∅ r w in
  NoDup devices ∧
  (∀ device, device ∈ devices →
             ∃ udi, udi ∈ udis ∧ device = handle_of r' udi) ∧
  (isValid predicate = false →
   devices = map (handle_of r') (distinct ∅ udis)).
Proof.
  intros Hinv.
  pose proof (matchingDevices_extends backends predicate udis ∅ r w Hinv)
    as Hspec.
  destruct (matchingDevices isValid matches backends predicate udis ∅ r w)
    as [[devices r'] w'].
  destruct Hspec as (Hinv' & _ & _ & kept & Hsub & -> & Hsome & Hall).
  split; [|split].
  - apply handles_NoDup; [done| |done].
    eapply sublist_NoDup; [apply distinct_NoDup|exact Hsub].
  - intros device Hin.
    apply list_elem_of_In, in_map_iff in Hin as (udi & <- & Hin).
    exists udi. split; [|done].
    apply list_elem_of_In in Hin.
    pose proof (elem_of_sublist _ _ _ Hin Hsub) as Hreported.
    by apply distinct_unseen in Hreported as [_ ?].
  - intros Hinvalid. by rewrite (Hall Hinvalid).
Qed.

Lemma listFromType_visits backends todo type parentUdi r w :
  listFromType_backends backends todo type parentUdi r w
  = visits (typed_visit backends type parentUdi) (supporting type todo) r w.
Proof.
  revert r w. induction todo as [|[backend|] rest IH]; intros r w;
    cbn [listFromType_backends supporting]; [done| |by apply IH].
  destruct (bool_decide (type ∈ supportedInterfaces backend));
    cbn [negb]; [|by apply IH].
  cbn [visits]. unfold typed_visit at 1.
  destruct (devicesFromQuery backend parentUdi type w) as [udis w1].
  destruct (devicesOfUdis backends udis r w1) as [[here r2] w2].
  by rewrite IH.
Qed.

Lemma listFromQuery_visits backends todo predicate parentUdi r w :
  isValid predicate = true →
  listFromQuery_backends isValid usedTypes matches backends todo predicate
                         parentUdi r w
  = visits (matching_visit isValid usedTypes matches backends predicate
                           parentUdi)
           (sharing usedTypes predicate todo) r w.
Proof.
  intros Hvalid. revert r w.
  induction todo as [|[backend|] rest IH]; intros r w;
    cbn [listFromQuery_backends sharing]; [done| |by apply IH].
  cbv zeta. rewrite Hvalid. cbn [andb].
  destruct (bool_decide (supportedInterfaces backend ∩ usedTypes predicate
                         = ∅)); [by apply IH|].
  cbn [visits]. unfold matching_visit at 1.
  destruct (devicesOfTypes backend parentUdi _ w) as [udis w1].
  destruct (matchingDevices isValid matches backends predicate udis ∅ r w1)
    as [[here r2] w2].
  by rewrite IH.
Qed.

(** X3.  A backend that cannot have what is asked is not asked.
    [listFromType] visits the device managers that support the type, and
    no other backend, in the order of the list of backends, and answers
    with what they contribute, one after the other; with a valid
    predicate [listFromQuery] does so with the device managers whose
    supported interfaces share a type with those the predicate uses.
    When no backend qualifies, the answer is empty and neither a backend
    nor the registry is touched. *)
Theorem unsupported_backends_are_skipped backends predicate type parentUdi
        r w :
  listFromType backends type parentUdi r w
  = visits (typed_visit backends type parentUdi) (supporting type backends)
           r w ∧
  (isValid predicate = true →
   listFromQuery isValid usedTypes matches backends predicate parentUdi r w
   = visits (matching_visit isValid usedTypes matches backends predicate
                            parentUdi)
            (sharing usedTypes predicate backends) r w) ∧
  (isValid predicate = true →
   (∀ backend, Some backend ∈ backends →
               supportedInterfaces backend ∩ usedTypes predicate = ∅) →
   listFromQuery isValid usedTypes matches backends predicate parentUdi r w
   = ([], r, w)) ∧
  ((∀ backend, Some backend ∈ backends →
               type ∉ supportedInterfaces backend) →
   listFromType backends type parentUdi r w = ([], r, w)).
Proof.
  split; [apply listFromType_visits|].
  split; [apply listFromQuery_visits|].
  split.
  - intros Hvalid. unfold listFromQuery. generalize backends at 1 3.
    intros todo. induction todo as [|[backend|] rest IH]; intros Hnone;
      cbn [listFromQuery_backends]; [done| |].
    + rewrite Hvalid, bool_decide_eq_true_2.
      * apply IH. intros b Hb. apply Hnone, elem_of_cons. by right.
      * apply Hnone, elem_of_cons. by left.
    + apply IH. intros b Hb. apply Hnone, elem_of_cons. by right.
  - unfold listFromType. generalize backends at 1 3.
    intros todo. induction todo as [|[backend|] rest IH]; intros Hnone;
      cbn [listFromType_backends]; [done| |].
    + rewrite bool_decide_eq_false_2.
      * apply IH. intros b Hb. apply Hnone, elem_of_cons. by right.
      * apply Hnone, elem_of_cons. by left.
    + apply IH. intros b Hb. apply Hnone, elem_of_cons. by right.
Qed.





End Queries.

Section Strings.
Context {W Predicate : Type}.
Variable fromString : string → Predicate.
Variable isValid : Predicate → bool.
Variable usedTypes : Predicate → gset DeviceInterfaceType.
Variable matches : Predicate → Device → Registry → W → bool * W.
Implicit Types (r : Registry) (w : W) (backends : Backends W).


End Strings.

Section Storage.
Context {W : Type}.
Variable file_exists : string → bool.
Variable separator : ascii.
Variable StorageAccess : DeviceInterfaceType.
Variable filePath : Device → Registry → W → option string.
Implicit Types (r : Registry) (w : W) (backends : Backends W).

Local Abbreviation above := (mounted_above separator filePath).
Local Abbreviation reach := (mount_length separator filePath).

(** The loop keeps the best match so far: either nothing in the list beats
    the match it started from, or the result is the device of the list
    with the longest mount path above [path]. *)
Lemma longest_mount_best path list matched match_length r w :
  (∀ device, device ∈ list → is_Some (filePath device r w)) →
  ∃ best,
    longest_mount separator filePath path list matched match_length r w
    = Some best ∧
    ((best = matched ∧
      ∀ device, device ∈ list → above path device r w →
                (reach device r w ≤ match_length)%nat) ∨
     (best ∈ list ∧ above path best r w ∧ (match_length < reach best r w)%nat ∧
      ∀ device, device ∈ list → above path device r w →
                (reach device r w ≤ reach best r w)%nat)).
Proof.
  revert matched match_length.
  induction list as [|device rest IH]; intros matched match_length Hall;
    cbn [longest_mount].
  - exists matched. split; [done|]. left. split; [done|].
    intros device Hin. by apply elem_of_nil in Hin.
  - destruct (Hall device) as [file_path Hpath]; [apply elem_of_cons; by left|].
    rewrite Hpath.
    assert (Hrest : ∀ d, d ∈ rest → is_Some (filePath d r w)).
    { intros d Hd. apply Hall, elem_of_cons. by right. }
    assert (Hreach : reach device r w
                     = String.length (terminated separator file_path)).
    { unfold mount_length. by rewrite Hpath. }
    destruct (startsWith path (terminated separator file_path)) eqn:Hstarts;
      [destruct (match_length <? _)%nat eqn:Hlonger|]; cbn [andb].
    + apply Nat.ltb_lt in Hlonger.
      assert (Habove : above path device r w) by by exists file_path.
      destruct (IH device (String.length (terminated separator file_path))
                   Hrest) as (best & -> & [[-> Hmax]|(Hin & Hab & Hlt & Hmax)]).
      * exists device. split; [done|]. right.
        split; [apply elem_of_cons; by left|]. split; [done|].
        split; [lia|]. intros d [->|Hd]%elem_of_cons Hd'; [done|].
        rewrite Hreach. by apply Hmax.
      * exists best. split; [done|]. right.
        split; [apply elem_of_cons; by right|]. split; [done|].
        split; [lia|]. intros d [->|Hd]%elem_of_cons Hd'; [lia|].
        by apply Hmax.
    + apply Nat.ltb_ge in Hlonger.
      destruct (IH matched match_length Hrest)
        as (best & -> & [[-> Hmax]|(Hin & Hab & Hlt & Hmax)]).
      * exists matched. split; [done|]. left. split; [done|].
        intros d [->|Hd]%elem_of_cons Hd'; [lia|]. by apply Hmax.
      * exists best. split; [done|]. right.
        split; [apply elem_of_cons; by right|]. split; [done|].
        split; [done|]. intros d [->|Hd]%elem_of_cons Hd'; [lia|].
        by apply Hmax.
    + destruct (IH matched match_length Hrest)
        as (best & -> & [[-> Hmax]|(Hin & Hab & Hlt & Hmax)]).
      * exists matched. split; [done|]. left. split; [done|].
        intros d [->|Hd]%elem_of_cons Hd'; [|by apply Hmax].
        destruct Hd' as (fp & Hfp & Hst). congruence.
      * exists best. split; [done|]. right.
        split; [apply elem_of_cons; by right|]. split; [done|].
        split; [done|]. intros d [->|Hd]%elem_of_cons Hd'; [|by apply Hmax].
        destruct Hd' as (fp & Hfp & Hst). congruence.
Qed.

Lemma above_reaches path device r w :
  above path device r w → (0 < reach device r w)%nat.
Proof.
  intros (file_path & Hpath & _). unfold mount_length. rewrite Hpath.
  apply length_terminated_pos.
Qed.

(** X4.  [storageAccessFromPath] answers with the storage device whose mount
    path is the longest one above the path asked for, both taken with the
    separator at their end; when no mount path lies above it, it answers
    with the invalid device.  Nothing but the listing of the storage devices
    touches the registry. *)
Theorem storage_access_is_longest_mount backends path r w :
  file_exists path = true →
  let '(list, r1, w1) := listFromType backends StorageAccess "" r w in
  (∀ device, device ∈ list → is_Some (filePath device r1 w1)) →
  ∃ best,
    storageAccessFromPath file_exists separator StorageAccess filePath
                          backends path r w
    = (Some best, r1, w1) ∧
    ((∀ device, device ∈ list →
                ¬ above (terminated separator path) device r1 w1) →
     best = Some (m_nullDevice r1)) ∧
    ((∃ device, device ∈ list ∧
                above (terminated separator path) device r1 w1) →
     best ∈ list ∧ above (terminated separator path) best r1 w1 ∧
     ∀ device, device ∈ list →
               above (terminated separator path) device r1 w1 →
               (reach device r1 w1 ≤ reach best r1 w1)%nat).
Proof.
  intros Hexists. unfold storageAccessFromPath. rewrite Hexists. cbn [negb].
  destruct (listFromType backends StorageAccess "" r w) as [[list r1] w1].
  intros Hall. cbn.
  destruct (longest_mount_best (terminated separator path) list
              (Some (m_nullDevice r1)) 0 r1 w1 Hall)
    as (best & -> & Hbest).
  exists best. split; [done|]. split.
  - intros Hnone. destruct Hbest as [[-> _]|(Hin & Hab & _)]; [done|].
    by destruct (Hnone best Hin).
  - intros (device & Hin & Hab).
    destruct Hbest as [[_ Hmax]|(Hbin & Hbab & _ & Hmax)]; [|done].
    pose proof (Hmax device Hin Hab). pose proof (above_reaches _ _ _ _ Hab).
    lia.
Qed.

(** A path that does not exist is answered with the invalid device at
    once: no backend is asked and the registry stays as it is. *)
Lemma storage_access_of_missing_path backends path r w :
  file_exists path = false →
  storageAccessFromPath file_exists separator StorageAccess filePath
                        backends path r w
  = (Some (Some (m_nullDevice r)), r, w).
Proof. intros Hmissing. unfold storageAccessFromPath. by rewrite Hmissing. Qed.

(** X5.  A storage device without a mount path counts as mounted at the
    separator alone: as soon as one is listed, every existing path that
    starts with the separator is answered with a listed device, never with
    the invalid one. *)
Theorem unmounted_storage_catches_every_path backends path r w :
  file_exists path = true →
  startsWith path (String separator "") = true →
  let '(list, r1, w1) := listFromType backends StorageAccess "" r w in
  (∀ device, device ∈ list → is_Some (filePath device r1 w1)) →
  (∃ device, device ∈ list ∧ filePath device r1 w1 = Some "") →
  ∃ best,
    storageAccessFromPath file_exists separator StorageAccess filePath
                          backends path r w
    = (Some best, r1, w1) ∧ best ∈ list.
Proof.
  intros Hexists Hroot. unfold storageAccessFromPath.
  rewrite Hexists. cbn [negb].
  destruct (listFromType backends StorageAccess "" r w) as [[list r1] w1].
  intros Hall (device & Hin & Hempty). cbn.
  destruct (longest_mount_best (terminated separator path) list
              (Some (m_nullDevice r1)) 0 r1 w1 Hall)
    as (best & -> & Hbest).
  exists best. split; [done|].
  assert (Hab : above (terminated separator path) device r1 w1).
  { exists "". split; [done|].
    unfold terminated at 2. cbn.
    unfold terminated. destruct (endsWith path _); [done|].
    unfold startsWith in *. destruct path as [|c rest]; [done|].
    simpl in *. destruct (ascii_dec separator c); [|done].
    by destruct (rest ++ String separator "")%string. }
  destruct Hbest as [[_ Hmax]|(Hbin & _)]; [|done].
  pose proof (Hmax device Hin Hab). pose proof (above_reaches _ _ _ _ Hab).
  lia.
Qed.

End Storage.

(** *** The theorems at work on closed instances *)

Lemma listing_only_adds_witness :
  registry_inv initial ∧
  Forall (live (Device_allDevices Sample.somebody initial tt).1.2)
         (Device_allDevices Sample.somebody initial tt).1.1.
Proof.
  split; [exact initial_inv|].
  destruct (listing_only_adds Sample.parsed Cases.no_types Cases.no_match
              Sample.somebody None Cases.StorageAccess "" initial tt
              initial_inv) as [Hall _].
  destruct (Device_allDevices Sample.somebody initial tt) as [[devices r'] w'].
  by destruct Hall as (_ & _ & Hlive).
Defined.

Lemma query_contribution_has_no_duplicates_witness :
  registry_inv initial ∧
  NoDup (matchingDevices Sample.parsed Cases.no_match Sample.somebody None
                         [Sample.sr0; Sample.sr0] ∅ initial tt).1.1.
Proof.
  split; [exact initial_inv|].
  pose proof (query_contribution_has_no_duplicates
                Sample.parsed Cases.no_match Sample.somebody None
                [Sample.sr0; Sample.sr0] initial tt initial_inv) as Hquery.
  destruct (matchingDevices Sample.parsed Cases.no_match Sample.somebody None
                            [Sample.sr0; Sample.sr0] ∅ initial tt)
    as [[devices r'] w'].
  by destruct Hquery as [Hnodup _].
Defined.

Lemma storage_access_is_longest_mount_witness :
  ∃ best,
    storageAccessFromPath (fun _ => true) "/"%char Cases.StorageAccess
                          Cases.mounted Cases.storage "/media/usb/a.jpg"
                          initial tt
    = (Some best,
       (listFromType Cases.storage Cases.StorageAccess "" initial tt).1.2,
       tt) ∧
    Cases.mounted best initial tt = Some "/media/usb".
Proof.
  pose proof (storage_access_is_longest_mount
                (fun _ => true) "/"%char Cases.StorageAccess Cases.mounted
                Cases.storage "/media/usb/a.jpg" initial tt eq_refl)
    as Hlongest.
  destruct (listFromType Cases.storage Cases.StorageAccess "" initial tt)
    as [[list r1] w1] eqn:Hlist.
  assert (Hpaths : ∀ device, device ∈ list →
                             is_Some (Cases.mounted device r1 w1)).
  { intros device _. unfold Cases.mounted. repeat case_match; by eexists. }
  destruct (Hlongest Hpaths) as (best & Hbest & _ & Habove).
  exists best. destruct w1. split; [exact Hbest|].
  assert (Hlisted : list = [Some 2%positive; Some 3%positive]).
  { vm_compute in Hlist. by injection Hlist as <- _. }
  assert (Hfirst : Some 2%positive ∈ list).
  { rewrite Hlisted. apply list_elem_of_here. }
  assert (Hmounted : mounted_above "/"%char Cases.mounted
                       (terminated "/"%char "/media/usb/a.jpg")
                       (Some 2%positive) r1 tt).
  { exists "/media/usb". by split. }
  destruct (Habove (ex_intro _ _ (conj Hfirst Hmounted))) as (_ & _ & Hmost).
  specialize (Hmost _ Hfirst Hmounted).
  unfold mount_length, Cases.mounted in *.
  repeat case_match; simplify_eq; try done; vm_compute in Hmost; lia.
Defined.

Lemma unmounted_storage_catches_every_path_witness :
  ∃ best,
    (storageAccessFromPath (fun _ => true) "/"%char Cases.StorageAccess
                           Cases.unmounted Cases.storage "/home"
                           initial tt).1.1
    = Some best ∧
    best ∈ (listFromType Cases.storage Cases.StorageAccess "" initial tt).1.1.
Proof.
  pose proof (unmounted_storage_catches_every_path
                (fun _ => true) "/"%char Cases.StorageAccess Cases.unmounted
                Cases.storage "/home" initial tt eq_refl eq_refl) as Hcatch.
  destruct (listFromType Cases.storage Cases.StorageAccess "" initial tt)
    as [[list r1] w1] eqn:Hlist.
  assert (Hlisted : list = [Some 2%positive; Some 3%positive]).
  { vm_compute in Hlist. by injection Hlist as <- _. }
  destruct Hcatch as (best & Hbest & Hin).
  - intros device _. by eexists.
  - exists (Some 2%positive). split; [|done].
    rewrite Hlisted. apply list_elem_of_here.
  - exists best. by rewrite Hbest.
Defined.

Lemma unsupported_backends_are_skipped_witness :
  listFromType Sample.somebody Cases.StorageAccess "" initial tt
  = ([], initial, tt) ∧
  listFromType Cases.mixed Cases.StorageAccess "" initial tt
  = visits (typed_visit Cases.mixed Cases.StorageAccess "")
           [Cases.typed_backend "/org/freedesktop/UDisks2"
                                {[ Cases.StorageAccess ]}
                                [Sample.sdb1; Sample.sr0]]
           initial tt.
Proof.
  split.
  - destruct (unsupported_backends_are_skipped
                Sample.parsed Cases.no_types Cases.no_match Sample.somebody
                None Cases.StorageAccess "" initial tt)
      as (_ & _ & _ & Htype).
    apply Htype. intros backend Hin.
    apply list_elem_of_singleton in Hin. injection Hin as ->.
    apply not_elem_of_empty.
  - destruct (unsupported_backends_are_skipped
                Sample.parsed Cases.no_types Cases.no_match Cases.mixed
                None Cases.StorageAccess "" initial tt)
      as (Hvisits & _).
    exact Hvisits.
Defined.



End ListingFacts.

(** ** Handles over time *)

Module HandleFacts.
Import Qt QtFacts Frontend FrontendFacts.

Section Facts.
Context {W : Type}.
Implicit Types (r : Registry) (w : W) (backends : Backends W).

(** X6.  Resolution goes to the first backend whose prefix starts the
    identifier and to no other: when no backend has such a prefix the result
    is null and nobody is asked, and otherwise the answer of the first such
    backend stands, also when it is null and a later backend has a matching
    prefix too. *)
Theorem resolution_asks_first_match_only before backend after udi w :
  (∀ b, Some b ∈ before → startsWith udi (udiPrefix b) = false) →
  createBackendObject before udi w = (None, w) ∧
  (startsWith udi (udiPrefix backend) = true →
   createBackendObject (before ++ Some backend :: after) udi w
   = (qobject_cast_Device (createDevice backend udi w).1,
      (createDevice backend udi w).2)).
Proof.
  induction before as [|[b|] rest IH]; intros Hnone.
  - split; [done|]. intros Hmatch. cbn. rewrite Hmatch. cbn.
    by destruct (createDevice backend udi w).
  - assert (Hb : startsWith udi (udiPrefix b) = false).
    { apply Hnone, elem_of_cons. by left. }
    cbn. rewrite Hb. cbn. apply IH.
    intros b' Hb'. apply Hnone, elem_of_cons. by right.
  - cbn. apply IH. intros b' Hb'. apply Hnone, elem_of_cons. by right.
Qed.

(** X7.  A handle outlives the removal of its device.  When a device with a
    valid handle is reported removed and later added again, the slots
    complete in either build, the same handle object is registered
    throughout, and it ends up bound to the backing object the backends
    create at the time of the add; no other handle is touched. *)
Theorem handle_survives_removal_and_return checked backends udi r w p dev d :
  registered_handle r udi p dev →
  is_Some (backendObject dev) →
  (createBackendObject backends udi w).1 = Some d →
  ∃ r1 r2,
    _k_deviceRemoved checked udi r = Done (r1, [deviceRemoved udi]) ∧
    registered_handle r1 udi p (mkDevicePrivate (m_udi dev) None) ∧
    _k_deviceAdded checked backends udi r1 w
    = Done (r2, (createBackendObject backends udi w).2, [deviceAdded udi]) ∧
    registered_handle r2 udi p (mkDevicePrivate (m_udi dev) (Some d)) ∧
    m_devicesMap r2 = m_devicesMap r ∧
    ∀ q, q ≠ p → objects r2 !! q = objects r !! q.
Proof.
  intros [Hmap Hdev] Hvalid Hcreate.
  exists (store_backend p None r),
         (store_backend p (Some d) (store_backend p None r)).
  assert (Hdev1 : objects (store_backend p None r) !! p
                  = Some (mkDevicePrivate (m_udi dev) None)).
  { by apply store_backend_lookup. }
  assert (Hdev2 : objects (store_backend p (Some d) (store_backend p None r))
                    !! p
                  = Some (mkDevicePrivate (m_udi dev) (Some d))).
  { by rewrite (store_backend_lookup _ _ _ _ Hdev1). }
  split; [|split; [done|split; [|split; [done|split; [done|]]]]].
  - unfold _k_deviceRemoved. rewrite Hmap, Hdev.
    assert (Hafter : objects (store_backend p None r) !! p ≫= backendObject
                     = None) by by rewrite Hdev1.
    rewrite (bool_decide_eq_true_2 _ Hafter).
    rewrite (bool_decide_eq_true_2 _ Hvalid).
    by rewrite !Q_ASSERT_holds.
  - unfold _k_deviceAdded. cbn [m_devicesMap store_backend].
    rewrite Hmap, Hdev1. cbn [backendObject m_backendObject].
    destruct (createBackendObject backends udi w) as [iface w'].
    cbn in Hcreate. subst iface.
    assert (Hafter : is_Some (objects (store_backend p (Some d)
                                         (store_backend p None r)) !! p
                              ≫= backendObject)) by by rewrite Hdev2.
    rewrite (bool_decide_eq_true_2 _ Hafter). by rewrite Q_ASSERT_holds.
  - intros q Hq. cbn. by rewrite !lookup_alter_ne.
Qed.

(** X8.  A destroyed handle is forgotten.  Once the handle registered for an
    identifier is deleted, the registry is consistent again without it: the
    identifier is unregistered, the reverse map and the object store no
    longer know the object, and every other registration and handle is as
    before; the next lookup of the identifier makes a new handle, bound to
    what the backends create then.  A [destroyed] signal for an object the
    reverse map does not know changes nothing. *)
Theorem destroyed_handle_is_forgotten backends r w udi p dev object :
  registry_inv r →
  registered_handle r udi p dev →
  let r' := delete_device p r in
  registry_inv r' ∧
  m_devicesMap r' !! udi = None ∧
  m_reverseMap r' !! p = None ∧
  objects r' !! p = None ∧
  (∀ udi', udi' ≠ udi → m_devicesMap r' !! udi' = m_devicesMap r !! udi') ∧
  (∀ q, q ≠ p → objects r' !! q = objects r !! q) ∧
  (∃ p', (findRegisteredDevice backends udi r' w).1.1 = Some p' ∧
         objects (findRegisteredDevice backends udi r' w).1.2 !! p'
         = Some (mkDevicePrivate udi (createBackendObject backends udi w).1)) ∧
  (m_reverseMap r !! object = None → _k_destroyed object r = r).
Proof.
  intros Hinv [Hmap Hdev]. cbn zeta.
  destruct (inv_registered _ Hinv _ _ Hmap) as (Hudi & Hnull & Hrev & _).
  split; [by apply delete_inv|].
  assert (Hgone : m_devicesMap (delete_device p r) !! udi = None).
  { unfold delete_device, _k_destroyed. cbn -[isEmpty]. rewrite Hrev.
    cbn -[isEmpty]. apply isEmpty_false in Hudi as ->.
    apply lookup_delete_eq. }
  split; [exact Hgone|]. split; [apply lookup_delete_eq|].
  split; [apply lookup_delete_eq|]. split; [|split; [|split]].
  - intros udi' Hne. unfold delete_device, _k_destroyed. cbn -[isEmpty].
    rewrite Hrev. cbn -[isEmpty]. apply isEmpty_false in Hudi as ->.
    by apply lookup_delete_ne.
  - intros q Hne. cbn. by apply lookup_delete_ne.
  - unfold findRegisteredDevice. apply isEmpty_false in Hudi as ->.
    rewrite Hgone.
    destruct (createBackendObject backends udi w) as [iface w'].
    eexists. split; [done|]. cbn. by rewrite lookup_insert_eq.
  - intros Hunknown. unfold _k_destroyed. rewrite Hunknown. cbn.
    rewrite delete_id by done. by destruct r.
Qed.

End Facts.

(** *** The theorems at work on closed instances *)

Lemma resolution_asks_first_match_only_witness :
  createBackendObject [Some Cases.elsewhere] Sample.sr0 tt = (None, tt) ∧
  createBackendObject (Some Cases.elsewhere :: Sample.somebody) Sample.sr0 tt
  = (Some (BackendDevice Sample.sr0), tt).
Proof.
  assert (Hbefore : ∀ b : DeviceManager unit,
            Some b ∈ [Some Cases.elsewhere] →
            startsWith Sample.sr0 (udiPrefix b) = false).
  { intros b Hb. apply list_elem_of_singleton in Hb. by injection Hb as ->. }
  destruct (resolution_asks_first_match_only
              [Some Cases.elsewhere]
              (Sample.static_backend "/org/freedesktop/UDisks2" [Sample.sr0])
              [] Sample.sr0 tt Hbefore) as [Hnone Hfirst].
  split; [exact Hnone|]. exact (Hfirst eq_refl).
Defined.

Lemma handle_survives_removal_and_return_witness :
  ∃ r1 r2,
    _k_deviceRemoved true Sample.sr0 Sample.resolved
    = Done (r1, [deviceRemoved Sample.sr0]) ∧
    _k_deviceAdded true Sample.somebody Sample.sr0 r1 tt
    = Done (r2, tt, [deviceAdded Sample.sr0]) ∧
    registered_handle r2 Sample.sr0 2%positive
      (mkDevicePrivate Sample.sr0 (Some (BackendDevice Sample.sr0))).
Proof.
  assert (Hreg : registered_handle Sample.resolved Sample.sr0 2%positive
            (mkDevicePrivate Sample.sr0 (Some (BackendDevice Sample.sr0)))).
  { split; vm_compute; reflexivity. }
  destruct (handle_survives_removal_and_return
              true Sample.somebody Sample.sr0 Sample.resolved tt 2%positive
              _ (BackendDevice Sample.sr0) Hreg (mk_is_Some _ _ eq_refl)
              eq_refl)
    as (r1 & r2 & Hremoved & _ & Hadded & Hback & _).
  exists r1, r2. split; [exact Hremoved|]. split; [exact Hadded|].
  exact Hback.
Defined.

Lemma destroyed_handle_is_forgotten_witness :
  registry_inv Sample.resolved ∧
  m_devicesMap (delete_device 2%positive Sample.resolved) !! Sample.sr0
  = None.
Proof.
  assert (Hinv : registry_inv Sample.resolved).
  { exact (find_inv Sample.somebody Sample.sr0 initial tt initial_inv). }
  split; [exact Hinv|].
  assert (Hreg : registered_handle Sample.resolved Sample.sr0 2%positive
            (mkDevicePrivate Sample.sr0 (Some (BackendDevice Sample.sr0)))).
  { split; vm_compute; reflexivity. }
  destruct (destroyed_handle_is_forgotten
              Sample.somebody Sample.resolved tt Sample.sr0 2%positive _
              1%positive Hinv Hreg) as (_ & Hgone & _).
  exact Hgone.
Defined.

End HandleFacts.

(** ** More of the UDisks2 backend *)

Module ManagerFacts.
Import Qt QtFacts QMapFacts UDisks2 UDisks2Facts ManagerRun.

Section Facts.
Context {QVariant : Type} `{!QVariantOps QVariant}.
Variable K : Constants.
Variable sanitizeValue : QVariant → QVariant.
Variable sanitizeValueMap : QMap.t QVariant → QMap.t QVariant.
Variable mightBeOpticalDisc :
  string → QMap.t (QMap.t (QMap.t QVariant))
  → bool * QMap.t (QMap.t (QMap.t QVariant)).

Implicit Types (bus : Bus (QVariant := QVariant)).
Implicit Types (m : QMap.t (QMap.t (QMap.t QVariant))).
Implicit Types (props : QMap.t (QMap.t QVariant)).
Implicit Types (udi iface name : string).

Lemma insert_not_empty {V : Type} k (v : V) (m' : QMap.t V) :
  QMap.isEmpty (QMap.insert k v m') = false.
Proof.
  apply nonempty_iff_entry. exists k. rewrite find_insert_eq. by eexists.
Qed.

Lemma contains_not_empty {V : Type} k (m' : QMap.t V) :
  QMap.contains k m' = true → QMap.isEmpty m' = false.
Proof.
  intros Hin. apply nonempty_iff_entry. exists k. by apply contains_true.
Qed.

Lemma find_resynced udi (items : QMap.t (QMap.t (QMap.t QVariant))) m :
  QMap.ok items →
  QMap.find udi
    (fold_left
       (fun (cache : QMap.t (QMap.t (QMap.t QVariant)))
            (item : string * QMap.t (QMap.t QVariant)) =>
          if negb (startsWith item.1 (UD2_DBUS_PATH_BLOCK_DEVICES K))
             && negb (startsWith item.1 (UD2_DBUS_PATH_DRIVES K))
          then cache
          else QMap.insert item.1 (QMap.map_values sanitizeValueMap item.2)
                           cache)
       items m)
  = match QMap.find udi items with
    | Some mapMap =>
        if startsWith udi (UD2_DBUS_PATH_BLOCK_DEVICES K)
           || startsWith udi (UD2_DBUS_PATH_DRIVES K)
        then Some (QMap.map_values sanitizeValueMap mapMap)
        else QMap.find udi m
    | None => QMap.find udi m
    end.
Proof.
  unfold QMap.ok. revert m.
  induction items as [|[k mapMap] rest IH]; intros m Hok; cbn [fold_left];
    [done|].
  apply NoDup_cons in Hok as [Hk Hok]. cbn in Hk. rewrite IH by done.
  cbn [fst snd QMap.find].
  destruct (String.eqb udi k) eqn:Heq.
  - apply String.eqb_eq in Heq as ->.
    apply find_None_keys in Hk. rewrite Hk.
    destruct (startsWith k (UD2_DBUS_PATH_BLOCK_DEVICES K));
      [|destruct (startsWith k (UD2_DBUS_PATH_DRIVES K))];
      cbn [negb andb orb]; by rewrite ?find_insert_eq.
  - apply String.eqb_neq in Heq.
    assert (Hsame :
      QMap.find udi
        (if negb (startsWith k (UD2_DBUS_PATH_BLOCK_DEVICES K))
            && negb (startsWith k (UD2_DBUS_PATH_DRIVES K))
         then m
         else QMap.insert k (QMap.map_values sanitizeValueMap mapMap) m)
      = QMap.find udi m).
    { destruct (_ && _); [done|]. by rewrite find_insert_ne. }
    by rewrite Hsame.
Qed.

(** X9.  A resync mirrors the service and nothing else.  [allDevices]
    returns the identifiers of the cache it leaves; that cache holds,
    sanitized, the objects the service reports under the paths of block
    devices and drives, and no other entry, whatever the cache held before;
    when the service answers with an error the cache is left empty. *)
Theorem resync_mirrors_the_service bus m :
  let outcome := allDevices K sanitizeValueMap bus m in
  outcome.1 = QMap.keys outcome.2 ∧
  match GetManagedObjects bus with
  | None => outcome = ([], [])
  | Some items =>
      QMap.ok items →
      ∀ udi, QMap.find udi outcome.2
             = if startsWith udi (UD2_DBUS_PATH_BLOCK_DEVICES K)
                  || startsWith udi (UD2_DBUS_PATH_DRIVES K)
               then QMap.map_values sanitizeValueMap <$> QMap.find udi items
               else None
  end.
Proof.
  cbn zeta. unfold allDevices. cbn [fst snd]. split; [done|].
  destruct (GetManagedObjects bus) as [items|]; [|done].
  intros Hok udi. rewrite find_resynced by done. cbn [QMap.find].
  destruct (QMap.find udi items); cbn; by destruct (_ || _).
Qed.

(** X10.  Every identifier that [allDevices] lists can be resolved: right
    after the resync, [createDevice] makes a device object for it and leaves
    the cache alone, whatever the service would answer by then.  The root
    identifier resolves at any time, without a look at the cache; an
    identifier that a cache with entries does not track gives null. *)
Theorem listed_devices_resolve bus later m udi :
  let listed := allDevices K sanitizeValueMap bus m in
  (udi ∈ listed.1 →
   createDevice K sanitizeValueMap later udi listed.2
   = (Frontend.DeviceObject (Frontend.BackendDevice udi), listed.2)) ∧
  createDevice K sanitizeValueMap later (udiPrefix K) m
  = (Frontend.DeviceObject (Frontend.BackendDevice (udiPrefix K)), m) ∧
  (udi ≠ udiPrefix K → QMap.isEmpty m = false →
   QMap.contains udi m = false →
   createDevice K sanitizeValueMap later udi m = (Frontend.NullObject, m)).
Proof.
  cbn zeta. split; [|split].
  - destruct (allDevices K sanitizeValueMap bus m) as [udis cache] eqn:Hall.
    assert (Hkeys : udis = QMap.keys cache).
    { unfold allDevices in Hall. by injection Hall as <- <-. }
    cbn [fst snd]. intros Hin. rewrite Hkeys in Hin.
    apply find_Some_keys, contains_true in Hin.
    unfold createDevice. destruct (String.eqb udi (udiPrefix K)); [done|].
    unfold deviceCache. rewrite (contains_not_empty _ _ Hin). by rewrite Hin.
  - unfold createDevice. by rewrite eqb_true.
  - intros Hroot Hentries Hunknown. unfold createDevice.
    rewrite eqb_false by done. unfold deviceCache.
    by rewrite Hentries, Hunknown.
Qed.

(** *** Signals of the object manager *)

(** X11.  An [InterfacesRemoved] touches one device at most: every other
    entry of the cache stays as it is, nothing is tracked that was not
    tracked before, each emission names the object of the signal, and a
    signal for the empty path, for a job or for an object the cache does not
    track does nothing at all. *)
Theorem removal_touches_one_device object_path interfaces m :
  let outcome := slotInterfacesRemoved K object_path interfaces m in
  (∀ udi, udi ≠ object_path → QMap.find udi outcome.1 = QMap.find udi m) ∧
  (∀ udi, QMap.contains udi outcome.1 = true → QMap.contains udi m = true) ∧
  (object_path = "" ∨ startsWith object_path (UD2_DBUS_PATH_JOBS K) = true ∨
   QMap.contains object_path m = false → outcome = (m, [])) ∧
  (∀ signal, signal ∈ outcome.2 →
             signal = deviceRemoved object_path ∨
             signal = deviceAdded object_path).
Proof.
  cbn zeta. unfold slotInterfacesRemoved.
  destruct (isEmpty object_path) eqn:Hempty.
  { cbn [fst snd]. split; [done|]. split; [done|]. split; [done|].
    intros signal Hin. by apply elem_of_nil in Hin. }
  destruct (startsWith object_path (UD2_DBUS_PATH_JOBS K)) eqn:Hjob.
  { cbn [fst snd]. split; [done|]. split; [done|]. split; [done|].
    intros signal Hin. by apply elem_of_nil in Hin. }
  destruct (QMap.find object_path m) as [cached|] eqn:Hcached.
  2:{ cbn [fst snd]. split; [done|]. split; [done|]. split; [done|].
      intros signal Hin. by apply elem_of_nil in Hin. }
  apply isEmpty_false in Hempty.
  assert (Hknown : QMap.contains object_path m = true).
  { apply contains_true. by eexists. }
  assert (Hignored : ¬ (object_path = "" ∨ true = true ∧ False ∨
                        QMap.contains object_path m = false)).
  { intros [?|[[_ []]|Hno]]; [done|]. by rewrite Hknown in Hno. }
  destruct (QMap.isEmpty _); cbn [fst snd].
  - split; [|split; [|split]].
    + intros udi Hne. by rewrite find_remove_ne, find_insert_ne.
    + intros udi Hin. apply contains_remove in Hin.
      apply contains_insert in Hin as [<-|Hin]; done.
    + intros [?|[?|Hno]]; [done|done|]. by rewrite Hknown in Hno.
    + intros signal Hin. apply list_elem_of_singleton in Hin. by left.
  - split; [|split; [|split]].
    + intros udi Hne. by rewrite find_insert_ne.
    + intros udi Hin. apply contains_insert in Hin as [<-|Hin]; done.
    + intros [?|[?|Hno]]; [done|done|]. by rewrite Hknown in Hno.
    + intros signal Hin. apply elem_of_cons in Hin as [->|Hin]; [by left|].
      apply list_elem_of_singleton in Hin. by right.
Qed.

Lemma merged_keeps_out i (supplied : QMap.t (QMap.t QVariant)) props :
  i ∉ QMap.keys supplied → QMap.find i props = None →
  QMap.find i (fold_left (merge_interface K sanitizeValueMap) supplied props)
  = None.
Proof.
  revert props.
  induction supplied as [|[k properties] rest IH]; intros props Hout Hnone;
    cbn [fold_left]; [done|].
  cbn in Hout. apply not_elem_of_cons in Hout as [Hne Hout].
  apply IH; [done|]. unfold merge_interface. cbn [fst snd].
  destruct (negb _); [done|]. by rewrite find_insert_ne.
Qed.

Lemma merged_keeps_in i (supplied : QMap.t (QMap.t QVariant)) props :
  is_Some (QMap.find i props) →
  is_Some (QMap.find i
             (fold_left (merge_interface K sanitizeValueMap) supplied props)).
Proof.
  revert props.
  induction supplied as [|[k properties] rest IH]; intros props Hin;
    cbn [fold_left]; [done|].
  apply IH. unfold merge_interface. cbn [fst snd].
  destruct (negb _); [done|]. rewrite find_insert.
  by case_decide.
Qed.

Lemma merged_has i (supplied : QMap.t (QMap.t QVariant)) props :
  QMap.contains i supplied = true →
  startsWith i (UD2_DBUS_SERVICE K) = true →
  is_Some (QMap.find i
             (fold_left (merge_interface K sanitizeValueMap) supplied props)).
Proof.
  revert props.
  induction supplied as [|[k properties] rest IH]; intros props Hin Hservice;
    [done|].
  cbn [fold_left]. unfold QMap.contains in Hin. cbn [QMap.find] in Hin.
  destruct (String.eqb i k) eqn:Heq.
  - apply String.eqb_eq in Heq as <-. apply merged_keeps_in.
    unfold merge_interface. cbn [fst snd]. rewrite Hservice. cbn [negb].
    rewrite find_insert_eq. by eexists.
  - by apply IH.
Qed.

Lemma refetched_keeps_in bus udi i (interfaces : list string) props :
  is_Some (QMap.find i props) →
  is_Some (QMap.find i
             (fold_left (refetch_interface sanitizeValueMap bus udi)
                        interfaces props)).
Proof.
  intros Hin. rewrite find_refetched.
  destruct (if bool_decide (i ∈ interfaces) then _ else _); [by eexists|done].
Qed.

(** X12.  A device that arrives and then loses the interfaces it arrived
    with is forgotten.  [InterfacesAdded] for an object the cache does not
    track asks the service nothing and announces the device once;
    [InterfacesRemoved] with the names that came then empties the snapshot,
    announces the removal once, not followed by an addition, and leaves the
    cache with the entries it had before the device came. *)
Theorem added_then_removed_is_forgotten bus udi
        (supplied : QMap.t (QMap.t QVariant)) m :
  udi ≠ "" →
  startsWith udi (UD2_DBUS_PATH_JOBS K) = false →
  QMap.contains udi m = false →
  let added := slotInterfacesAdded K sanitizeValueMap bus udi supplied m in
  let removed :=
    slotInterfacesRemoved K udi (QMap.keys supplied) added.1.1 in
  added.1.2 = [deviceAdded udi] ∧ added.2 = [] ∧
  QMap.contains udi added.1.1 = true ∧
  removed.2 = [deviceRemoved udi] ∧
  ∀ udi', QMap.find udi' removed.1 = QMap.find udi' m.
Proof.
  intros Hudi Hjob Hnew. cbn zeta. unfold slotInterfacesAdded.
  rewrite Hjob, Hnew. cbn [negb orb fst snd].
  assert (Hnone : QMap.find udi m = None) by by apply contains_false.
  unfold QMap.value. unfold QMap.t in *. rewrite Hnone.
  change (QMap.keys (V := list (string * QVariant)) []) with (@nil string).
  cbn [map removeOne fold_left].
  split; [done|]. split; [done|]. split.
  { apply contains_true. rewrite find_insert_eq. by eexists. }
  unfold slotInterfacesRemoved. apply isEmpty_false in Hudi.
  rewrite Hudi, Hjob, find_insert_eq. cbv beta iota zeta.
  set (left := fold_left _ (QMap.keys supplied) _).
  assert (Hleft : QMap.isEmpty left = true).
  { apply empty_iff_no_entry. intros i. subst left.
    rewrite find_remove_all. case_decide as Hi; [done|].
    by apply merged_keeps_out. }
  unfold QMap.t in *. rewrite Hleft. cbn [fst snd]. split; [done|].
  intros udi'. destruct (decide (udi' = udi)) as [->|Hne].
  - by rewrite find_remove_eq.
  - by rewrite find_remove_ne, !find_insert_ne.
Qed.

(** X13.  What an [InterfacesAdded] brings is there for the next caller.
    Once the slot has run for an object that is not a job, [hasInterface]
    says yes for every supplied interface of the service and [createDevice]
    makes a device for the object, both from the cache as the slot left it
    and without a resync, whatever the service would answer by then. *)
Theorem added_interface_is_visible bus later udi
        (supplied : QMap.t (QMap.t QVariant)) i m :
  startsWith udi (UD2_DBUS_PATH_JOBS K) = false →
  QMap.contains i supplied = true →
  startsWith i (UD2_DBUS_SERVICE K) = true →
  let cache :=
    (slotInterfacesAdded K sanitizeValueMap bus udi supplied m).1.1 in
  hasInterface K sanitizeValueMap later udi i cache = (true, cache) ∧
  createDevice K sanitizeValueMap later udi cache
  = (Frontend.DeviceObject (Frontend.BackendDevice udi), cache).
Proof.
  intros Hjob Hin Hservice. cbn zeta. unfold slotInterfacesAdded.
  rewrite Hjob. cbn [fst snd].
  set (snapshot := fold_left (refetch_interface _ _ _) _ _).
  assert (Hsnapshot : QMap.contains i snapshot = true).
  { apply contains_true. subst snapshot.
    by apply refetched_keeps_in, merged_has. }
  unfold hasInterface, createDevice, deviceCache.
  rewrite insert_not_empty. split.
  - by rewrite find_insert_value, decide_True, Hsnapshot.
  - destruct (String.eqb udi (udiPrefix K)); [done|].
    assert (Htracked : QMap.contains udi (QMap.insert udi snapshot m) = true).
    { apply contains_true. rewrite find_insert_eq. by eexists. }
    by rewrite Htracked.
Qed.

(** *** Reading *)

Lemma first_holder_contains name props iface value :
  first_holder name props = Some (iface, value) →
  QMap.contains iface props = true.
Proof.
  induction props as [|[iface0 properties] rest IH]; cbn; [done|].
  destruct (QMap.find name properties) as [held|].
  - intros [= -> ->]. unfold QMap.contains. cbn. by rewrite eqb_true.
  - intros Hrest. unfold QMap.contains. cbn.
    destruct (String.eqb iface iface0); [done|]. by apply IH.
Qed.

(** X14.  A read tracks nothing new.  [deviceProperty], in either mode and
    whatever the service answers, neither adds a device to the cache nor
    drops one, leaves every other device as it is, keeps the interfaces of
    the device it reads the same, and leaves every property of another name
    with the value it had. *)
Theorem reading_tracks_nothing_new bus udi name mode m :
  let cache := (deviceProperty sanitizeValue bus udi name mode m).1.2 in
  (∀ udi', QMap.contains udi' cache = QMap.contains udi' m) ∧
  (∀ udi', udi' ≠ udi → QMap.find udi' cache = QMap.find udi' m) ∧
  (∀ i, QMap.contains i (QMap.value [] udi cache)
        = QMap.contains i (QMap.value [] udi m)) ∧
  (∀ i name', name' ≠ name →
     QMap.find name' (QMap.value [] i (QMap.value [] udi cache))
     = QMap.find name' (QMap.value [] i (QMap.value [] udi m))).
Proof.
  cbn zeta. unfold deviceProperty.
  destruct mode; [by rewrite loop_cached|]. rewrite loop_fetch.
  destruct (first_holder name (QMap.value [] udi m))
    as [[iface cached]|] eqn:Hfirst; [|done].
  destruct (isValid cached); [done|]. cbn [fst snd].
  pose proof (first_holder_contains _ _ _ _ Hfirst) as Hiface.
  assert (Hudi : QMap.contains udi m = true).
  { unfold QMap.contains. unfold QMap.value in Hfirst.
    unfold QMap.t in *. by destruct (QMap.find udi m). }
  rewrite value_assign. unfold assign.
  split; [|split; [|split]].
  - intros udi'. apply eq_true_iff_eq. rewrite contains_insert.
    split; [by intros [<-|?]|by right].
  - intros udi' Hne. by rewrite find_insert_ne.
  - intros i. apply eq_true_iff_eq. rewrite contains_insert.
    split; [by intros [<-|?]|by right].
  - intros i name' Hne. rewrite find_insert_value.
    case_decide as Hi; [|done]. subst i. by rewrite find_insert_ne.
Qed.

(** *** Property changes *)

Lemma find_store_other i iface prop (value : QVariant) props :
  i ≠ iface →
  QMap.find i (store_property iface prop value props) = QMap.find i props.
Proof. intros Hne. unfold store_property. by rewrite find_insert_ne. Qed.

Lemma value_store iface prop (value : QVariant) props :
  QMap.value [] iface (store_property iface prop value props)
  = QMap.insert prop value (QMap.value [] iface props).
Proof.
  unfold store_property. by rewrite find_insert_value, decide_True.
Qed.

Lemma invalidated_stored iface (invalidated : list string) props :
  let result :=
    fold_left (fun c prop => store_property iface prop invalid c)
              invalidated props in
  (∀ i, i ≠ iface → QMap.find i result = QMap.find i props) ∧
  (∀ name, QMap.find name (QMap.value [] iface result)
           = if decide (name ∈ invalidated) then Some invalid
             else QMap.find name (QMap.value [] iface props)).
Proof.
  cbn zeta. revert props.
  induction invalidated as [|prop rest IH]; intros props; cbn [fold_left].
  - split; [done|]. intros name.
    by rewrite decide_False by apply not_elem_of_nil.
  - destruct (IH (store_property iface prop invalid props)) as [Hother Hown].
    split.
    + intros i Hne. by rewrite Hother, find_store_other.
    + intros name. rewrite Hown, value_store, find_insert.
      destruct (decide (name ∈ rest)) as [Hin|Hout].
      * rewrite decide_True; [done|]. apply elem_of_cons. by right.
      * destruct (decide (prop = name)) as [->|Hne].
        -- rewrite decide_True; [done|]. apply elem_of_cons. by left.
        -- rewrite decide_False; [done|].
           intros Hin. apply elem_of_cons in Hin as [?|?]; done.
Qed.

Lemma changed_stored iface (changed : QMap.t QVariant) props :
  QMap.ok changed →
  let result :=
    fold_left
      (fun c (it : string * QVariant) =>
         store_property iface it.1 (sanitizeValue it.2) c)
      changed props in
  (∀ i, i ≠ iface → QMap.find i result = QMap.find i props) ∧
  (∀ name, QMap.find name (QMap.value [] iface result)
           = match QMap.find name changed with
             | Some value => Some (sanitizeValue value)
             | None => QMap.find name (QMap.value [] iface props)
             end).
Proof.
  cbn zeta. unfold QMap.ok. revert props.
  induction changed as [|[prop value] rest IH]; intros props Hok;
    cbn [fold_left]; [done|].
  apply NoDup_cons in Hok as [Hprop Hok]. cbn in Hprop.
  apply find_None_keys in Hprop.
  destruct (IH (store_property iface prop (sanitizeValue value) props) Hok)
    as [Hother Hown].
  split.
  - intros i Hne. cbn [fst snd] in *. by rewrite Hother, find_store_other.
  - intros name. cbn [fst snd] in *. rewrite Hown, value_store, find_insert.
    cbn [QMap.find]. destruct (String.eqb name prop) eqn:Heq.
    + apply String.eqb_eq in Heq as ->. by rewrite Hprop, decide_True.
    + apply String.eqb_neq in Heq. by rewrite decide_False.
Qed.

Lemma invalidated_marked (invalidated : list string)
      (changes : QMap.t PropertyChange) name :
  QMap.find name
    (fold_left (fun c prop => QMap.insert prop PropertyModified c)
               invalidated changes)
  = if decide (name ∈ invalidated) then Some PropertyModified
    else QMap.find name changes.
Proof.
  revert changes.
  induction invalidated as [|prop rest IH]; intros changes; cbn [fold_left].
  - by rewrite decide_False by apply not_elem_of_nil.
  - rewrite IH, find_insert.
    destruct (decide (name ∈ rest)) as [Hin|Hout].
    + rewrite decide_True; [done|]. apply elem_of_cons. by right.
    + destruct (decide (prop = name)) as [->|Hne].
      * rewrite decide_True; [done|]. apply elem_of_cons. by left.
      * rewrite decide_False; [done|].
        intros Hin. apply elem_of_cons in Hin as [?|?]; done.
Qed.

Lemma changed_marked (changed : QMap.t QVariant)
      (changes : QMap.t PropertyChange) name :
  QMap.find name
    (fold_left
       (fun c (it : string * QVariant) => QMap.insert it.1 PropertyModified c)
       changed changes)
  = if decide (name ∈ QMap.keys changed) then Some PropertyModified
    else QMap.find name changes.
Proof.
  revert changes.
  induction changed as [|[prop value] rest IH]; intros changes;
    cbn [fold_left].
  - by rewrite decide_False by apply not_elem_of_nil.
  - rewrite IH, find_insert. cbn [fst QMap.keys map].
    destruct (decide (name ∈ QMap.keys rest)) as [Hin|Hout].
    + rewrite decide_True; [done|]. apply elem_of_cons. by right.
    + destruct (decide (prop = name)) as [->|Hne].
      * rewrite decide_True; [done|]. apply elem_of_cons. by left.
      * rewrite decide_False; [done|].
        intros Hin. apply elem_of_cons in Hin as [?|?]; done.
Qed.

Lemma tracked_change_records udi iface changed invalidated m :
  udi ≠ "" →
  startsWith udi (UD2_UDI_DISKS_PREFIX K) = true →
  startsWith udi (UD2_DBUS_PATH_JOBS K) = false →
  QMap.contains udi m = true →
  reports_no_medium K iface changed = false →
  slotPropertiesChanged K sanitizeValue mightBeOpticalDisc
                        (change_of udi iface changed invalidated) m
  = record_changes sanitizeValue udi iface changed invalidated m.
Proof.
  intros Hudi Hprefix Hjob Hknown Hmedium. unfold slotPropertiesChanged.
  cbn [change_of path arguments qdbus_cast_QString qdbus_cast_QVariantMap
       qdbus_cast_QStringList].
  apply isEmpty_false in Hudi. rewrite Hudi, Hprefix, Hjob, Hknown.
  cbn [negb orb andb]. unfold reports_no_medium in Hmedium.
  destruct (record_changes _ _ _ _ _ _) as [cache1 signals1].
  destruct (String.eqb iface (UD2_DBUS_INTERFACE_BLOCK K)
            && QMap.contains "Size" changed); [|done].
  cbn [andb] in Hmedium. by rewrite Hmedium.
Qed.

(** X15.  A change of a tracked device is stored and announced.  For a
    [PropertiesChanged] of a device the cache tracks, which does not read as
    an ejection: other devices and the other interfaces of the device stay
    as they are; under the interface of the signal each changed property
    holds the sanitized new value, each invalidated one that did not come
    with a value holds the unresolved marker, and every other keeps what it
    had; one [propertyChanged] is emitted that marks exactly the invalidated
    and the changed names as modified, or none when the signal names no
    property. *)
Theorem changes_are_stored_and_announced udi iface changed invalidated m :
  udi ≠ "" →
  startsWith udi (UD2_UDI_DISKS_PREFIX K) = true →
  startsWith udi (UD2_DBUS_PATH_JOBS K) = false →
  QMap.contains udi m = true →
  QMap.ok changed →
  reports_no_medium K iface changed = false →
  let outcome :=
    slotPropertiesChanged K sanitizeValue mightBeOpticalDisc
                          (change_of udi iface changed invalidated) m in
  let old := QMap.value [] udi m in
  let snapshot := QMap.value [] udi outcome.1 in
  (∀ udi', udi' ≠ udi → QMap.find udi' outcome.1 = QMap.find udi' m) ∧
  QMap.contains udi outcome.1 = true ∧
  (∀ i, i ≠ iface → QMap.find i snapshot = QMap.find i old) ∧
  (∀ name, QMap.find name (QMap.value [] iface snapshot)
           = match QMap.find name changed with
             | Some value => Some (sanitizeValue value)
             | None =>
                 if decide (name ∈ invalidated) then Some invalid
                 else QMap.find name (QMap.value [] iface old)
             end) ∧
  (changed = [] ∧ invalidated = [] → outcome.2 = []) ∧
  (¬ (changed = [] ∧ invalidated = []) →
   ∃ changes, outcome.2 = [propertyChanged udi changes] ∧
              ∀ name, QMap.find name changes
                      = if decide (name ∈ invalidated ∨
                                   name ∈ QMap.keys changed)
                        then Some PropertyModified else None).
Proof.
  intros Hudi Hprefix Hjob Hknown Hok Hmedium. cbn zeta.
  rewrite tracked_change_records by done. unfold record_changes.
  cbv zeta. cbn [fst snd]. rewrite find_insert_value, decide_True by done.
  destruct (invalidated_stored iface invalidated (QMap.value [] udi m))
    as [Hother1 Hown1].
  destruct (changed_stored iface changed
              (fold_left (fun c prop => store_property iface prop invalid c)
                         invalidated (QMap.value [] udi m)) Hok)
    as [Hother2 Hown2].
  cbn zeta in Hother1, Hown1, Hother2, Hown2.
  split; [|split; [|split; [|split; [|split]]]].
  - intros udi' Hne. by rewrite find_insert_ne.
  - apply contains_true. rewrite find_insert_eq. by eexists.
  - intros i Hne. by rewrite Hother2, Hother1.
  - intros name. by rewrite Hown2, Hown1.
  - by intros [-> ->].
  - intros Hsome.
    set (changes := fold_left _ changed _).
    assert (Hchanges : ∀ name, QMap.find name changes
                         = if decide (name ∈ invalidated ∨
                                      name ∈ QMap.keys changed)
                           then Some PropertyModified else None).
    { intros name. subst changes.
      rewrite changed_marked, invalidated_marked.
      destruct (decide (name ∈ QMap.keys changed)) as [Hc|Hc].
      - rewrite decide_True; [done|by right].
      - destruct (decide (name ∈ invalidated)) as [Hi|Hi].
        + rewrite decide_True; [done|by left].
        + rewrite decide_False; [done|]. by intros [?|?]. }
    assert (Hfilled : QMap.isEmpty changes = false).
    { apply nonempty_iff_entry.
      destruct changed as [|[prop value] rest].
      - destruct invalidated as [|prop rest]; [by destruct Hsome|].
        exists prop. rewrite Hchanges, decide_True; [by eexists|].
        left. apply elem_of_cons. by left.
      - exists prop. rewrite Hchanges, decide_True; [by eexists|].
        right. cbn. apply elem_of_cons. by left. }
    unfold QMap.t in *. rewrite Hfilled. cbn [negb]. by exists changes.
Qed.

Lemma first_holder_value name iface x props y :
  first_holder name props = Some (iface, x) →
  QMap.find name (QMap.value [] iface props) = Some y → y = x.
Proof.
  unfold QMap.value.
  induction props as [|[iface0 properties] rest IH]; cbn; [done|].
  destruct (QMap.find name properties) as [held|] eqn:Hheld.
  - intros [= -> ->]. rewrite eqb_true, Hheld. by intros [= ->].
  - intros Hrest. destruct (String.eqb iface iface0); [by rewrite Hheld|].
    by apply IH.
Qed.

Lemma first_holder_stored name iface prop value props x :
  first_holder name props = Some (iface, x) →
  first_holder name (store_property iface prop value props)
  = Some (iface, if decide (prop = name) then value else x).
Proof.
  unfold store_property.
  induction props as [|[iface0 properties] rest IH]; cbn; [done|].
  destruct (QMap.find name properties) as [held|] eqn:Hheld.
  - intros [= -> ->]. unfold QMap.value. cbn.
    rewrite eqb_true, compare_refl. cbn. rewrite find_insert, Hheld.
    by case_decide.
  - intros Hrest. unfold QMap.value in *. cbn.
    destruct (String.compare iface iface0) eqn:Hcmp; cbn.
    + apply compare_Eq in Hcmp as ->. rewrite eqb_true, find_insert, Hheld.
      by case_decide.
    + rewrite eqb_false
        by (intros ->; by rewrite compare_refl in Hcmp).
      rewrite find_insert, Hheld. case_decide; [done|].
      match goal with
      | |- context [QMap.find name ?held] =>
          destruct (QMap.find name held) as [y|] eqn:Hy; [|done]
      end.
      by rewrite (first_holder_value _ _ _ _ _ Hrest Hy).
    + rewrite Hheld.
      rewrite eqb_false
        by (intros ->; by rewrite compare_refl in Hcmp).
      by apply IH.
Qed.

(** X16.  An invalidated property is fetched again.  After a
    [PropertiesChanged] that invalidates a property of a tracked device
    without a new value for it, under the interface that a read finds the
    property in, a [CachedOnly] read gives the invalid value and calls
    nobody, and a [FetchIfNeeded] read asks the service once, for that
    interface and property, and returns and stores the sanitized answer. *)
Theorem invalidated_property_is_fetched_again
        bus udi iface name held changed invalidated m :
  udi ≠ "" →
  startsWith udi (UD2_UDI_DISKS_PREFIX K) = true →
  startsWith udi (UD2_DBUS_PATH_JOBS K) = false →
  reports_no_medium K iface changed = false →
  first_holder name (QMap.value [] udi m) = Some (iface, held) →
  name ∈ invalidated →
  name ∉ QMap.keys changed →
  let cache :=
    (slotPropertiesChanged K sanitizeValue mightBeOpticalDisc
                           (change_of udi iface changed invalidated) m).1 in
  deviceProperty sanitizeValue bus udi name CachedOnly cache
  = (invalid, cache, []) ∧
  deviceProperty sanitizeValue bus udi name FetchIfNeeded cache
  = (sanitizeValue (Get bus udi iface name),
     assign udi iface name (sanitizeValue (Get bus udi iface name)) cache,
     [CallGet udi iface name]).
Proof.
  intros Hudi Hprefix Hjob Hmedium Hfirst Hinvalidated Hchanged. cbn zeta.
  assert (Hknown : QMap.contains udi m = true).
  { unfold QMap.contains. unfold QMap.value in Hfirst.
    unfold QMap.t in *. by destruct (QMap.find udi m). }
  rewrite tracked_change_records by done.
  set (cache := (record_changes _ _ _ _ _ _).1).
  assert (Hnow : first_holder name (QMap.value [] udi cache)
                 = Some (iface, invalid)).
  { subst cache. unfold record_changes. cbn [fst].
    rewrite find_insert_value, decide_True by done.
    set (old := QMap.value [] udi m) in *.
    assert (Hfirst1 : first_holder name
               (fold_left (fun c prop => store_property iface prop invalid c)
                          invalidated old)
             = Some (iface, if decide (name ∈ invalidated) then invalid
                            else held)).
    { clear Hinvalidated. revert Hfirst. generalize held. generalize old.
      induction invalidated as [|prop rest IH]; intros props x Hprops;
        cbn [fold_left].
      - by rewrite decide_False by apply not_elem_of_nil.
      - rewrite (IH _ _ (first_holder_stored _ _ prop invalid _ _ Hprops)).
        destruct (decide (name ∈ rest)) as [Hin|Hout].
        + rewrite decide_True; [done|]. apply elem_of_cons. by right.
        + destruct (decide (prop = name)) as [->|Hne].
          * rewrite decide_True; [done|]. apply elem_of_cons. by left.
          * rewrite decide_False; [done|].
            intros Hin. apply elem_of_cons in Hin as [?|?]; done. }
    rewrite decide_True in Hfirst1 by done.
    revert Hfirst1.
    generalize (fold_left (fun c prop => store_property iface prop invalid c)
                          invalidated old).
    clear Hmedium. induction changed as [|[prop value] rest IH];
      intros props Hprops; cbn [fold_left]; [done|].
    cbn in Hchanged. apply not_elem_of_cons in Hchanged as [Hne Hrest].
    apply IH; [done|]. cbn [fst snd].
    rewrite (first_holder_stored _ _ _ _ _ _ Hprops).
    by rewrite decide_False by done. }
  unfold deviceProperty. rewrite loop_cached, loop_fetch, Hnow.
  by rewrite isValid_invalid.
Qed.

(** X17.  Whatever a [PropertiesChanged] makes the manager emit names the
    object of the message and agrees with what the cache tracked when the
    message came: a change notification or a removal for a device it
    tracked, an addition for one it did not.  A message whose path is empty,
    lies outside the UDisks2 tree or names a job, or that does not carry
    three arguments, is dropped. *)
Theorem change_signals_follow_tracking msg m :
  let outcome :=
    slotPropertiesChanged K sanitizeValue mightBeOpticalDisc msg m in
  (path msg = "" ∨
   startsWith (path msg) (UD2_UDI_DISKS_PREFIX K) = false ∨
   startsWith (path msg) (UD2_DBUS_PATH_JOBS K) = true ∨
   List.length (arguments msg) ≠ 3 → outcome = (m, [])) ∧
  ∀ signal, signal ∈ outcome.2 →
    match signal with
    | propertyChanged udi _ => udi = path msg ∧ QMap.contains udi m = true
    | deviceAdded udi => udi = path msg ∧ QMap.contains udi m = false
    | deviceRemoved udi => udi = path msg ∧ QMap.contains udi m = true
    end.
Proof.
  cbn zeta. unfold slotPropertiesChanged.
  destruct (isEmpty (path msg)) eqn:Hempty;
    [split; [done|intros signal Hin; by apply elem_of_nil in Hin]|].
  destruct (startsWith (path msg) (UD2_UDI_DISKS_PREFIX K)) eqn:Hprefix;
    [|split; [done|intros signal Hin; by apply elem_of_nil in Hin]].
  destruct (startsWith (path msg) (UD2_DBUS_PATH_JOBS K)) eqn:Hjob;
    [split; [done|intros signal Hin; by apply elem_of_nil in Hin]|].
  cbn [negb orb]. apply isEmpty_false in Hempty.
  destruct (arguments msg) as [|arg0 [|arg1 [|arg2 [|arg3 rest]]]];
    try (split; [done|intros signal Hin; by apply elem_of_nil in Hin]).
  split; [intros [?|[?|[?|Hargs]]]; done|].
  set (recorded := if QMap.contains (path msg) m then _ else _).
  assert (Hrecorded : ∀ signal, signal ∈ recorded.2 →
            ∃ changes, signal = propertyChanged (path msg) changes ∧
                       QMap.contains (path msg) m = true).
  { subst recorded. intros signal.
    destruct (QMap.contains (path msg) m) eqn:Hknown;
      [|intros Hin; by apply elem_of_nil in Hin].
    unfold record_changes. cbn [snd]. destruct (negb _);
      [|intros Hin; by apply elem_of_nil in Hin].
    intros Hin. apply list_elem_of_singleton in Hin. by eexists. }
  destruct recorded as [cache1 signals1]. cbn [snd] in Hrecorded.
  assert (Hfirst : ∀ signal, signal ∈ signals1 →
            match signal with
            | propertyChanged udi _ =>
                udi = path msg ∧ QMap.contains udi m = true
            | deviceAdded udi => udi = path msg ∧ QMap.contains udi m = false
            | deviceRemoved udi => udi = path msg ∧ QMap.contains udi m = true
            end).
  { intros signal Hin. by destruct (Hrecorded _ Hin) as [changes [-> ?]]. }
  destruct (_ && _); [|done].
  destruct (_ || _); [|done].
  destruct (mightBeOpticalDisc (path msg) cache1) as [optical cache2].
  destruct optical; [|done].
  destruct (QMap.contains (path msg) m) eqn:Hknown; cbn [negb andb].
  - destruct (_ =? _)%N; [|done]. cbn [snd]. intros signal Hin.
    apply elem_of_app in Hin as [Hin|Hin]; [by apply Hfirst|].
    apply list_elem_of_singleton in Hin as ->. done.
  - destruct (_ <? _)%N; [|done]. cbn [snd]. intros signal Hin.
    apply elem_of_app in Hin as [Hin|Hin]; [by apply Hfirst|].
    apply list_elem_of_singleton in Hin as ->. done.
Qed.

(** *** The cache over time *)

Lemma deviceCache_well_tracked bus m :
  device_paths_apart K → well_tracked K m →
  well_tracked K (deviceCache K sanitizeValueMap bus m).
Proof.
  intros Hapart Hm. unfold deviceCache.
  destruct (QMap.isEmpty m); [by apply allDevices_well_tracked|done].
Qed.

(** X18.  From the empty cache it starts with, whatever is called on the
    manager and whatever signals reach it, every identifier the cache tracks
    is the path of a device: not empty and not the path of a job.  This asks
    that the strings of the interface keep devices and jobs apart, that an
    [InterfacesAdded] carries an object path, and that the optical disc
    check leaves such a cache such. *)
Theorem tracked_paths_stay_device_paths
        (events : list (ManagerRun.Event (QVariant := QVariant))) :
  device_paths_apart K →
  (∀ udi before optical after,
      mightBeOpticalDisc udi before = (optical, after) →
      well_tracked K before → well_tracked K after) →
  Forall on_an_object events →
  well_tracked K
    (cache_after K sanitizeValue sanitizeValueMap mightBeOpticalDisc events).
Proof.
  intros Hapart Hdisc Hevents. unfold cache_after.
  assert (Hnil : well_tracked (QVariant := QVariant) K [])
    by (intros udi; done).
  revert Hnil. generalize (@nil (string * QMap.t (QMap.t QVariant))).
  induction Hevents as [|e rest He Hrest IH]; intros cache Hcache;
    cbn [fold_left]; [done|].
  apply IH. destruct e; cbn [after on_an_object] in *.
  - by apply allDevices_well_tracked.
  - unfold createDevice. destruct (String.eqb _ _); [done|].
    destruct (QMap.contains _ _); by apply deviceCache_well_tracked.
  - by apply deviceCache_well_tracked.
  - by apply deviceProperty_well_tracked.
  - by apply slotInterfacesAdded_well_tracked.
  - by apply slotInterfacesRemoved_well_tracked.
  - by apply slotPropertiesChanged_well_tracked.
Qed.

End Facts.

(** *** The theorems at work on closed instances *)

Lemma added_then_removed_is_forgotten_witness :
  Sample.sdb ≠ "" ∧
  QMap.contains Sample.sdb Sample.tracking_sdb1 = false ∧
  let added :=
    slotInterfacesAdded Sample.constants Sample.keep_all Sample.silent
                        Sample.sdb Sample.disk Sample.tracking_sdb1 in
  (slotInterfacesRemoved Sample.constants Sample.sdb
                         (QMap.keys Sample.disk) added.1.1).2
  = [deviceRemoved Sample.sdb].
Proof.
  assert (Hudi : Sample.sdb ≠ "") by discriminate.
  split; [exact Hudi|]. split; [reflexivity|].
  destruct (added_then_removed_is_forgotten
              Sample.constants Sample.keep_all Sample.silent Sample.sdb
              Sample.disk Sample.tracking_sdb1 Hudi eq_refl eq_refl)
    as (_ & _ & _ & Hremoved & _).
  exact Hremoved.
Defined.

Lemma added_interface_is_visible_witness :
  let cache :=
    (slotInterfacesAdded Sample.constants Sample.keep_all Sample.silent
                         Sample.sdb Sample.disk []).1.1 in
  hasInterface Sample.constants Sample.keep_all Sample.answering Sample.sdb
               Sample.Block cache
  = (true, cache).
Proof.
  destruct (added_interface_is_visible
              Sample.constants Sample.keep_all Sample.silent Sample.answering
              Sample.sdb Sample.disk Sample.Block [] eq_refl eq_refl eq_refl)
    as [Hhas _].
  exact Hhas.
Defined.

Lemma changes_are_stored_and_announced_witness :
  QMap.ok [("MountPoints", Sample.Text "/media/usb")] ∧
  QMap.find "MountPoints"
    (QMap.value [] Sample.Filesystem
       (QMap.value [] Sample.sdb1
          (slotPropertiesChanged Sample.constants Sample.keep Sample.optical
             (change_of Sample.sdb1 Sample.Filesystem
                        [("MountPoints", Sample.Text "/media/usb")] [])
             Sample.tracking_sdb1).1))
  = Some (Sample.Text "/media/usb").
Proof.
  assert (Hok : QMap.ok (V := Sample.Variant)
                  [("MountPoints", Sample.Text "/media/usb")]).
  { unfold QMap.ok. cbn. apply NoDup_singleton. }
  split; [exact Hok|].
  assert (Hudi : Sample.sdb1 ≠ "") by discriminate.
  destruct (changes_are_stored_and_announced
              Sample.constants Sample.keep Sample.optical Sample.sdb1
              Sample.Filesystem [("MountPoints", Sample.Text "/media/usb")]
              [] Sample.tracking_sdb1 Hudi eq_refl eq_refl eq_refl Hok
              eq_refl)
    as (_ & _ & _ & Hstored & _).
  exact (Hstored "MountPoints").
Defined.

Lemma invalidated_property_is_fetched_again_witness :
  first_holder "Size" (QMap.value [] Sample.sdb1 Sample.tracking_sdb1)
  = Some (Sample.Block, Sample.UInt64 4096) ∧
  let cache :=
    (slotPropertiesChanged Sample.constants Sample.keep Sample.optical
       (change_of Sample.sdb1 Sample.Block [] ["Size"])
       Sample.tracking_sdb1).1 in
  deviceProperty Sample.keep Sample.answering Sample.sdb1 "Size" CachedOnly
                 cache
  = (Sample.Nothing, cache, []).
Proof.
  split; [reflexivity|].
  assert (Hudi : Sample.sdb1 ≠ "") by discriminate.
  assert (Hin : "Size" ∈ ["Size"]) by apply list_elem_of_here.
  assert (Hout : "Size" ∉ QMap.keys (V := Sample.Variant) [])
    by apply not_elem_of_nil.
  destruct (invalidated_property_is_fetched_again
              Sample.constants Sample.keep Sample.optical Sample.answering
              Sample.sdb1 Sample.Block "Size" (Sample.UInt64 4096) []
              ["Size"] Sample.tracking_sdb1 Hudi eq_refl eq_refl eq_refl
              eq_refl Hin Hout)
    as [Hcached _].
  exact Hcached.
Defined.

Lemma tracked_paths_stay_device_paths_witness :
  device_paths_apart Sample.constants ∧
  Forall on_an_object Cases.course ∧
  well_tracked Sample.constants
    (cache_after Sample.constants Sample.keep Sample.keep_all Sample.optical
                 Cases.course).
Proof.
  assert (Hobjects : Forall on_an_object Cases.course).
  { repeat constructor. discriminate. }
  split; [exact sample_paths_apart|]. split; [exact Hobjects|].
  apply (tracked_paths_stay_device_paths
           Sample.constants Sample.keep Sample.keep_all Sample.optical
           Cases.course sample_paths_apart); [|exact Hobjects].
  intros udi before optical after Hcheck Hbefore.
  unfold Sample.optical in Hcheck. by injection Hcheck as _ <-.
Defined.

Lemma resync_mirrors_the_service_witness :
  QMap.ok [(Sample.sdb, Sample.disk)] ∧
  QMap.find Sample.sdb
    (allDevices Sample.constants Sample.keep_all Sample.with_sdb
                Sample.tracking_sdb1).2
  = Some Sample.disk ∧
  QMap.find Sample.sdb1
    (allDevices Sample.constants Sample.keep_all Sample.with_sdb
                Sample.tracking_sdb1).2
  = None.
Proof.
  assert (Hok : QMap.ok (V := QMap.t (QMap.t Sample.Variant))
                  [(Sample.sdb, Sample.disk)]).
  { unfold QMap.ok. cbn. apply NoDup_singleton. }
  split; [exact Hok|].
  destruct (resync_mirrors_the_service
              Sample.constants Sample.keep_all Sample.with_sdb
              Sample.tracking_sdb1) as [_ Hmirror].
  split; [exact (Hmirror Hok Sample.sdb)|exact (Hmirror Hok Sample.sdb1)].
Defined.

Lemma listed_devices_resolve_witness :
  Sample.sdb ∈ (allDevices Sample.constants Sample.keep_all Sample.with_sdb
                           []).1 ∧
  (createDevice Sample.constants Sample.keep_all Sample.silent Sample.sdb
                (allDevices Sample.constants Sample.keep_all Sample.with_sdb
                            []).2).1
  = Frontend.DeviceObject (Frontend.BackendDevice Sample.sdb).
Proof.
  assert (Hlisted : Sample.sdb ∈ (allDevices Sample.constants Sample.keep_all
                                             Sample.with_sdb []).1).
  { change (Sample.sdb ∈ [Sample.sdb]). apply list_elem_of_here. }
  split; [exact Hlisted|].
  destruct (listed_devices_resolve
              Sample.constants Sample.keep_all Sample.with_sdb Sample.silent
              [] Sample.sdb) as [Hresolved _].
  by rewrite (Hresolved Hlisted).
Defined.

End ManagerFacts.

(** ** More of the frontend behind the UDisks2 backend *)

Module WiringFacts.
Import Qt QtFacts QMapFacts Frontend FrontendFacts Listing ListingFacts.

Section Facts.
Context {QVariant : Type} `{!UDisks2.QVariantOps QVariant}.
Variable K : UDisks2.Constants.
Variable sanitizeValue : QVariant → QVariant.
Variable sanitizeValueMap : QMap.t QVariant → QMap.t QVariant.
Variable mightBeOpticalDisc :
  string → QMap.t (QMap.t (QMap.t QVariant))
  → bool * QMap.t (QMap.t (QMap.t QVariant)).
Variable devicesFromQuery :
  string → DeviceInterfaceType → QMap.t (QMap.t (QMap.t QVariant))
  → list string * QMap.t (QMap.t (QMap.t QVariant)).
Variable m_supportedInterfaces : gset DeviceInterfaceType.

Local Abbreviation backends :=
  (System.managerBackends K sanitizeValueMap devicesFromQuery
                          m_supportedInterfaces).
Local Abbreviation step :=
  (System.step K sanitizeValue sanitizeValueMap mightBeOpticalDisc
               devicesFromQuery m_supportedInterfaces).
Local Abbreviation run :=
  (System.run K sanitizeValue sanitizeValueMap mightBeOpticalDisc
              devicesFromQuery m_supportedInterfaces).
Local Abbreviation deliver_all :=
  (System.deliver_all K sanitizeValueMap devicesFromQuery
                      m_supportedInterfaces).

Implicit Types (r : Registry) (w : System.World QVariant).

(** The manager makes a device for every identifier of its tree that its
    cache tracks, when that cache has an entry. *)
Lemma tracked_device_is_created udi w :
  startsWith udi (UDisks2.UD2_UDI_DISKS_PREFIX K) = true →
  QMap.contains udi (System.m_cache w) = true →
  createBackendObject backends udi w = (Some (BackendDevice udi), w).
Proof.
  intros Hprefix Htracked. cbn. unfold UDisks2.udiPrefix. rewrite Hprefix.
  cbn [negb]. unfold UDisks2.createDevice, UDisks2.deviceCache.
  destruct (String.eqb udi (UDisks2.udiPrefix K)); [by destruct w|].
  assert (Hentries : QMap.isEmpty (System.m_cache w) = false).
  { apply nonempty_iff_entry. exists udi. by apply contains_true. }
  rewrite Hentries, Htracked. by destruct w.
Qed.

Lemma rebound_handle_reads p object r dev :
  objects r !! p = Some dev →
  objects (store_backend p object r) !! p ≫= backendObject = object.
Proof. intros Hdev. by rewrite (store_backend_lookup _ _ _ _ Hdev). Qed.

(** X19.  A handle that waits for its device is bound when the device
    arrives.  When the service announces an object that the manager does not
    track, under the UDisks2 tree and not a job, and the frontend holds a
    handle for that identifier without a backing object, the handle gets the
    device the manager makes for it, the assertion of the slot holds in a
    debug build as well, and the frontend announces the device once. *)
Theorem arrival_binds_waiting_handle checked udi supplied r w p dev :
  startsWith udi (UDisks2.UD2_UDI_DISKS_PREFIX K) = true →
  startsWith udi (UDisks2.UD2_DBUS_PATH_JOBS K) = false →
  QMap.contains udi (System.m_cache w) = false →
  registered_handle r udi p dev →
  backendObject dev = None →
  step checked (System.InterfacesAdded udi supplied) r w
  = Done (store_backend p (Some (BackendDevice udi)) r,
          System.with_cache w
            (UDisks2.slotInterfacesAdded K sanitizeValueMap (System.bus w)
               udi supplied (System.m_cache w)).1.1,
          [deviceAdded udi]).
Proof.
  intros Hprefix Hjob Hnew [Hregistered Hdev] Hwaiting.
  unfold System.step, UDisks2.slotInterfacesAdded.
  rewrite Hjob, Hnew. cbn [negb orb fst snd System.deliver_all System.deliver].
  unfold _k_deviceAdded. rewrite Hregistered, Hdev, Hwaiting.
  rewrite tracked_device_is_created; [|done|].
  2:{ apply contains_true. cbn. rewrite find_insert_eq. by eexists. }
  rewrite (rebound_handle_reads _ _ _ _ Hdev).
  rewrite bool_decide_eq_true_2 by by eexists.
  by rewrite Q_ASSERT_holds.
Qed.

(** X20.  The removal of interfaces reaches the handle.  For a tracked
    device under the UDisks2 tree whose handle has a backing object, an
    [InterfacesRemoved] passes both assertions of the removal slot; when the
    device is still tracked afterwards, the frontend announces a removal and
    then an addition and the handle ends up bound to a new device; when it
    is not, the frontend announces the removal alone and the handle is left
    without a backing object. *)
Theorem removal_reaches_the_handle checked udi names r w p dev :
  udi ≠ "" →
  startsWith udi (UDisks2.UD2_UDI_DISKS_PREFIX K) = true →
  startsWith udi (UDisks2.UD2_DBUS_PATH_JOBS K) = false →
  QMap.contains udi (System.m_cache w) = true →
  registered_handle r udi p dev →
  is_Some (backendObject dev) →
  let cache :=
    (UDisks2.slotInterfacesRemoved K udi names (System.m_cache w)).1 in
  step checked (System.InterfacesRemoved udi names) r w
  = Done (if QMap.contains udi cache
          then store_backend p (Some (BackendDevice udi))
                             (store_backend p None r)
          else store_backend p None r,
          System.with_cache w cache,
          if QMap.contains udi cache
          then [deviceRemoved udi; deviceAdded udi]
          else [deviceRemoved udi]).
Proof.
  intros Hudi Hprefix Hjob Htracked [Hregistered Hdev] Hbound. cbn zeta.
  unfold System.step, UDisks2.slotInterfacesRemoved.
  apply isEmpty_false in Hudi. rewrite Hudi, Hjob.
  apply contains_true in Htracked as [cached Hcached]. rewrite Hcached.
  assert (Hremoved : _k_deviceRemoved checked udi r
                     = Done (store_backend p None r, [deviceRemoved udi])).
  { unfold _k_deviceRemoved. rewrite Hregistered, Hdev.
    rewrite (bool_decide_eq_true_2 _ Hbound), Q_ASSERT_holds.
    cbn [mbind Run_bind]. rewrite (rebound_handle_reads _ _ _ _ Hdev).
    by rewrite bool_decide_eq_true_2, Q_ASSERT_holds by done. }
  destruct (QMap.isEmpty _) eqn:Hleft; cbn [fst snd].
  - assert (Hgone : QMap.contains (V := QMap.t (QMap.t QVariant)) udi
              (QMap.remove udi
                 (QMap.insert udi
                    (fold_left (fun props iface => QMap.remove iface props)
                               names cached) (System.m_cache w))) = false).
    { apply contains_false. by rewrite find_remove_eq. }
    rewrite Hgone. cbn [System.deliver_all System.deliver].
    by rewrite Hremoved.
  - assert (Hstill : QMap.contains (V := QMap.t (QMap.t QVariant)) udi
              (QMap.insert udi
                 (fold_left (fun props iface => QMap.remove iface props)
                            names cached) (System.m_cache w)) = true).
    { apply contains_true. rewrite find_insert_eq. by eexists. }
    rewrite Hstill. cbn [System.deliver_all System.deliver].
    rewrite Hremoved.
    cbn [mbind Run_bind mret Run_ret System.deliver_all System.deliver].
    pose proof (store_backend_lookup p None r dev Hdev) as Hnulled.
    unfold _k_deviceAdded.
    change (m_devicesMap (store_backend p None r)) with (m_devicesMap r).
    rewrite Hregistered, Hnulled. cbn [backendObject m_backendObject].
    rewrite tracked_device_is_created by done.
    rewrite (rebound_handle_reads _ _ _ _ Hnulled).
    rewrite bool_decide_eq_true_2 by by eexists.
    by rewrite Q_ASSERT_holds.
Qed.

Lemma deliver_all_inv checked signals r w r' w' out :
  registry_inv r →
  deliver_all checked signals r w = Done (r', w', out) →
  registry_inv r'.
Proof.
  revert r w r' w' out.
  induction signals as [|signal rest IH]; intros r w r' w' out Hinv;
    cbn [System.deliver_all].
  - by intros [= <- <- <-].
  - destruct (System.deliver _ _ _ _ checked signal r w)
      as [[[r1 w1] out1]|] eqn:Hone; cbn [mbind Run_bind]; [|done].
    assert (Hinv1 : registry_inv r1).
    { destruct signal as [udi|udi|udi changes]; cbn [System.deliver] in Hone.
      - by eapply added_inv.
      - destruct (_k_deviceRemoved checked udi r) as [[r0 signals0]|] eqn:Hr;
          cbn [mbind Run_bind] in Hone; [|done].
        injection Hone as <- <- <-. by eapply removed_inv.
      - by injection Hone as <- <- <-. }
    destruct (deliver_all checked rest r1 w1) as [[[r2 w2] out2]|] eqn:Hrest;
      cbn [mbind Run_bind]; [|done].
    intros [= <- <- <-]. by eapply IH.
Qed.

(** X21.  The registry stays consistent through everything that can happen
    to the system.  Whenever a course of lookups, listings, changes of the
    service and signals runs to its end, the identity map and the object
    store of the frontend still describe each other, so that there is still
    at most one live handle per identifier. *)
Theorem run_keeps_registry_consistent checked events r w r' w' out :
  registry_inv r →
  run checked events r w = Done (r', w', out) →
  registry_inv r' ∧ unique_handles r'.
Proof.
  intros Hinv Hrun. cut (registry_inv r').
  { intros Hinv'. split; [done|by apply inv_unique_handles]. }
  revert r w r' w' out Hinv Hrun.
  induction events as [|e rest IH]; intros r w r' w' out Hinv;
    cbn [System.run].
  - by intros [= <- <- <-].
  - destruct (step checked e r w) as [[[r1 w1] out1]|] eqn:Hstep;
      cbn [mbind Run_bind]; [|done].
    assert (Hinv1 : registry_inv r1).
    { destruct e; cbn [System.step] in Hstep.
      - pose proof (find_inv backends udi r w Hinv) as Hfound.
        destruct (findRegisteredDevice _ _ _ _) as [[? ?] ?].
        by injection Hstep as <- <- <-.
      - pose proof (allDevices_extends backends backends r w Hinv) as Hall.
        unfold Device_allDevices in Hstep.
        destruct (allDevices_backends _ _ _ _) as [[? ?] ?].
        destruct Hall as [? _]. by injection Hstep as <- <- <-.
      - by injection Hstep as <- <- <-.
      - destruct (UDisks2.slotInterfacesAdded _ _ _ _ _ _) as [[? ?] ?].
        by eapply deliver_all_inv.
      - destruct (UDisks2.slotInterfacesRemoved _ _ _ _) as [? ?].
        by eapply deliver_all_inv.
      - destruct (UDisks2.slotPropertiesChanged _ _ _ _ _) as [? ?].
        by eapply deliver_all_inv. }
    destruct (run checked rest r1 w1) as [[[r2 w2] out2]|] eqn:Hrest;
      cbn [mbind Run_bind]; [|done].
    intros [= <- <- <-]. by eapply IH.
Qed.

End Facts.

(** *** The theorems at work on closed instances *)

Lemma arrival_binds_waiting_handle_witness :
  registered_handle Sample.unresolved Sample.sr0 2%positive
                    (mkDevicePrivate Sample.sr0 None) ∧
  ∃ w,
    Sample.run_sample true [System.InterfacesAdded Sample.sr0
                                                   (Sample.drive 512)]
                      Sample.unresolved Sample.world0
    = Done (store_backend 2%positive (Some (BackendDevice Sample.sr0))
                          Sample.unresolved,
            w, [deviceAdded Sample.sr0]).
Proof.
  assert (Hreg : registered_handle Sample.unresolved Sample.sr0 2%positive
                                   (mkDevicePrivate Sample.sr0 None)).
  { split; vm_compute; reflexivity. }
  split; [exact Hreg|]. eexists.
  unfold Sample.run_sample. cbn [System.run].
  rewrite (arrival_binds_waiting_handle
             Sample.constants Sample.keep Sample.keep_all Sample.optical
             (fun _ _ cache => ([], cache)) ∅ true Sample.sr0
             (Sample.drive 512) Sample.unresolved Sample.world0 2%positive
             _ eq_refl eq_refl eq_refl Hreg eq_refl).
  reflexivity.
Defined.

Lemma removal_reaches_the_handle_witness :
  registered_handle Sample.resolved Sample.sr0 2%positive
    (mkDevicePrivate Sample.sr0 (Some (BackendDevice Sample.sr0))) ∧
  ∃ w,
    System.step Sample.constants Sample.keep Sample.keep_all Sample.optical
                (fun _ _ cache => ([], cache)) ∅ true
                (System.InterfacesRemoved Sample.sr0 [Sample.Block])
                Sample.resolved Cases.tracking_sr0
    = Done (store_backend 2%positive None Sample.resolved, w,
            [deviceRemoved Sample.sr0]).
Proof.
  assert (Hreg : registered_handle Sample.resolved Sample.sr0 2%positive
            (mkDevicePrivate Sample.sr0 (Some (BackendDevice Sample.sr0)))).
  { split; vm_compute; reflexivity. }
  split; [exact Hreg|]. eexists.
  assert (Hudi : Sample.sr0 ≠ "") by discriminate.
  rewrite (removal_reaches_the_handle
             Sample.constants Sample.keep Sample.keep_all Sample.optical
             (fun _ _ cache => ([], cache)) ∅ true Sample.sr0 [Sample.Block]
             Sample.resolved Cases.tracking_sr0 2%positive _
             Hudi eq_refl eq_refl eq_refl Hreg (mk_is_Some _ _ eq_refl)).
  reflexivity.
Defined.

Lemma run_keeps_registry_consistent_witness :
  Sample.run_sample true Sample.disk_missed initial Sample.world0
  = Done Cases.after_disk_missed ∧
  registry_inv Cases.after_disk_missed.1.1 ∧
  unique_handles Cases.after_disk_missed.1.1.
Proof.
  assert (Hrun : Sample.run_sample true Sample.disk_missed initial
                                   Sample.world0
                 = Done (Cases.after_disk_missed.1.1,
                         Cases.after_disk_missed.1.2,
                         Cases.after_disk_missed.2)).
  { vm_compute. reflexivity. }
  split; [vm_compute; reflexivity|].
  exact (run_keeps_registry_consistent
           Sample.constants Sample.keep Sample.keep_all Sample.optical
           (fun _ _ cache => ([], cache)) ∅ true Sample.disk_missed
           initial Sample.world0 _ _ _ initial_inv Hrun).
Defined.

End WiringFacts.

(** ** Queries of the manager *)

Module QueryFacts.
Import Qt QtFacts QMapFacts UDisks2 UDisks2Facts ManagerRun.

Section Facts.
Context {QVariant : Type} `{!QVariantOps QVariant}.
Variable K : Constants.
Variable sanitizeValueMap : QMap.t QVariant → QMap.t QVariant.
Variable queryDeviceInterface :
  string → Frontend.DeviceInterfaceType → QMap.t (QMap.t (QMap.t QVariant))
  → bool * QMap.t (QMap.t (QMap.t QVariant)).
Variable parentUdiOf :
  string → QMap.t (QMap.t (QMap.t QVariant))
  → string * QMap.t (QMap.t (QMap.t QVariant)).
Variable Unknown : Frontend.DeviceInterfaceType.

Lemma devicesUnder_sublist keys type parentUdi
      (m : QMap.t (QMap.t (QMap.t QVariant))) :
  (devicesUnder queryDeviceInterface parentUdiOf keys type parentUdi m).1
  `sublist_of` keys.
Proof.
  revert m. induction keys as [|udi rest IH]; intros m; cbn; [done|].
  destruct (queryDeviceInterface udi type m) as [has cache1].
  set (asked := if has then _ else _).
  destruct asked as [under cache2]. specialize (IH cache2).
  destruct (devicesUnder _ _ rest type parentUdi cache2) as [result cache3].
  cbn in *. destruct under; [by apply sublist_skip|by apply sublist_cons].
Qed.

Lemma devicesOfType_sublist keys type
      (m : QMap.t (QMap.t (QMap.t QVariant))) :
  (devicesOfType queryDeviceInterface keys type m).1 `sublist_of` keys.
Proof.
  revert m. induction keys as [|udi rest IH]; intros m; cbn; [done|].
  destruct (queryDeviceInterface udi type m) as [has cache1].
  specialize (IH cache1).
  destruct (devicesOfType _ rest type cache1) as [result cache2].
  cbn in *. destruct has; [by apply sublist_skip|by apply sublist_cons].
Qed.

(** X22.  A query lists tracked devices only.  Whatever the parent and the
    type, and whatever the device objects do to the cache while they are
    asked, [devicesFromQuery] returns identifiers that the cache tracked
    when the query began (after the resync that an empty cache triggers),
    each at most as often as the cache lists it and in the order of the
    cache; with no parent and the type [Unknown] it returns all of them. *)
Theorem query_lists_tracked_devices_only bus parentUdi type
        (m : QMap.t (QMap.t (QMap.t QVariant))) :
  let devices := deviceCache K sanitizeValueMap bus m in
  let outcome :=
    devicesFromQuery K sanitizeValueMap queryDeviceInterface parentUdiOf
                     Unknown bus parentUdi type m in
  outcome.1 `sublist_of` QMap.keys devices ∧
  (∀ udi, udi ∈ outcome.1 → QMap.contains udi devices = true) ∧
  (parentUdi = "" → type = Unknown →
   outcome = (QMap.keys devices, devices)).
Proof.
  cbn zeta. unfold devicesFromQuery.
  set (devices := deviceCache K sanitizeValueMap bus m).
  assert (Hsub :
    (if negb (isEmpty parentUdi)
     then devicesUnder queryDeviceInterface parentUdiOf (QMap.keys devices)
                       type parentUdi devices
     else if negb (type =? Unknown)%N
          then devicesOfType queryDeviceInterface (QMap.keys devices) type
                             devices
          else (QMap.keys devices, devices)).1
    `sublist_of` QMap.keys devices).
  { destruct (negb (isEmpty parentUdi)); [apply devicesUnder_sublist|].
    destruct (negb (type =? Unknown)%N); [apply devicesOfType_sublist|done]. }
  split; [done|]. split.
  - intros udi Hin. apply contains_true, find_Some_keys.
    by eapply elem_of_sublist.
  - intros -> ->. by rewrite N.eqb_refl.
Qed.

End Facts.
End QueryFacts.

(** ** Storage access of the fstab backend *)

Module FstabFacts.
Import Qt QtFacts Fstab.

Section Facts.
Variable currentMountPoints : string → list string.
Variable mountPoints : string → list string.
Variable options : string → list string.
Variable started : string → list string → bool.
Variable FSTAB_UDI_PREFIX : string.

(** X23.  A change of the mount table brings a storage access to what a new
    one would be.  When the slot for [mtabChanged] has a result, the file
    path and the accessibility it leaves are those the constructor computes
    for the device of the signal, whatever they were before; it keeps the
    ignore flag, and it announces once the accessibility it has set, under
    the identifier of that device.  It has no result exactly when the device
    is mounted nowhere and the table lists no mount point for it, where the
    constructor gives the empty path. *)
Theorem mtab_change_matches_construction dev access :
  let built := create currentMountPoints mountPoints options dev in
  let outcome :=
    onMtabChanged currentMountPoints mountPoints FSTAB_UDI_PREFIX
                  dev access in
  (outcome = None ↔ currentMountPoints dev = [] ∧ mountPoints dev = []) ∧
  match outcome with
  | Some (changed, signals) =>
      m_filePath changed = m_filePath built ∧
      m_isAccessible changed = m_isAccessible built ∧
      m_isIgnored changed = m_isIgnored access ∧
      device changed = device access ∧
      signals = [accessibilityChanged
                   (m_isAccessible changed)
                   (FSTAB_UDI_PREFIX ++ "/" ++ dev)%string] ∧
      (m_isAccessible changed = true ↔ currentMountPoints dev ≠ [])
  | None =>
      currentMountPoints dev = [] ∧ mountPoints dev = [] ∧
      m_filePath built = "" ∧ m_isAccessible built = false
  end.
Proof.
  cbn zeta. unfold onMtabChanged, create.
  destruct (currentMountPoints dev) as [|current rest].
  - destruct (mountPoints dev) as [|listed others]; cbn.
    + by split.
    + split; [split; [done|by intros [_ ?]]|].
      do 5 (split; [done|]). split; [done|]. intros Hne. by destruct Hne.
  - cbn. split; [split; [done|by intros [? _]]|].
    do 5 (split; [done|]). split; [by intros _|done].
Qed.

(** X24.  Mounting and unmounting need a mount point.  A storage access
    built for a device that is mounted nowhere and has no mount point in the
    table refuses [setup] and [teardown]: each returns false, announces
    nothing and runs no command.  One built for a device that is mounted
    runs [mount] and [umount] on the first place it is mounted at, not on
    what the table lists, after it has announced the action. *)
Theorem actions_need_a_mount_point dev :
  let access := create currentMountPoints mountPoints options dev in
  (currentMountPoints dev = [] → mountPoints dev = [] →
   setup started access = (false, []) ∧
   teardown started access = (false, [])) ∧
  (∀ current rest, currentMountPoints dev = current :: rest →
     current ≠ "" →
     setup started access
     = (started "mount" [current],
        [broadcastActionRequested "setup";
         callSystemCommand "mount" [current]]) ∧
     teardown started access
     = (started "umount" [current],
        [broadcastActionRequested "teardown";
         callSystemCommand "umount" [current]])).
Proof.
  cbn zeta. unfold create, setup, teardown, filePath. split.
  - by intros -> ->.
  - intros current rest -> Hcurrent. cbn [m_filePath].
    apply isEmpty_false in Hcurrent. by rewrite Hcurrent.
Qed.

End Facts.

(** *** The theorems at work on closed instances *)

Lemma actions_need_a_mount_point_witness :
  setup (fun _ _ => true)
        (create (fun _ => ["/media/usb"]) (fun _ => ["/mnt"]) (fun _ => [])
                "/dev/sdb1")
  = (true, [broadcastActionRequested "setup";
            callSystemCommand "mount" ["/media/usb"]]).
Proof.
  destruct (actions_need_a_mount_point
              (fun _ => ["/media/usb"]) (fun _ => ["/mnt"]) (fun _ => [])
              (fun _ _ => true) "/dev/sdb1") as [_ Hmounted].
  assert (Hplace : "/media/usb" ≠ "") by discriminate.
  destruct (Hmounted "/media/usb" [] eq_refl Hplace) as [Hsetup _].
  exact Hsetup.
Defined.

End FstabFacts.
